(** * Hydrogen Safety Trainer: quiz engine, recommendation builder and
      dispersion simulator

    A shallow embedding of [quiz_engine.py] (class [QuizEngine]) and of the
    two computational parts of [app.py] ([TrainerApp._build_recommendations]
    and [SafetyAnimation._step]), followed by the properties of the
    specification that concern them.

    Conventions.  Python integers are [Z]; Python lists are [list]; a Python
    [str] is a [string] holding its UTF-8 bytes; [None] is [None].  The
    engine object is a record that every method takes and returns; a method
    with a return value returns a pair. *)

From Stdlib Require Import String Ascii List ZArith Lia Bool Arith.
From Stdlib Require Import Permutation Sorted.
From Stdlib Require Import QArith Qminmax Lqa Floats Uint63.
From Stdlib Require DecimalString.
Import ListNotations.

Set Warnings "-inexact-float".

Local Open Scope string_scope.
Local Open Scope list_scope.
Local Open Scope Z_scope.

(* ================================================================= *)
(** ** Question model ([quiz_engine.py], [class Question]) *)

Record Question := mkQuestion {
  id : string;
  category : string;
  difficulty : string;
  question : string;
  choices : list string;
  correct_index : Z;
  rationale : string
}.

(** The answer record appended to the history: the dict literal [rec] of
    [check_and_record], one field per key. *)
Record AnswerRecord := mkRec {
  rec_id : string;
  rec_question : string;
  rec_chosen : string;
  rec_correct_text : string;
  rec_is_correct : bool;
  rec_rationale : string;
  rec_category : string;
  rec_difficulty : string
}.

(** [class QuizEngine]: the five attributes set by [__init__]. *)
Record QuizEngine := mkEngine {
  all_questions : list Question;
  quiz_items : list Question;
  index : Z;
  correct_count : Z;
  history : list AnswerRecord
}.

(** [QuizEngine.__init__] *)
Definition new_engine (questions : list Question) : QuizEngine :=
  mkEngine questions [] 0 0 [].

(* ----------------------------------------------------------------- *)
(** *** [random.shuffle]

    The in-place Fisher-Yates loop of Python's [random.shuffle]:
    [for i in reversed(range(1, len(x))): j = randbelow(i + 1);
     x[i], x[j] = x[j], x[i]].
    The generator is an oracle [randbelow]; its answer for the bound [i + 1]
    is reduced modulo the bound, so every oracle describes a legal run. *)

Definition swap {A} (i j : nat) (x : list A) : list A :=
  match nth_error x i, nth_error x j with
  | Some xi, Some xj =>
      let x1 := firstn i x ++ xj :: skipn (S i) x in
      firstn j x1 ++ xi :: skipn (S j) x1
  | _, _ => x
  end.

Fixpoint shuffle_down {A} (randbelow : nat -> nat) (i : nat) (x : list A)
  : list A :=
  match i with
  | O => x
  | S i' =>
      let j := Nat.modulo (randbelow (S i)) (S i) in
      shuffle_down randbelow i' (swap i j x)
  end.

Definition shuffle {A} (randbelow : nat -> nat) (x : list A) : list A :=
  shuffle_down randbelow (Nat.pred (length x)) x.

(* ----------------------------------------------------------------- *)
(** *** Engine operations *)

(** The list comprehension of [prepare_quiz]:
    [[q for q in self.all_questions
        if (category is None or q.category == category)]]. *)
Definition category_matches (cat : option string) (q : Question) : bool :=
  match cat with
  | None => true
  | Some c => String.eqb (category q) c
  end.

Definition filter_pool (cat : option string) (bank : list Question)
  : list Question :=
  filter (category_matches cat) bank.

(** [pool[:k]] for [k >= 0]. *)
Definition slice_to {A} (k : Z) (l : list A) : list A :=
  firstn (Z.to_nat k) l.

(** [QuizEngine.prepare_quiz] *)
Definition prepare_quiz (randbelow : nat -> nat) (e : QuizEngine)
    (n : Z) (cat : option string) (do_shuffle : bool) : QuizEngine :=
  let pool := filter_pool cat (all_questions e) in
  let pool := if do_shuffle then shuffle randbelow pool else pool in
  mkEngine (all_questions e) (slice_to (Z.max 1 n) pool) 0 0 [].

(** [QuizEngine.current] *)
Definition current (e : QuizEngine) : option Question :=
  if (0 <=? index e) && (index e <? Z.of_nat (length (quiz_items e)))
  then nth_error (quiz_items e) (Z.to_nat (index e))
  else None.

(** [l[i] if 0 <= i < len(l) else ""] *)
Definition choice_text (l : list string) (i : Z) : string :=
  if (0 <=? i) && (i <? Z.of_nat (length l))
  then nth (Z.to_nat i) l ""
  else "".

(** [QuizEngine.check_and_record]: the returned pair and the engine after
    the call. *)
Definition check_and_record (e : QuizEngine) (chosen_index : Z)
  : (bool * string) * QuizEngine :=
  match current e with
  | None => ((false, ""), e)
  | Some q =>
      let is_correct := chosen_index =? correct_index q in
      let cc := if is_correct then correct_count e + 1 else correct_count e in
      let rec := mkRec (id q) (question q)
                       (choice_text (choices q) chosen_index)
                       (choice_text (choices q) (correct_index q))
                       is_correct (rationale q) (category q) (difficulty q) in
      ((is_correct, rationale q),
       mkEngine (all_questions e) (quiz_items e) (index e) cc
                (history e ++ [rec]))
  end.

(** [QuizEngine.next] *)
Definition next (e : QuizEngine) : bool * QuizEngine :=
  if index e + 1 <? Z.of_nat (length (quiz_items e))
  then (true, mkEngine (all_questions e) (quiz_items e) (index e + 1)
                       (correct_count e) (history e))
  else (false, e).

(** [QuizEngine.score] *)
Definition score (e : QuizEngine) : Z := correct_count e.

(** A session is [prepare_quiz] followed by any sequence of the two mutating
    calls. *)
Inductive op :=
| CheckAndRecord (chosen_index : Z)
| Next.

Definition step (e : QuizEngine) (o : op) : QuizEngine :=
  match o with
  | CheckAndRecord i => snd (check_and_record e i)
  | Next => snd (next e)
  end.

Definition run (ops : list op) (e : QuizEngine) : QuizEngine :=
  fold_left step ops e.

(** Number of [check_and_record] calls in a sequence of operations. *)
Definition submissions (ops : list op) : nat :=
  length (filter (fun o => match o with CheckAndRecord _ => true
                                      | Next => false end) ops).

(** Number of history entries marked correct. *)
Definition correct_entries (h : list AnswerRecord) : nat :=
  length (filter rec_is_correct h).

(** The operating discipline of the quiz tab when every question is answered
    at most once: [answered] tells whether the current question already has
    a record; a [check_and_record] is allowed only when it has none, and a
    [next] that advances makes the new current question unanswered. *)
Fixpoint once_per_question (answered : bool) (ops : list op) (e : QuizEngine)
  : bool :=
  match ops with
  | [] => true
  | CheckAndRecord i :: ops' =>
      negb answered
      && once_per_question true ops' (snd (check_and_record e i))
  | Next :: ops' =>
      let '(moved, e') := next e in
      once_per_question (if moved then false else answered) ops' e'
  end.

(* ================================================================= *)
(** ** Recommendation builder ([app.py], [TrainerApp._build_recommendations]) *)

(** The newline character and [sep.join(lines)]. *)
Definition nl : string := String (ascii_of_nat 10) "".

Definition join (sep : string) (lines : list string) : string :=
  String.concat sep lines.

(** A Python string is falsy exactly when it is empty. *)
Definition truthy (s : string) : bool := negb (String.eqb s "").

(** [collections.Counter], as the insertion-ordered dictionary it is: a list
    of keys with their counts, in order of first insertion.
    [counter_incr k c] is [c[k] += 1]: a present key keeps its place, a new
    key goes to the end with count 1. *)
Definition Counter := list (string * nat).

Fixpoint counter_incr (k : string) (c : Counter) : Counter :=
  match c with
  | [] => [(k, 1%nat)]
  | (k', v) :: c' =>
      if String.eqb k' k then (k', S v) :: c'
      else (k', v) :: counter_incr k c'
  end.

(** [collections.defaultdict(list)]: [d[k].append(r)] and [d.get(k, [])]. *)
Definition ListDict := list (string * list string).

Fixpoint dict_append (k r : string) (d : ListDict) : ListDict :=
  match d with
  | [] => [(k, [r])]
  | (k', l) :: d' =>
      if String.eqb k' k then (k', l ++ [r]) :: d'
      else (k', l) :: dict_append k r d'
  end.

Fixpoint dict_get (k : string) (d : ListDict) : list string :=
  match d with
  | [] => []
  | (k', l) :: d' => if String.eqb k' k then l else dict_get k d'
  end.

(** [Counter.most_common(n)] is [heapq.nlargest(n, self.items(), key=count)],
    which the Python library documents as
    [sorted(self.items(), key=count, reverse=True)[:n]]; [sorted] is stable,
    also with [reverse=True], so entries of equal count keep their insertion
    order.  The sort is written here as a stable insertion sort. *)
Fixpoint insert_desc (x : string * nat) (l : Counter) : Counter :=
  match l with
  | [] => [x]
  | y :: l' =>
      if (snd x <? snd y)%nat then y :: insert_desc x l'
      else x :: y :: l'
  end.

Definition sorted_desc (c : Counter) : Counter := fold_right insert_desc [] c.

Definition most_common (n : nat) (c : Counter) : Counter :=
  firstn n (sorted_desc c).

(** The aggregation loop over the history: the three dictionaries
    [wrong_by_cat], [wrong_by_diff] and [rationales]. *)
Definition tally_step (st : Counter * Counter * ListDict) (rec : AnswerRecord)
  : Counter * Counter * ListDict :=
  let '(wrong_by_cat, wrong_by_diff, rationales) := st in
  if negb (rec_is_correct rec) then
    (counter_incr (rec_category rec) wrong_by_cat,
     counter_incr (rec_difficulty rec) wrong_by_diff,
     if truthy (rec_rationale rec)
     then dict_append (rec_category rec) (rec_rationale rec) rationales
     else rationales)
  else st.

Definition tally_wrong (h : list AnswerRecord) : Counter * Counter * ListDict :=
  fold_left tally_step h ([], [], []).

Definition wrong_by_cat (h : list AnswerRecord) : Counter :=
  fst (fst (tally_wrong h)).
Definition wrong_by_diff (h : list AnswerRecord) : Counter :=
  snd (fst (tally_wrong h)).
Definition rationales (h : list AnswerRecord) : ListDict :=
  snd (tally_wrong h).

(** [top_cats = [c for c, _ in wrong_by_cat.most_common(3)]] *)
Definition top_cats (h : list AnswerRecord) : list string :=
  map fst (most_common 3 (wrong_by_cat h)).

(** [str(i)] for a non-negative integer. *)
Definition str_of_nat (i : nat) : string :=
  DecimalString.NilEmpty.string_of_uint (Nat.to_uint i).

(** The lines appended for one category: its bullet, then
    [for i, r in enumerate(rationales.get(cat, [])[:2], start=1)] a note. *)
Definition bullet_line (cat : string) : string :=
  "• " ++ cat ++ " — revise fundamentals and procedures.".

Definition note_line (i : nat) (r : string) : string :=
  "   ↳ Note " ++ str_of_nat i ++ ": " ++ r.

Fixpoint enumerate_from {A} (start : nat) (l : list A) : list (nat * A) :=
  match l with
  | [] => []
  | x :: l' => (start, x) :: enumerate_from (S start) l'
  end.

Definition category_lines (h : list AnswerRecord) (cat : string)
  : list string :=
  bullet_line cat
  :: map (fun ir => note_line (fst ir) (snd ir))
         (enumerate_from 1 (firstn 2 (dict_get cat (rationales h)))).

(** The optional difficulty hint: [hardest] is the key of
    [wrong_by_diff.most_common(1)[0]], reported only [if hardest:]. *)
Definition hint_line (hardest : string) : string :=
  "• Your toughest level: " ++ hardest
  ++ ". Try more practice questions in this difficulty.".

Definition difficulty_hint (h : list AnswerRecord) : list string :=
  match wrong_by_diff h with
  | [] => []
  | _ :: _ =>
      match most_common 1 (wrong_by_diff h) with
      | (hardest, _) :: _ => if truthy hardest then [hint_line hardest] else []
      | [] => []
      end
  end.

Definition congratulation : string :=
  nl ++ "Recommendations:" ++ nl
  ++ "• Great job — no missed questions. Review tips tab for reinforcement.".

Definition topics_header : string :=
  nl ++ "Recommendations (focus on these topics):".

(** [TrainerApp._build_recommendations], with [self.engine] as its argument
    ([None] before a bank is loaded). *)
Definition build_recommendations (engine : option QuizEngine) : string :=
  match engine with
  | None => ""
  | Some e =>
      match history e with
      | [] => ""
      | _ :: _ =>
          match wrong_by_cat (history e) with
          | [] => congratulation
          | _ :: _ =>
              let lines :=
                [topics_header]
                ++ flat_map (category_lines (history e)) (top_cats (history e))
              in
              let lines := lines ++ difficulty_hint (history e) in
              join nl lines
          end
      end
  end.

(** Vocabulary of the properties: the incorrect records, how many of them
    fall in a category or a difficulty level, and where a key is first seen
    among them. *)
Definition wrong_records (h : list AnswerRecord) : list AnswerRecord :=
  filter (fun r => negb (rec_is_correct r)) h.

Definition count_key (k : string) (ks : list string) : nat :=
  length (filter (String.eqb k) ks).

Fixpoint first_pos (k : string) (ks : list string) : nat :=
  match ks with
  | [] => O
  | k' :: ks' => if String.eqb k k' then O else S (first_pos k ks')
  end.

Definition wrong_categories (h : list AnswerRecord) : list string :=
  map rec_category (wrong_records h).

Definition wrong_difficulties (h : list AnswerRecord) : list string :=
  map rec_difficulty (wrong_records h).

(** [outranks ks a b]: key [a] occurs more often in [ks] than [b], or as
    often and is seen first. *)
Definition outranks (ks : list string) (a b : string) : Prop :=
  (count_key b ks < count_key a ks)%nat
  \/ (count_key a ks = count_key b ks
      /\ (first_pos a ks < first_pos b ks)%nat).

(** [c[k]] on a [Counter]: the count of a present key, [0] for a missing
    one. *)
Fixpoint counter_get (k : string) (c : Counter) : nat :=
  match c with
  | [] => O
  | (k', v) :: c' => if String.eqb k' k then v else counter_get k c'
  end.

(** Counting a list of keys from an initial counter. *)
Definition tally_keys (ks : list string) (c : Counter) : Counter :=
  fold_left (fun c k => counter_incr k c) ks c.

(* ================================================================= *)
(** ** Dispersion simulator ([app.py], [class SafetyAnimation]) *)

(** The arithmetic of the grid.  The cells are NumPy [float] (IEEE binary64)
    and the parameters Python floats.  [_step] is written once over this
    interface and read in two ways: with exact rational numbers, and with
    the binary64 numbers of the kernel, whose operations round as Python's
    do. *)
Class Num (F : Type) : Type := {
  lit : Q -> F;                 (* a decimal literal such as 0.5 *)
  add : F -> F -> F;
  sub : F -> F -> F;
  mul : F -> F -> F;
  gtb : F -> F -> bool;         (* x > y *)
  maximum : F -> F -> F;        (* np.maximum on one cell *)
  minimum : F -> F -> F         (* np.minimum on one cell *)
}.

#[export] Instance Num_Q : Num Q := {
  lit q := q;
  add := Qplus;
  sub := Qminus;
  mul := Qmult;
  gtb x y := negb (Qle_bool x y);
  maximum x y := if Qle_bool y x then x else y;
  minimum x y := if Qle_bool x y then x else y
}.

(** binary64: an integer as a float, a decimal literal as the correctly
    rounded quotient of its numerator and denominator, and the NaN
    propagating maximum and minimum of NumPy. *)
Definition float_of_Z (z : Z) : float :=
  if z <? 0 then PrimFloat.opp (PrimFloat.of_uint63 (Uint63.of_Z (- z)))
  else PrimFloat.of_uint63 (Uint63.of_Z z).

Definition float_lit (q : Q) : float :=
  PrimFloat.div (float_of_Z (Qnum q)) (float_of_Z (Zpos (Qden q))).

Definition float_maximum (x y : float) : float :=
  if PrimFloat.is_nan x then x
  else if PrimFloat.is_nan y then y
  else if PrimFloat.ltb x y then y else x.

Definition float_minimum (x y : float) : float :=
  if PrimFloat.is_nan x then x
  else if PrimFloat.is_nan y then y
  else if PrimFloat.ltb y x then y else x.

#[export] Instance Num_float : Num float := {
  lit := float_lit;
  add := PrimFloat.add;
  sub := PrimFloat.sub;
  mul := PrimFloat.mul;
  gtb x y := PrimFloat.ltb y x;
  maximum := float_maximum;
  minimum := float_minimum
}.

(** The exact value of a finite binary64 number. *)
Definition exact_value (x : float) : option Q :=
  match Prim2SF x with
  | S754_zero _ => Some (0 # 1)
  | S754_finite s m e =>
      Some (Qmult (inject_Z (if s then Z.neg m else Z.pos m))
                  (Qpower (2 # 1) e))
  | _ => None
  end.

Module SafetyAnimation.

(** The constants fixed by [__init__]. *)
Definition NX : nat := 70.
Definition NY : nat := 35.
Definition leak_cell : nat * nat := (6, NY - 4)%nat.
Definition vent_x0 : nat := 20.
Definition vent_x1 : nat := (NX - 20)%nat.

Section Step.
Context {F : Type} `{Num F}.

(** A two-dimensional array, as the list of its rows. *)
Definition Grid := list (list F).

(** The four slider variables. *)
Record Params := mkParams {
  leak_rate : F;
  vent_strength : F;
  buoyancy : F;
  diffusion : F
}.

(** [np.zeros((NY, NX))] *)
Definition zeros (ny nx : nat) : Grid := repeat (repeat (lit (0 # 1)) nx) ny.

Definition _init_grid : Grid := zeros NY NX.

(** Elementwise operations on arrays of one shape, and a scalar times an
    array. *)
Fixpoint zip_with {A B C} (f : A -> B -> C) (l1 : list A) (l2 : list B)
  : list C :=
  match l1, l2 with
  | a :: l1', b :: l2' => f a b :: zip_with f l1' l2'
  | _, _ => []
  end.

Definition arr_add (X Y : Grid) : Grid := zip_with (zip_with add) X Y.
Definition arr_sub (X Y : Grid) : Grid := zip_with (zip_with sub) X Y.
Definition arr_scale (k : F) (X : Grid) : Grid := map (map (mul k)) X.

(** One-dimensional slices [l[1:-1]], [l[:-1]], [l[1:]], [l[2:]],
    [l[:-2]]. *)
Definition mid {A} (l : list A) : list A := removelast (tl l).
Definition drop_last {A} (k : nat) (l : list A) : list A :=
  firstn (length l - k) l.

(** Slice assignment [l[:-1] = v], [l[1:] = v] and [l[1:-1] = v], with
    [v] of the length of the slice. *)
Definition set_init {A} (v l : list A) : list A :=
  v ++ skipn (length l - 1) l.
Definition set_tail {A} (v l : list A) : list A :=
  firstn 1 l ++ v.
Definition set_mid {A} (v l : list A) : list A :=
  if (length l <? 2)%nat then l
  else firstn 1 l ++ v ++ skipn (length l - 1) l.

(** [c[lj, li] += x].  The index lies inside every [NY] by [NX] array; on
    a smaller array NumPy raises [IndexError], and here the array is returned
    as it is. *)
Definition add_at (lj li : nat) (x : F) (c : Grid) : Grid :=
  match nth_error c lj with
  | Some row =>
      match nth_error row li with
      | Some v =>
          firstn lj c
          ++ (firstn li row ++ add v x :: skipn (S li) row)
          :: skipn (S lj) c
      | None => c
      end
  | None => c
  end.

(** Inject: [c[lj, li] += 0.5 * self.leak_rate.get()]. *)
Definition inject (leak : F) (c : Grid) : Grid :=
  let '(li, lj) := leak_cell in
  add_at lj li (mul (lit 0.5) leak) c.

(** Buoyancy, before the clamp: [tmp[:] = c[:]],
    [tmp[:-1, :] += up * c[1:, :]], [tmp[1:, :] -= up * c[1:, :]]. *)
Definition advect (up : F) (c : Grid) : Grid :=
  let tmp := c in
  let tmp := set_init (arr_add (drop_last 1 tmp) (arr_scale up (tl c))) tmp in
  let tmp := set_tail (arr_sub (tl tmp) (arr_scale up (tl c))) tmp in
  tmp.

(** [np.maximum(tmp, 0.0)] *)
Definition clamp_zero (tmp : Grid) : Grid :=
  map (map (fun x => maximum x (lit 0.0))) tmp.

Definition buoyancy_stage (up : F) (c : Grid) : Grid :=
  if gtb up (lit 0) then clamp_zero (advect up c) else c.

(** Diffusion, before the clamp: the interior [tmp[1:-1, 1:-1]] becomes
    [(1 - 4*d) * c[1:-1, 1:-1]
     + d * (c[2:, 1:-1] + c[:-2, 1:-1] + c[1:-1, 2:] + c[1:-1, :-2])]. *)
Definition diffuse (d : F) (c : Grid) : Grid :=
  let tmp := c in
  let centre := map mid (mid c) in
  let below := map mid (skipn 2 c) in
  let above := map mid (drop_last 2 c) in
  let right := map (skipn 2) (mid c) in
  let left := map (drop_last 2) (mid c) in
  let value :=
    arr_add (arr_scale (sub (lit 1) (mul (lit 4) d)) centre)
            (arr_scale d (arr_add (arr_add (arr_add below above) right)
                                  left)) in
  set_mid (zip_with set_mid value (mid tmp)) tmp.

Definition diffusion_stage (d : F) (c : Grid) : Grid :=
  if gtb d (lit 0) then clamp_zero (diffuse d c) else c.

(** Vent removal: [c[0, i0:i1] *= (1 - 0.6 * vent)] (row [0] exists in
    every array of the simulator; an array without rows is returned as it
    is). *)
Definition scale_slice (i0 i1 : nat) (k : F) (row : list F) : list F :=
  firstn i0 row
  ++ map (fun x => mul x k) (firstn (i1 - i0) (skipn i0 row))
  ++ skipn (Nat.max i0 i1) row.

Definition vent_stage (vent : F) (c : Grid) : Grid :=
  if gtb vent (lit 0) then
    match c with
    | [] => c
    | row0 :: rest =>
        scale_slice vent_x0 vent_x1
                    (sub (lit 1) (mul (lit 0.6) vent)) row0
        :: rest
    end
  else c.

(** [np.clip(c, 0.0, 5.0, out=c)] *)
Definition clip (c : Grid) : Grid :=
  map (map (fun x => minimum (maximum x (lit 0.0)) (lit 5.0))) c.

(** [SafetyAnimation._step]: the grid after one tick. *)
Definition _step (p : Params) (c : Grid) : Grid :=
  let c := inject (leak_rate p) c in
  let c := buoyancy_stage (buoyancy p) c in
  let c := diffusion_stage (diffusion p) c in
  let c := vent_stage (vent_strength p) c in
  clip c.

(** Every cell satisfies a test; the array has a given shape. *)
Definition all_cells (P : F -> bool) (c : Grid) : bool :=
  forallb (forallb P) c.

Definition has_shape (ny nx : nat) (c : Grid) : bool :=
  (length c =? ny)%nat && forallb (fun r => (length r =? nx)%nat) c.

(** The cells of the array, row after row. *)
Definition cells (c : Grid) : list F := concat c.
End Step.

Arguments Grid : clear implicits.
Arguments Params : clear implicits.

(** The total of all cells, in exact arithmetic. *)
Definition total (c : Grid Q) : Q := fold_right Qplus (0 # 1) (cells c).

(** The exact total of a binary64 grid, when every cell is finite. *)
Definition exact_total (c : Grid float) : option Q :=
  fold_right (fun x acc =>
                match exact_value x, acc with
                | Some v, Some a => Some (Qplus v a)
                | _, _ => None
                end)
             (Some (0 # 1)) (cells c).

End SafetyAnimation.

(* ================================================================= *)
(** ** Vocabulary of the properties *)

(** The invariant of a running session: the position is a valid index, or
    zero when there is nothing to index. *)
Definition session_ok (e : QuizEngine) : Prop :=
  0 <= index e <= Z.max 0 (Z.of_nat (length (quiz_items e)) - 1).

(** Score invariant, as preserved by one operation. *)
Definition score_ok (e : QuizEngine) : Prop :=
  correct_count e = Z.of_nat (correct_entries (history e)).

(** A one-question bank used in the examples below. *)
Definition sample_question : Question :=
  mkQuestion "q1" "Storage" "easy" "Is hydrogen lighter than air?"
             ["Yes"; "No"] 0 "It is the lightest gas.".

(** [seen_order ks a b]: key [a] is first seen in [ks] before key [b]. *)
Definition seen_order (ks : list string) (a b : string) : Prop :=
  (first_pos a ks < first_pos b ks)%nat.

(** [ranked P x y]: entry [x] has a larger count than [y], or the same count
    and comes before it in the sense of [P]. *)
Definition ranked (P : string * nat -> string * nat -> Prop)
    (x y : string * nat) : Prop :=
  (snd y < snd x)%nat \/ (snd x = snd y /\ P x y).

(** Answer records used in the examples below: an incorrect answer with a
    given category, difficulty and rationale, and a correct one. *)
Definition missed (cat diff why : string) : AnswerRecord :=
  mkRec "q" "Question?" "chosen" "correct" false why cat diff.

Definition answered_right (cat diff : string) : AnswerRecord :=
  mkRec "q" "Question?" "correct" "correct" true "" cat diff.

(** An engine that holds a given history. *)
Definition engine_with (h : list AnswerRecord) : QuizEngine :=
  mkEngine [] [] 0 0 h.

(** The sum of a row, and the two intermediate arrays of the buoyancy stage:
    [lifted] is [tmp] after [tmp[:-1, :] += up * c[1:, :]], and [lowered] is
    what [tmp -= up * c] makes of it on the rows it is applied to. *)
Definition row_sum (r : list Q) : Q := fold_right Qplus (0 # 1) r.

Definition lifted (up : Q) (c : SafetyAnimation.Grid Q)
  : SafetyAnimation.Grid Q :=
  SafetyAnimation.set_init
    (SafetyAnimation.arr_add (SafetyAnimation.drop_last 1 c)
                             (SafetyAnimation.arr_scale up (tl c))) c.

Definition lowered (up : Q) (c : SafetyAnimation.Grid Q)
  : SafetyAnimation.Grid Q :=
  SafetyAnimation.arr_sub (lifted up c) (SafetyAnimation.arr_scale up c).

(** The state of the default simulator before the buoyancy stage of its
    first tick, with the leak slider at 2.0: one cell holds 1.0. *)
Definition first_injection : SafetyAnimation.Grid float :=
  SafetyAnimation.inject (lit 2.0) SafetyAnimation._init_grid.

(** A row without negative cells. *)
Definition nonneg_row (r : list Q) : Prop := Forall (fun x => (0 <= x)%Q) r.

(* ================================================================= *)
(** ** Further parts of the quiz engine *)

(** [QuizEngine.categories]: [set(q.category for q in self.all_questions)].
    The set is given by a list of its members without repetition; the order
    of a Python set is unspecified, and nothing below depends on it. *)
Definition categories (e : QuizEngine) : list string :=
  nodup string_dec (map category (all_questions e)).

(** The record [check_and_record] builds for question [q] and the chosen
    index. *)
Definition answer_record (q : Question) (chosen_index : Z) : AnswerRecord :=
  mkRec (id q) (question q)
        (choice_text (choices q) chosen_index)
        (choice_text (choices q) (correct_index q))
        (chosen_index =? correct_index q)
        (rationale q) (category q) (difficulty q).

(** The invariant the data model asks of a question, with choices that are
    distinct and not blank. *)
Definition well_formed (q : Question) : Prop :=
  0 <= correct_index q < Z.of_nat (length (choices q))
  /\ NoDup (choices q)
  /\ ~ In "" (choices q).

(** Number of [next] calls in a sequence of operations. *)
Definition next_calls (ops : list op) : nat :=
  length (filter (fun o => match o with Next => true
                                      | CheckAndRecord _ => false end) ops).

(** A list without its element at position [i]. *)
Definition remove_at {A} (i : nat) (l : list A) : list A :=
  firstn i l ++ skipn (S i) l.

(* ================================================================= *)
(** ** Further vocabulary of the recommendation builder *)

(** The rationales of the incorrect records of a category, blank ones left
    out, in the order of the history. *)
Definition missed_rationales (h : list AnswerRecord) (cat : string)
  : list string :=
  map rec_rationale
      (filter (fun r => negb (rec_is_correct r)
                        && truthy (rec_rationale r)
                        && String.eqb (rec_category r) cat) h).

(* ================================================================= *)
(** ** Further vocabulary of the simulator *)

(** [c[j, i]], when the array has such a cell. *)
Definition cell {A} (j i : nat) (c : list (list A)) : option A :=
  match nth_error c j with
  | Some row => nth_error row i
  | None => None
  end.

(** An array of [ny] rows and [nx] columns. *)
Definition shaped {A} (ny nx : nat) (c : list (list A)) : Prop :=
  length c = ny /\ Forall (fun r => length r = nx) c.

Section CellFormulas.
Context {F : Type} `{Num F}.

(** What the buoyancy stage computes for the cell [(j, i)], before the
    clamp: the cell gains [up] times the cell below it when there is one,
    and then, except in the top row, loses [up] times its own old value. *)
Definition advect_cell (up : F) (c : list (list F)) (j i : nat) : option F :=
  match cell j i c with
  | None => None
  | Some x =>
      let t := match cell (S j) i c with
               | Some below => add x (mul up below)
               | None => x
               end in
      Some (match j with O => t | S _ => sub t (mul up x) end)
  end.

(** What the diffusion stage computes for the cell [(j, i)], before the
    clamp: a cell with four neighbours becomes
    [(1 - 4*d) * x + d * (below + above + right + left)], summed in that
    order; a cell of the outer ring keeps its value. *)
Definition diffuse_cell (d : F) (c : list (list F)) (j i : nat) : option F :=
  match cell j i c with
  | None => None
  | Some x =>
      match j, i with
      | S j', S i' =>
          match cell (S j) i c, cell j' i c, cell j (S i) c, cell j i' c with
          | Some below, Some above, Some rgt, Some lft =>
              Some (add (mul (sub (lit 1) (mul (lit 4) d)) x)
                        (mul d (add (add (add below above) rgt) lft)))
          | _, _, _, _ => Some x
          end
      | _, _ => Some x
      end
  end.

(** The factor of the vent stage, [1 - 0.6 * vent]. *)
Definition vent_factor (vent : F) : F := sub (lit 1) (mul (lit 0.6) vent).

(** Whether [(j, i)] lies in the vent span of the top row. *)
Definition in_vent (j i : nat) : bool :=
  (j =? 0)%nat && (SafetyAnimation.vent_x0 <=? i)%nat
  && (i <? SafetyAnimation.vent_x1)%nat.

(** Whether [(j, i)] is the leak cell. *)
Definition is_leak_cell (j i : nat) : bool :=
  (j =? snd SafetyAnimation.leak_cell)%nat
  && (i =? fst SafetyAnimation.leak_cell)%nat.
End CellFormulas.

(* ================================================================= *)
(** ** Percentage and pass mark ([summary], [finish_quiz], [start_quiz],
       [generate_certificate]) *)

(** Python's [int(x)] for a float: truncation toward zero; infinities and
    NaN raise, which is [None] here. *)
Definition py_int_of_float (x : float) : option Z :=
  match Prim2SF x with
  | S754_zero _ => Some 0
  | S754_finite s m e =>
      let mag := if 0 <=? e then Z.pos m * 2 ^ e else Z.pos m / 2 ^ (- e) in
      Some (if s then - mag else mag)
  | _ => None
  end.

(** Python's [a / b] for two integers, [b] not zero: the correctly rounded
    quotient.  Written as the quotient of the two conversions, which is the
    same number while both integers are below [2^53] in size. *)
Definition py_true_div (a b : Z) : float :=
  PrimFloat.div (float_of_Z a) (float_of_Z b).

(** [int(100 * score / max(1, total))], the percentage of [summary],
    [finish_quiz] and [generate_certificate]. *)
Definition percent (score total : Z) : option Z :=
  py_int_of_float (py_true_div (100 * score) (Z.max 1 total)).

(** Python's [min(a, b)] and [max(a, b)] on two floats: the second argument
    replaces the first only when it compares strictly below (above) it. *)
Definition py_min (a b : float) : float := if PrimFloat.ltb b a then b else a.
Definition py_max (a b : float) : float := if PrimFloat.ltb a b then b else a.

Definition PASS_THRESHOLD_DEFAULT : float := float_lit 0.70.

(** The threshold [start_quiz] stores:
    [max(0.0, min(1.0, float(self.thr_var.get()) / 100.0))], and the default
    when the conversion raises.  The argument is the float the entry text
    converts to, [None] when [float] raises. *)
Definition pass_threshold_of (entry : option float) : float :=
  match entry with
  | Some x =>
      py_max (float_lit 0.0)
             (py_min (float_lit 1.0) (PrimFloat.div x (float_lit 100.0)))
  | None => PASS_THRESHOLD_DEFAULT
  end.

(** [finish_quiz]: [self.passed = (pct / 100.0) >= self.pass_threshold]. *)
Definition passes (pct : Z) (pass_threshold : float) : bool :=
  PrimFloat.leb pass_threshold
                (PrimFloat.div (float_of_Z pct) (float_lit 100.0)).

Definition finish_passed (score total : Z) (pass_threshold : float)
  : option bool :=
  match percent score total with
  | Some pct => Some (passes pct pass_threshold)
  | None => None
  end.

(** [int(self.pass_threshold * 100)], the threshold shown in the status
    line. *)
Definition shown_threshold (pass_threshold : float) : option Z :=
  py_int_of_float (PrimFloat.mul pass_threshold (float_of_Z 100)).

(** The integers [0 .. n], and the checks run over them below. *)
Definition zrange (n : nat) : list Z := map Z.of_nat (seq 0 (S n)).

Definition percent_check (total score : Z) : bool :=
  match percent score total with
  | Some p => p =? 100 * score / Z.max 1 total
  | None => false
  end.

Definition pass_check (T pct : Z) : bool :=
  Bool.eqb (passes pct (pass_threshold_of (Some (float_of_Z T))))
           (T <=? pct).

Definition shown_check (T : Z) : bool :=
  match shown_threshold (pass_threshold_of (Some (float_of_Z T))) with
  | Some v => v =? (if existsb (Z.eqb T) [29; 57; 58] then T - 1 else T)
  | None => false
  end.

(* ================================================================= *)
(** ** Running the simulator ([SafetyAnimation.loop], [start], [pause],
       [reset]) *)

Module Animation.
Import SafetyAnimation.

Section Control.
Context {F : Type} `{Num F}.

(** The attributes the four methods read and write, and Tk's table of
    pending timers.  [self.after(40, self.loop)] enters a new timer that
    will call [loop] and returns its identifier (a non-empty string, so
    every identifier is truthy); [self.after_cancel(id)] removes the timer;
    a timer that comes due leaves the table and calls [loop]. *)
Record State := mkState {
  c : Grid F;
  params : Params F;
  running : bool;
  after_id : option nat;
  pending : list nat;
  fresh : nat
}.

(** The state after [__init__]. *)
Definition init : State :=
  mkState _init_grid
          (mkParams (lit 0.8) (lit 0.6) (lit 0.45) (lit 0.20))
          false None [] 0.

Definition remove_timer (id : nat) (l : list nat) : list nat :=
  filter (fun x => negb (Nat.eqb x id)) l.

(** [loop]: [self._step(); self._render()], then
    [if self.running: self.after_id = self.after(40, self.loop)]. *)
Definition loop (a : State) : State :=
  let a := mkState (_step (params a) (c a)) (params a) (running a)
                   (after_id a) (pending a) (fresh a) in
  if running a
  then mkState (c a) (params a) (running a) (Some (fresh a))
               (fresh a :: pending a) (S (fresh a))
  else a.

(** [start]: [if self.running: return], then
    [self.running = True; self.loop()]. *)
Definition start (a : State) : State :=
  if running a then a
  else loop (mkState (c a) (params a) true (after_id a) (pending a)
                     (fresh a)).

(** [pause]: [self.running = False], then
    [if self.after_id: self.after_cancel(self.after_id);
     self.after_id = None]. *)
Definition pause (a : State) : State :=
  match after_id a with
  | Some id =>
      mkState (c a) (params a) false None (remove_timer id (pending a))
              (fresh a)
  | None => mkState (c a) (params a) false None (pending a) (fresh a)
  end.

(** [reset]: [self.pause(); self._init_grid(); self._render()]. *)
Definition reset (a : State) : State :=
  let a := pause a in
  mkState _init_grid (params a) (running a) (after_id a) (pending a)
          (fresh a).

(** What happens to the object: a button is pressed, a slider is moved, or
    the timer [id] comes due. *)
Inductive event :=
| Start
| Pause
| Reset
| Slide (p : Params F)
| Due (id : nat).

Definition handle (a : State) (ev : event) : State :=
  match ev with
  | Start => start a
  | Pause => pause a
  | Reset => reset a
  | Slide p => mkState (c a) p (running a) (after_id a) (pending a) (fresh a)
  | Due id =>
      if existsb (Nat.eqb id) (pending a)
      then loop (mkState (c a) (params a) (running a) (after_id a)
                         (remove_timer id (pending a)) (fresh a))
      else a
  end.

Definition play (evs : list event) (a : State) : State :=
  fold_left handle evs a.

(** Exactly the timer stored in [after_id] is pending while running, and
    none while stopped. *)
Definition consistent (a : State) : Prop :=
  (pending a = match after_id a with Some id => [id] | None => [] end)
  /\ (running a = match after_id a with Some _ => true | None => false end)
  /\ (forall id, after_id a = Some id -> (id < fresh a)%nat).
End Control.

Arguments State : clear implicits.
Arguments event : clear implicits.
End Animation.

(* ================================================================= *)
(** ** Loading a bank ([Question.from_dict],
       [TrainerApp.load_questions_from_path]) *)

(** A record of the bank file as [json.load] gives it: a dict in which each
    of the seven keys may be absent.  The values that are present have the
    types of the bank format (strings, a list of strings and an integer),
    for which [str], [list] and [int] return their argument. *)
Record RawQuestion := mkRaw {
  raw_id : option string;
  raw_category : option string;
  raw_difficulty : option string;
  raw_question : option string;
  raw_choices : option (list string);
  raw_correct_index : option Z;
  raw_rationale : option string
}.

(** [d.get(key, default)] *)
Definition get_default {A} (v : option A) (default : A) : A :=
  match v with Some x => x | None => default end.

(** [Question.from_dict]; [None] is the [KeyError] of [d["question"]],
    [d["choices"]] or [d["correct_index"]]. *)
Definition from_dict (d : RawQuestion) : option Question :=
  match raw_question d, raw_choices d, raw_correct_index d with
  | Some q, Some ch, Some ci =>
      Some (mkQuestion (get_default (raw_id d) "")
                       (get_default (raw_category d) "General")
                       (get_default (raw_difficulty d) "")
                       q ch ci
                       (get_default (raw_rationale d) ""))
  | _, _, _ => None
  end.

(** [[Question.from_dict(q) for q in raw]]: the first failure ends the
    comprehension. *)
Fixpoint from_dicts (raw : list RawQuestion) : option (list Question) :=
  match raw with
  | [] => Some []
  | d :: raw' =>
      match from_dict d with
      | None => None
      | Some q =>
          match from_dicts raw' with
          | None => None
          | Some qs => Some (q :: qs)
          end
      end
  end.

(** [load_questions_from_path], as far as [self.engine] goes: the new value
    of [self.engine], and whether the error box was shown.  [raw] is what
    [json.load] returned, [None] when opening or parsing raised. *)
Definition load_questions_from_path (engine : option QuizEngine)
    (raw : option (list RawQuestion)) : option QuizEngine * bool :=
  match raw with
  | None => (engine, true)
  | Some records =>
      match from_dicts records with
      | Some questions => (Some (new_engine questions), false)
      | None => (engine, true)
      end
  end.

(** Whether a record has the three keys [from_dict] indexes. *)
Definition has_required_keys (d : RawQuestion) : bool :=
  match raw_question d, raw_choices d, raw_correct_index d with
  | Some _, Some _, Some _ => true
  | _, _, _ => false
  end.

(* ================================================================= *)
(** ** Wrapping the institution header ([certificate.py],
       [_draw_center_wrapped]) *)

Section Wrap.
(** Whether a candidate line fits:
    [c.stringWidth(t, font_name, font_size) <= max_width], with the font
    metrics of the PDF library. *)
Variable fits : string -> bool.

(** [(cur + " " + w).strip()] for a word [w] of [raw.split()], which is not
    empty and holds no white space: the strip removes the blank in front
    when [cur] is empty, and nothing otherwise. *)
Definition join_word (cur w : string) : string :=
  if String.eqb cur "" then w else cur ++ " " ++ w.

(** [if cur: lines.append(cur)] *)
Definition flush (cur : string) : list string :=
  if String.eqb cur "" then [] else [cur].

(** The lines the inner loop appends for the words of one raw line, the
    current line being [cur]. *)
Fixpoint wrap_from (cur : string) (words : list string) : list string :=
  match words with
  | [] => flush cur
  | w :: words' =>
      let t := join_word cur w in
      if fits t then wrap_from t words'
      else flush cur ++ wrap_from w words'
  end.

(** The list [lines] built from the words of the raw lines of the text
    ([raw.split()] for [raw] in [text.splitlines()]). *)
Definition wrapped_lines (text : list (list string)) : list string :=
  flat_map (wrap_from "") text.
End Wrap.

(* ================================================================= *)
(** ** A complete walk through a quiz *)

(** The calls the quiz tab makes when the user answers each question once
    and presses "Next Question" after each answer. *)
Definition walk (answers : list Z) : list op :=
  flat_map (fun a => [CheckAndRecord a; Next]) answers.

(** What the recommendation builder reads of a history: the category, the
    difficulty and the rationale of each incorrect record. *)
Definition missed_summary (h : list AnswerRecord)
  : list (string * string * string) :=
  map (fun r => (rec_category r, rec_difficulty r, rec_rationale r))
      (wrong_records h).

(* ================================================================= *)
(** ** Binary64 arithmetic: the vocabulary of the rounding proofs *)

(** Every finite binary64 number is a multiple of [2^-1074], and the exact
    product of two of them a multiple of [2^-2148]: exact values are counted
    as integers, in units of [2^-scale]. *)
Definition scale : Z := 2148.

Definition magnitude (m : positive) (e : Z) : Z :=
  Z.pos m * 2 ^ (e + scale).

(** The value of [1.0] in these units. *)
Definition unity : Z := 2 ^ scale.

(** The state of the right shift of the rounding procedure after [k] steps
    on the mantissa [m0]: the quotient, and no bit lost if the remainder is
    zero. *)
Definition shifted (m0 k : Z) (mrs : shr_record) : Prop :=
  shr_m mrs = m0 / 2 ^ k
  /\ (m0 mod 2 ^ k = 0 -> shr_r mrs = false /\ shr_s mrs = false).

(** A rounded result is at least, or at most, a magnitude [v], and has a
    given sign. *)
Definition ge_mag (out : spec_float) (v : Z) : Prop :=
  match out with
  | S754_infinity _ => True
  | S754_finite _ m e => v <= magnitude m e
  | _ => False
  end.

Definition le_mag (out : spec_float) (v : Z) : Prop :=
  match out with
  | S754_zero _ => True
  | S754_finite _ m e => magnitude m e <= v
  | _ => False
  end.

Definition has_sign (s : bool) (out : spec_float) : Prop :=
  match out with
  | S754_zero s' | S754_infinity s' | S754_finite s' _ _ => s' = s
  | S754_nan => False
  end.

(** The value of a binary64 number that is not a NaN: an integer number of
    units, or an infinity. *)
Inductive ext : Type := NegInf | Fin (v : Z) | PosInf.

Definition ext_of (x : spec_float) : option ext :=
  match x with
  | S754_nan => None
  | S754_infinity s => Some (if s then NegInf else PosInf)
  | S754_zero _ => Some (Fin 0)
  | S754_finite s m e => Some (Fin (cond_Zopp s (magnitude m e)))
  end.

Definition ext_leb (a b : ext) : bool :=
  match a, b with
  | NegInf, _ => true
  | _, PosInf => true
  | Fin u, Fin v => u <=? v
  | _, _ => false
  end.

Definition ext_ltb (a b : ext) : bool := negb (ext_leb b a).

Definition ext_compare (a b : ext) : comparison :=
  match a, b with
  | NegInf, NegInf => Eq
  | NegInf, _ => Lt
  | _, NegInf => Gt
  | PosInf, PosInf => Eq
  | PosInf, _ => Gt
  | _, PosInf => Lt
  | Fin u, Fin v => u ?= v
  end.

(** [out] is a rounding of the exact value [v]: it is not a NaN and lies on
    the same side of every finite binary64 number as [v] does. *)
Definition rounds_to (v : Z) (out : spec_float) : Prop :=
  exists xo, ext_of out = Some xo
    /\ forall c vc, valid_binary c = true -> ext_of c = Some (Fin vc) ->
         (vc <= v -> ext_leb (Fin vc) xo = true)
         /\ (v <= vc -> ext_leb xo (Fin vc) = true).

Definition finite_value (x : spec_float) (v : Z) : Prop :=
  valid_binary x = true /\ ext_of x = Some (Fin v).

Definition value_of (x : float) : option ext := ext_of (Prim2SF x).

(** [x] is a finite binary64 number of value [v] units. *)
Definition FV (x : float) (v : Z) : Prop := value_of x = Some (Fin v).

(** [z] is a rounding of the exact value of [v] units. *)
Definition rounds (v : Z) (z : float) : Prop := rounds_to v (Prim2SF z).

(** [x] is finite and lies between the integers [lo] and [hi]. *)
Definition within (lo hi : Z) (x : float) : Prop :=
  exists v, FV x v /\ lo * unity <= v <= hi * unity.

(** [0 <= x], for a number or [+inf]; and [0 <= x < inf]. *)
Definition nonneg (x : float) : bool := PrimFloat.leb 0 x.

Definition finite_nonneg (x : float) : bool :=
  PrimFloat.leb 0 x && PrimFloat.ltb x infinity.

(** [0 <= y <= 5], the range of the clip. *)
Definition in_clip_range (y : float) : bool :=
  PrimFloat.leb 0 y && PrimFloat.leb y 5.

(** The ranges of the four sliders ([add_slider] in [__init__]): leak in
    [[0, 2]], vent and buoyancy in [[0, 1]], diffusion in [[0, 0.6]]. *)
Definition slider_ranges (p : SafetyAnimation.Params float) : bool :=
  PrimFloat.leb 0 (SafetyAnimation.leak_rate p)
  && PrimFloat.leb (SafetyAnimation.leak_rate p) 2
  && PrimFloat.leb 0 (SafetyAnimation.vent_strength p)
  && PrimFloat.leb (SafetyAnimation.vent_strength p) 1
  && PrimFloat.leb 0 (SafetyAnimation.buoyancy p)
  && PrimFloat.leb (SafetyAnimation.buoyancy p) 1
  && PrimFloat.leb 0 (SafetyAnimation.diffusion p)
  && PrimFloat.leb (SafetyAnimation.diffusion p) 0.6.

(** Every cell of a grid satisfies a property. *)
Definition every_cell {A} (P : A -> Prop) (c : list (list A)) : Prop :=
  forall j i x, cell j i c = Some x -> P x.

(* ================================================================= *)
(** * Properties of the quiz engine *)

Section Shuffle.
Context {A : Type}.

Lemma swap_length (i j : nat) (x : list A) : length (swap i j x) = length x.
Proof.
  unfold swap.
  destruct (nth_error x i) as [xi|] eqn:Hi; [|reflexivity].
  destruct (nth_error x j) as [xj|] eqn:Hj; [|reflexivity].
  assert (Li : (i < length x)%nat)
    by (apply nth_error_Some; rewrite Hi; discriminate).
  assert (Lj : (j < length x)%nat)
    by (apply nth_error_Some; rewrite Hj; discriminate).
  cbv zeta.
  repeat (rewrite ?length_app, ?length_firstn, ?length_skipn; cbn [length]).
  lia.
Qed.

Lemma shuffle_down_length (rb : nat -> nat) (i : nat) :
  forall x : list A, length (shuffle_down rb i x) = length x.
Proof.
  induction i as [|i IH]; intros x; cbn [shuffle_down]; [reflexivity|].
  rewrite IH. apply swap_length.
Qed.

Lemma shuffle_length (rb : nat -> nat) (x : list A) :
  length (shuffle rb x) = length x.
Proof. apply shuffle_down_length. Qed.
End Shuffle.


Lemma check_and_record_items e i :
  quiz_items (snd (check_and_record e i)) = quiz_items e
  /\ index (snd (check_and_record e i)) = index e.
Proof. unfold check_and_record. destruct (current e); split; reflexivity. Qed.

Lemma next_items e : quiz_items (snd (next e)) = quiz_items e.
Proof. unfold next. destruct (_ <? _); reflexivity. Qed.

Lemma step_items e o : quiz_items (step e o) = quiz_items e.
Proof.
  destruct o; cbn [step]; [apply check_and_record_items | apply next_items].
Qed.

Lemma run_items ops : forall e, quiz_items (run ops e) = quiz_items e.
Proof.
  induction ops as [|o ops IH]; intros e; [reflexivity|].
  cbn. fold (run ops (step e o)). rewrite IH. apply step_items.
Qed.

Lemma step_session_ok e o : session_ok e -> session_ok (step e o).
Proof.
  unfold session_ok. intros H. destruct o as [i|]; cbn [step].
  - destruct (check_and_record_items e i) as [-> ->]. exact H.
  - unfold next. destruct (index e + 1 <? _) eqn:E; cbn; [|exact H].
    apply Z.ltb_lt in E. lia.
Qed.

Lemma run_session_ok ops : forall e, session_ok e -> session_ok (run ops e).
Proof.
  induction ops as [|o ops IH]; intros e H; [exact H|].
  cbn. fold (run ops (step e o)). apply IH, step_session_ok, H.
Qed.

Lemma prepare_session_ok rb e n cat sh :
  session_ok (prepare_quiz rb e n cat sh).
Proof. unfold session_ok, prepare_quiz. cbn. lia. Qed.

Lemma current_some_of_ok e :
  session_ok e -> quiz_items e <> [] -> exists q, current e = Some q.
Proof.
  unfold session_ok, current. intros H Hne.
  assert (0 < length (quiz_items e))%nat
    by (destruct (quiz_items e); [congruence | cbn; lia]).
  replace (0 <=? index e) with true by (symmetry; apply Z.leb_le; lia).
  replace (index e <? _) with true by (symmetry; apply Z.ltb_lt; lia).
  cbn [andb].
  destruct (nth_error (quiz_items e) (Z.to_nat (index e))) as [q|] eqn:E;
    [eauto|].
  apply nth_error_None in E. lia.
Qed.

Lemma current_none_of_empty e : quiz_items e = [] -> current e = None.
Proof.
  unfold current. intros ->. cbn [length].
  destruct (0 <=? index e) eqn:E1; [|reflexivity].
  destruct (index e <? Z.of_nat 0) eqn:E2; [|reflexivity].
  apply Z.leb_le in E1. apply Z.ltb_lt in E2. cbn in E2. lia.
Qed.

Lemma current_none_of_past_end e :
  Z.of_nat (length (quiz_items e)) <= index e -> current e = None.
Proof.
  unfold current. intros H.
  replace (index e <? _) with false by (symmetry; apply Z.ltb_ge; lia).
  rewrite andb_false_r. reflexivity.
Qed.

(** What one operation does to the history and to the score. *)
Lemma step_history e o :
  (exists q i, o = CheckAndRecord i /\ current e = Some q /\
     history (step e o) =
       history e ++ [mkRec (id q) (question q)
                       (choice_text (choices q) i)
                       (choice_text (choices q) (correct_index q))
                       (i =? correct_index q)
                       (rationale q) (category q) (difficulty q)] /\
     correct_count (step e o) =
       correct_count e + (if i =? correct_index q then 1 else 0))
  \/ ((o = Next \/ current e = None) /\
      history (step e o) = history e /\
      correct_count (step e o) = correct_count e).
Proof.
  destruct o as [i|]; cbn [step].
  - unfold check_and_record. destruct (current e) as [q|] eqn:E.
    + left. exists q, i. cbn. repeat split.
      destruct (i =? correct_index q); lia.
    + right. cbn. auto.
  - right. unfold next. destruct (_ <? _); cbn; auto.
Qed.

Lemma correct_entries_app h1 h2 :
  correct_entries (h1 ++ h2) = (correct_entries h1 + correct_entries h2)%nat.
Proof. unfold correct_entries. rewrite filter_app, length_app. reflexivity. Qed.


Lemma step_score_ok e o : score_ok e -> score_ok (step e o).
Proof.
  unfold score_ok. intros H.
  destruct (step_history e o) as [(q & i & _ & _ & Hh & Hc)|(_ & Hh & Hc)].
  - rewrite Hh, Hc, correct_entries_app, H, Nat2Z.inj_add.
    unfold correct_entries at 2. cbn [filter rec_is_correct].
    destruct (i =? correct_index q); reflexivity.
  - rewrite Hh, Hc. exact H.
Qed.

Lemma run_score_ok ops : forall e, score_ok e -> score_ok (run ops e).
Proof.
  induction ops as [|o ops IH]; intros e H; [exact H|].
  cbn. fold (run ops (step e o)). apply IH, step_score_ok, H.
Qed.

Lemma step_score_mono e o : correct_count e <= correct_count (step e o).
Proof.
  destruct (step_history e o) as [(q & i & _ & _ & _ & Hc)|(_ & _ & Hc)];
    rewrite Hc; [destruct (i =? correct_index q)|]; lia.
Qed.

Lemma run_score_mono ops : forall e, correct_count e <= correct_count (run ops e).
Proof.
  induction ops as [|o ops IH]; intros e; [cbn; lia|].
  cbn. fold (run ops (step e o)).
  pose proof (step_score_mono e o). specialize (IH (step e o)). lia.
Qed.

Lemma run_app ops1 ops2 e : run (ops1 ++ ops2) e = run ops2 (run ops1 e).
Proof. apply fold_left_app. Qed.

Lemma correct_entries_le h : (correct_entries h <= length h)%nat.
Proof. apply filter_length_le. Qed.

Lemma run_history_nonempty ops : forall e,
  session_ok e -> quiz_items e <> [] ->
  length (history (run ops e)) = (length (history e) + submissions ops)%nat.
Proof.
  induction ops as [|o ops IH]; intros e Hok Hne.
  - cbn. lia.
  - cbn [run fold_left]. fold (run ops (step e o)).
    rewrite IH by (rewrite ?step_items; auto using step_session_ok).
    destruct (current_some_of_ok e Hok Hne) as [q0 Hq0].
    destruct (step_history e o) as [(q & i & -> & _ & Hh & _)|([->|Hn] & Hh & _)].
    + rewrite Hh, length_app. unfold submissions. cbn [filter length]. lia.
    + rewrite Hh. reflexivity.
    + congruence.
Qed.

Lemma run_history_empty ops : forall e,
  quiz_items e = [] -> history (run ops e) = history e.
Proof.
  induction ops as [|o ops IH]; intros e He; [reflexivity|].
  cbn [run fold_left]. fold (run ops (step e o)).
  rewrite IH by (rewrite step_items; exact He).
  destruct (step_history e o) as [(q & i & _ & Hq & _)|(_ & Hh & _)];
    [|exact Hh].
  rewrite (current_none_of_empty e He) in Hq. discriminate.
Qed.

(** Under the once-per-question discipline the history never runs ahead of
    the position. *)
Lemma once_per_question_bound ops : forall (answered : bool) e,
  session_ok e ->
  Z.of_nat (length (history e)) <= index e + (if answered then 1 else 0) ->
  once_per_question answered ops e = true ->
  Z.of_nat (length (history (run ops e))) <= index (run ops e) + 1.
Proof.
  induction ops as [|o ops IH]; intros answered e Hok Hb Hd.
  - cbn. destruct answered; lia.
  - cbn [run fold_left]. fold (run ops (step e o)).
    destruct o as [i|]; cbn [once_per_question] in Hd.
    + apply andb_true_iff in Hd as [Ha Hd]. apply negb_true_iff in Ha.
      subst answered.
      apply (IH true); [apply step_session_ok, Hok| |exact Hd].
      cbn [step]. destruct (check_and_record_items e i) as [_ ->].
      destruct (step_history e (CheckAndRecord i))
        as [(q & i' & _ & _ & Hh & _)|(_ & Hh & _)];
        cbn [step] in Hh; rewrite Hh, ?length_app; cbn [length]; lia.
    + pose proof (step_session_ok e Next Hok) as Hok'. cbn [step] in *.
      unfold next in *. destruct (index e + 1 <? _) eqn:E; cbn [snd] in *.
      * apply (IH false); [exact Hok'| |exact Hd]. cbn. destruct answered; lia.
      * apply (IH answered); assumption.
Qed.

(* ----------------------------------------------------------------- *)
(** ** The claims about the quiz engine *)


(** C1, as stated, fails: the engine accepts a second answer to the question
    it is positioned on, so after two [check_and_record] calls on a session of
    one question the history has two entries. *)
Lemma history_can_exceed_quiz_items :
  let s := run [CheckAndRecord 0; CheckAndRecord 1]
               (prepare_quiz (fun _ => O) (new_engine [sample_question])
                             1 None false) in
  length (quiz_items s) = 1%nat /\ length (history s) = 2%nat.
Proof. split; reflexivity. Qed.

(** C1 (amended): on every session created by [prepare_quiz], after every
    sequence of [check_and_record] and [next] calls, [len(history)] equals
    the number of submitted answers (every [check_and_record] call when the
    session has a question, none when it is empty); and it does not exceed
    [len(quiz_items)] when no question is answered more than once. *)
Theorem history_length_is_submissions :
  forall rb e n cat sh ops,
    let s0 := prepare_quiz rb e n cat sh in
    let s := run ops s0 in
    length (history s)
      = (if Nat.eqb (length (quiz_items s0)) 0 then 0 else submissions ops)%nat
    /\ (once_per_question false ops s0 = true ->
        (length (history s) <= length (quiz_items s))%nat).
Proof.
  intros rb e n cat sh ops s0 s.
  pose proof (prepare_session_ok rb e n cat sh) as Hok. fold s0 in Hok.
  assert (Hh0 : history s0 = []) by reflexivity.
  assert (Hi0 : index s0 = 0) by reflexivity.
  split.
  - destruct (Nat.eqb_spec (length (quiz_items s0)) 0) as [E|E].
    + unfold s. rewrite run_history_empty, Hh0; [reflexivity|].
      destruct (quiz_items s0); [reflexivity|discriminate].
    + unfold s. rewrite run_history_nonempty, Hh0; [reflexivity|exact Hok|].
      intros C. rewrite C in E. apply E. reflexivity.
  - intros Hd. unfold s. rewrite run_items.
    destruct (quiz_items s0) as [|q l] eqn:Eq.
    + rewrite run_history_empty, Hh0 by exact Eq. cbn. lia.
    + pose proof (once_per_question_bound ops false s0 Hok) as Hb.
      rewrite Hh0, Hi0 in Hb. specialize (Hb ltac:(cbn; lia) Hd).
      pose proof (run_session_ok ops s0 Hok) as Hr.
      unfold session_ok in Hr. rewrite run_items, Eq in Hr.
      cbn [length] in *. lia.
Qed.

(** The discipline of C1 (amended) is met by a run that answers and advances
    through a two-question session, and there the bound is attained. *)
Lemma history_length_is_submissions_witness :
  let s0 := prepare_quiz (fun _ => O)
              (new_engine [sample_question; sample_question]) 5 None true in
  let ops := [CheckAndRecord 0; Next; CheckAndRecord 1; Next] in
  once_per_question false ops s0 = true
  /\ (length (history (run ops s0)) <= length (quiz_items (run ops s0)))%nat.
Proof.
  split; [reflexivity|].
  apply (history_length_is_submissions (fun _ => O)
           (new_engine [sample_question; sample_question]) 5 None true).
  reflexivity.
Defined.

(** C3: [prepare_quiz] leaves [min(max(1, n), P)] questions, where [P] is the
    size of the pool selected by the category filter (so none when the pool is
    empty); without a filter the pool is the whole bank; the position, the
    score and the history are reset. *)
Theorem prepare_quiz_truncates_and_resets :
  forall rb e n cat sh,
    let pool := filter_pool cat (all_questions e) in
    let s := prepare_quiz rb e n cat sh in
    Z.of_nat (length (quiz_items s))
      = Z.min (Z.max 1 n) (Z.of_nat (length pool))
    /\ (length pool = 0%nat -> quiz_items s = [])
    /\ filter_pool None (all_questions e) = all_questions e
    /\ index s = 0 /\ correct_count s = 0 /\ history s = [].
Proof.
  intros rb e n cat sh pool s.
  assert (L : Z.of_nat (length (quiz_items s))
              = Z.min (Z.max 1 n) (Z.of_nat (length pool))).
  { unfold s, prepare_quiz, slice_to. cbn [quiz_items]. fold pool.
    rewrite length_firstn.
    replace (length (if sh then shuffle rb pool else pool)) with (length pool)
      by (destruct sh; [rewrite shuffle_length|]; reflexivity).
    lia. }
  split; [exact L|]. split; [|split].
  - intros P0. rewrite P0 in L.
    destruct (quiz_items s); [reflexivity|cbn [length] in L; lia].
  - clear. unfold filter_pool. induction (all_questions e) as [|q l IH];
      [reflexivity|cbn; rewrite IH; reflexivity].
  - repeat split.
Qed.

(** C4: when [current()] is absent (in particular when the position is at or
    past the end, or the session is empty), [check_and_record] returns
    [(False, "")] and the engine is unchanged. *)
Theorem check_and_record_guarded_noop :
  forall e chosen_index,
    current e = None
    \/ Z.of_nat (length (quiz_items e)) <= index e
    \/ quiz_items e = [] ->
    check_and_record e chosen_index = ((false, ""), e).
Proof.
  intros e i H.
  assert (Hn : current e = None).
  { destruct H as [H|[H|H]];
      auto using current_none_of_past_end, current_none_of_empty. }
  unfold check_and_record. rewrite Hn. reflexivity.
Qed.

Lemma check_and_record_guarded_noop_witness :
  let e := run [Next; CheckAndRecord 2]
               (prepare_quiz (fun _ => O) (new_engine [sample_question])
                             3 (Some "Venting") false) in
  quiz_items e = [] /\ check_and_record e 1 = ((false, ""), e).
Proof.
  split; [reflexivity|].
  apply check_and_record_guarded_noop. right. right. reflexivity.
Defined.

(** C5: after [prepare_quiz] and any sequence of operations, [correct_count]
    is the number of history entries marked correct; it never exceeds
    [len(history)], and further operations never decrease it. *)
Theorem correct_count_counts_correct_entries :
  forall rb e n cat sh ops more,
    let s := run ops (prepare_quiz rb e n cat sh) in
    correct_count s = Z.of_nat (correct_entries (history s))
    /\ correct_count s <= Z.of_nat (length (history s))
    /\ correct_count s <= correct_count (run more s).
Proof.
  intros rb e n cat sh ops more s.
  assert (H : score_ok s) by (apply run_score_ok; reflexivity).
  split; [exact H|]. split; [|apply run_score_mono].
  rewrite H. apply inj_le, correct_entries_le.
Qed.

(** C9: after [prepare_quiz] and any sequence of operations, a non-empty
    session has its position in [[0, len(quiz_items) - 1]] and a current
    question; [current()] is absent exactly when [quiz_items] is empty. *)
Theorem current_absent_only_when_empty :
  forall rb e n cat sh ops,
    let s := run ops (prepare_quiz rb e n cat sh) in
    (quiz_items s <> [] ->
       0 <= index s <= Z.of_nat (length (quiz_items s)) - 1
       /\ exists q, current s = Some q)
    /\ (current s = None <-> quiz_items s = [])
    /\ index (snd (next s)) <= Z.max 0 (Z.of_nat (length (quiz_items s)) - 1).
Proof.
  intros rb e n cat sh ops s.
  assert (Hok : session_ok s)
    by (apply run_session_ok, prepare_session_ok).
  split; [|split].
  - intros Hne. split; [|apply current_some_of_ok; assumption].
    unfold session_ok in Hok.
    destruct (quiz_items s); [congruence|cbn [length] in *; lia].
  - split; [|apply current_none_of_empty].
    intros Hn. destruct (quiz_items s) as [|q l] eqn:E; [reflexivity|].
    destruct (current_some_of_ok s Hok) as [q' Hq']; congruence.
  - pose proof (step_session_ok s Next Hok) as H. unfold session_ok in H.
    cbn [step] in H. rewrite next_items in H. lia.
Qed.

(* ================================================================= *)
(** * Properties of the recommendation builder *)

(** ** Counters *)

Lemma counter_get_incr k k' c :
  counter_get k' (counter_incr k c)
  = (counter_get k' c + (if String.eqb k' k then 1 else 0))%nat.
Proof.
  induction c as [|[k0 v] c IH]; cbn.
  - rewrite (String.eqb_sym k k'). destruct (String.eqb k' k); reflexivity.
  - destruct (String.eqb_spec k0 k) as [->|Hk]; cbn.
    + destruct (String.eqb_spec k k') as [->|Hk'].
      * rewrite String.eqb_refl. lia.
      * destruct (String.eqb_spec k' k); [congruence|lia].
    + destruct (String.eqb_spec k0 k') as [->|Hk'].
      * destruct (String.eqb_spec k' k); [congruence|lia].
      * exact IH.
Qed.

Lemma counter_keys_incr k c :
  map fst (counter_incr k c)
  = if existsb (String.eqb k) (map fst c) then map fst c
    else map fst c ++ [k].
Proof.
  induction c as [|[k0 v] c IH]; cbn; [reflexivity|].
  rewrite (String.eqb_sym k k0).
  destruct (String.eqb k0 k); cbn; [reflexivity|].
  rewrite IH. destruct (existsb _ _); reflexivity.
Qed.

Lemma existsb_eqb_In k l : existsb (String.eqb k) l = true <-> In k l.
Proof.
  rewrite existsb_exists. split.
  - intros (x & Hx & E). apply String.eqb_eq in E. subst. exact Hx.
  - intros H. exists k. split; [exact H|apply String.eqb_refl].
Qed.

Lemma tally_keys_snoc ks k c :
  tally_keys (ks ++ [k]) c = counter_incr k (tally_keys ks c).
Proof. unfold tally_keys. rewrite fold_left_app. reflexivity. Qed.

Lemma count_key_app k l1 l2 :
  count_key k (l1 ++ l2) = (count_key k l1 + count_key k l2)%nat.
Proof. unfold count_key. rewrite filter_app, length_app. reflexivity. Qed.

Lemma count_key_pos k ks : In k ks <-> (0 < count_key k ks)%nat.
Proof.
  unfold count_key. induction ks as [|k0 ks IH]; cbn; [split; [tauto|lia]|].
  destruct (String.eqb_spec k k0) as [->|Hk]; cbn.
  - split; [lia|auto].
  - rewrite <- IH. split; [intros [E|H]; [congruence|exact H]|auto].
Qed.

Lemma first_pos_app_in k l1 l2 :
  In k l1 -> first_pos k (l1 ++ l2) = first_pos k l1.
Proof.
  induction l1 as [|k0 l1 IH]; cbn; [tauto|].
  destruct (String.eqb_spec k k0) as [->|Hk]; [reflexivity|].
  intros [E|H]; [congruence|]. rewrite IH by exact H. reflexivity.
Qed.

Lemma first_pos_lt k ks : In k ks -> (first_pos k ks < length ks)%nat.
Proof.
  induction ks as [|k0 ks IH]; cbn; [tauto|].
  destruct (String.eqb_spec k k0) as [->|Hk]; [lia|].
  intros [E|H]; [congruence|]. specialize (IH H). lia.
Qed.

Lemma first_pos_notin k ks : ~ In k ks -> first_pos k ks = length ks.
Proof.
  induction ks as [|k0 ks IH]; cbn; [reflexivity|].
  destruct (String.eqb_spec k k0) as [->|Hk]; [tauto|].
  intros H. rewrite IH by tauto. reflexivity.
Qed.

Lemma first_pos_snoc_new k ks :
  ~ In k ks -> first_pos k (ks ++ [k]) = length ks.
Proof.
  induction ks as [|k0 ks IH]; cbn.
  - rewrite String.eqb_refl. reflexivity.
  - destruct (String.eqb_spec k k0) as [->|Hk]; [tauto|].
    intros H. rewrite IH by tauto. reflexivity.
Qed.

Lemma StronglySorted_weaken {A} (R R' : A -> A -> Prop) l :
  (forall a b, In a l -> In b l -> R a b -> R' a b) ->
  StronglySorted R l -> StronglySorted R' l.
Proof.
  intros H S. induction S as [|a l S IH F]; constructor.
  - apply IH. intros; apply H; cbn; auto.
  - rewrite Forall_forall in *. intros b Hb. apply H; cbn; auto.
Qed.

Lemma StronglySorted_snoc {A} (R : A -> A -> Prop) l x :
  StronglySorted R l -> Forall (fun a => R a x) l ->
  StronglySorted R (l ++ [x]).
Proof.
  intros S F. induction S as [|a l S IH Fa]; cbn.
  - constructor; constructor.
  - inversion F; subst. constructor; [apply IH; assumption|].
    apply Forall_app. split; [exact Fa|constructor; [assumption|constructor]].
Qed.

(** What the counter of a key list looks like: its keys are the distinct
    keys of the list in order of first occurrence, each with its number of
    occurrences. *)
Lemma tally_keys_spec ks :
  let c := tally_keys ks [] in
  (forall k, counter_get k c = count_key k ks)
  /\ (forall k, In k (map fst c) <-> In k ks)
  /\ NoDup (map fst c)
  /\ StronglySorted (seen_order ks) (map fst c).
Proof.
  induction ks as [|k ks IH] using rev_ind; cbn zeta.
  - cbn. repeat split; try tauto; constructor.
  - destruct IH as (Hget & Hin & Hnd & Hs).
    rewrite tally_keys_snoc. set (c := tally_keys ks []) in *.
    assert (Hkeys := counter_keys_incr k c).
    split; [|split; [|split]].
    + intros k'. rewrite counter_get_incr, Hget, count_key_app.
      unfold count_key at 3. cbn. destruct (String.eqb k' k); reflexivity.
    + intros k'. rewrite Hkeys, in_app_iff. cbn.
      destruct (existsb _ _) eqn:E.
      * apply existsb_eqb_In in E. rewrite Hin.
        split; [auto|intros [H|[<-|[]]]; [exact H|apply Hin, E]].
      * rewrite in_app_iff, Hin. cbn. tauto.
    + rewrite Hkeys. destruct (existsb _ _) eqn:E; [exact Hnd|].
      apply NoDup_app; [exact Hnd|repeat constructor; cbn; tauto|].
      intros a Ha [<-|[]].
      apply existsb_eqb_In in Ha. congruence.
    + assert (Hold : StronglySorted (seen_order (ks ++ [k])) (map fst c)).
      { revert Hs. apply StronglySorted_weaken. unfold seen_order.
        intros a b Ha Hb. apply Hin in Ha, Hb.
        rewrite !first_pos_app_in by assumption. auto. }
      rewrite Hkeys. destruct (existsb _ _) eqn:E; [exact Hold|].
      apply StronglySorted_snoc; [exact Hold|].
      apply Forall_forall. intros a Ha. unfold seen_order.
      assert (Hk : ~ In k ks).
      { intros C. apply Hin, existsb_eqb_In in C. congruence. }
      apply Hin in Ha.
      rewrite first_pos_app_in by exact Ha.
      rewrite first_pos_snoc_new by exact Hk.
      apply first_pos_lt, Ha.
Qed.

Lemma counter_get_in k v c :
  NoDup (map fst c) -> In (k, v) c -> counter_get k c = v.
Proof.
  induction c as [|[k0 v0] c IH]; cbn; [tauto|].
  intros Hnd [E|H].
  - inversion E; subst. rewrite String.eqb_refl. reflexivity.
  - inversion Hnd; subst.
    destruct (String.eqb_spec k0 k) as [->|Hk]; [|auto].
    exfalso. apply H2. apply (in_map fst) in H. exact H.
Qed.

(** ** The stable descending sort *)

Lemma insert_desc_perm x l : Permutation (insert_desc x l) (x :: l).
Proof.
  induction l as [|y l IH]; cbn [insert_desc]; [reflexivity|].
  destruct (snd x <? snd y)%nat; [|reflexivity].
  rewrite IH. apply perm_swap.
Qed.

Lemma sorted_desc_perm c : Permutation (sorted_desc c) c.
Proof.
  induction c as [|x c IH]; [reflexivity|].
  change (sorted_desc (x :: c)) with (insert_desc x (sorted_desc c)).
  rewrite insert_desc_perm. constructor. exact IH.
Qed.

Lemma ranked_count_le P s y :
  StronglySorted (ranked P) (y :: s) -> Forall (fun z => snd z <= snd y)%nat s.
Proof.
  intros S. inversion S as [|? ? _ F]; subst.
  revert F. apply Forall_impl. intros z [H|[H _]]; lia.
Qed.

Lemma insert_desc_sorted P x s :
  StronglySorted (ranked P) s -> Forall (P x) s ->
  StronglySorted (ranked P) (insert_desc x s).
Proof.
  intros S. induction S as [|y s S IH F]; intros Fx; cbn [insert_desc].
  - constructor; constructor.
  - inversion Fx as [|? ? Pxy Fx']; subst.
    destruct (Nat.ltb_spec (snd x) (snd y)) as [Hlt|Hge].
    + constructor; [apply IH, Fx'|].
      rewrite (insert_desc_perm x s). constructor; [left; exact Hlt|exact F].
    + assert (Hle := ranked_count_le P s y (SSorted_cons y S F)).
      constructor; [constructor; assumption|].
      constructor.
      * destruct (Nat.eq_dec (snd x) (snd y)) as [E|N];
          [right; auto|left; lia].
      * rewrite Forall_forall in *. intros z Hz.
        specialize (Hle z Hz). specialize (Fx' z Hz).
        destruct (Nat.eq_dec (snd x) (snd z)) as [E|N];
          [right; auto|left; lia].
Qed.

Lemma sorted_desc_sorted P c :
  StronglySorted P c -> StronglySorted (ranked P) (sorted_desc c).
Proof.
  intros S. induction S as [|x c S IH F]; [constructor|].
  change (sorted_desc (x :: c)) with (insert_desc x (sorted_desc c)).
  apply insert_desc_sorted; [exact IH|].
  rewrite (sorted_desc_perm c). exact F.
Qed.

Lemma StronglySorted_map {A B} (f : A -> B) (R : A -> A -> Prop)
    (R' : B -> B -> Prop) l :
  (forall a b, In a l -> In b l -> R a b -> R' (f a) (f b)) ->
  StronglySorted R l -> StronglySorted R' (map f l).
Proof.
  intros H S. induction S as [|a l S IH F]; cbn; constructor.
  - apply IH. intros; apply H; cbn; auto.
  - rewrite Forall_forall in *. intros b Hb.
    apply in_map_iff in Hb as (b0 & <- & Hb0). apply H; cbn; auto.
Qed.

Lemma StronglySorted_map_inv {A B} (f : A -> B) (R : B -> B -> Prop) l :
  StronglySorted R (map f l) -> StronglySorted (fun a b => R (f a) (f b)) l.
Proof.
  induction l as [|a l IH]; cbn; intros S; [constructor|].
  inversion S as [|? ? S' F]; subst. constructor; [auto|].
  rewrite Forall_forall in *. intros b Hb. apply F, in_map, Hb.
Qed.

(** The keys of a counter, most common first: sorted by [outranks], without
    repetition, and exactly the keys that were counted. *)
Lemma ranking_spec ks :
  let S := map fst (sorted_desc (tally_keys ks [])) in
  StronglySorted (outranks ks) S
  /\ NoDup S
  /\ (forall k, In k S <-> In k ks).
Proof.
  destruct (tally_keys_spec ks) as (Hget & Hin & Hnd & Hs). cbn zeta in *.
  set (c := tally_keys ks []) in *.
  assert (Hp : Permutation (map fst (sorted_desc c)) (map fst c))
    by apply Permutation_map, sorted_desc_perm.
  cbn zeta. split; [|split].
  - apply StronglySorted_map
      with (R := ranked (fun x y => seen_order ks (fst x) (fst y))).
    + intros [a va] [b vb] Ha Hb.
      rewrite (sorted_desc_perm c) in Ha, Hb.
      apply (counter_get_in _ _ _ Hnd) in Ha, Hb.
      rewrite Hget in Ha, Hb. subst va vb.
      unfold ranked, outranks, seen_order. cbn. tauto.
    + apply sorted_desc_sorted, StronglySorted_map_inv, Hs.
  - apply (Permutation_NoDup (Permutation_sym Hp)), Hnd.
  - intros k. rewrite <- Hin. split; apply Permutation_in;
      [exact Hp|symmetry; exact Hp].
Qed.

(** ** The aggregation loop *)

Lemma tally_wrong_acc h : forall wc wd ra,
  fst (fst (fold_left tally_step h (wc, wd, ra)))
    = tally_keys (wrong_categories h) wc
  /\ snd (fst (fold_left tally_step h (wc, wd, ra)))
    = tally_keys (wrong_difficulties h) wd.
Proof.
  unfold wrong_categories, wrong_difficulties, wrong_records.
  induction h as [|r h IH]; intros wc wd ra; [split; reflexivity|].
  cbn [fold_left tally_step filter].
  destruct (negb (rec_is_correct r)); cbn [map tally_keys fold_left]; apply IH.
Qed.

Lemma wrong_by_cat_tally h :
  wrong_by_cat h = tally_keys (wrong_categories h) [].
Proof. apply tally_wrong_acc. Qed.

Lemma wrong_by_diff_tally h :
  wrong_by_diff h = tally_keys (wrong_difficulties h) [].
Proof. apply tally_wrong_acc. Qed.

Lemma tally_keys_nil_iff ks : tally_keys ks [] = [] <-> ks = [].
Proof.
  destruct (tally_keys_spec ks) as (_ & Hin & _). cbn zeta in Hin.
  split.
  - intros E. rewrite E in Hin. destruct ks as [|k ks]; [reflexivity|].
    destruct (proj2 (Hin k)); cbn; auto.
  - intros ->. reflexivity.
Qed.

Lemma wrong_by_cat_nil_iff h : wrong_by_cat h = [] <-> wrong_records h = [].
Proof.
  rewrite wrong_by_cat_tally, tally_keys_nil_iff. unfold wrong_categories.
  destruct (wrong_records h); cbn; split; congruence.
Qed.

Lemma wrong_by_diff_nil_iff h : wrong_by_diff h = [] <-> wrong_records h = [].
Proof.
  rewrite wrong_by_diff_tally, tally_keys_nil_iff. unfold wrong_difficulties.
  destruct (wrong_records h); cbn; split; congruence.
Qed.

(** ** Prefixes of sorted lists *)

Lemma StronglySorted_app_inv {A} (R : A -> A -> Prop) l1 l2 :
  StronglySorted R (l1 ++ l2) ->
  StronglySorted R l1 /\ StronglySorted R l2
  /\ (forall a b, In a l1 -> In b l2 -> R a b).
Proof.
  induction l1 as [|x l1 IH]; cbn; intros S.
  - repeat split; [constructor|exact S|tauto].
  - inversion S as [|? ? S' F]; subst.
    destruct (IH S') as (S1 & S2 & H12).
    apply Forall_app in F as [F1 F2].
    repeat split; [constructor; assumption|exact S2|].
    intros a b [<-|Ha] Hb; [|auto].
    rewrite Forall_forall in F2. auto.
Qed.

Lemma firstn_sorted {A} (R : A -> A -> Prop) n l :
  StronglySorted R l -> StronglySorted R (firstn n l).
Proof.
  intros S. rewrite <- (firstn_skipn n l) in S.
  apply StronglySorted_app_inv in S. tauto.
Qed.

Lemma firstn_NoDup {A} n (l : list A) : NoDup l -> NoDup (firstn n l).
Proof.
  intros H. rewrite <- (firstn_skipn n l) in H.
  apply NoDup_app_remove_r in H. exact H.
Qed.

Lemma firstn_In {A} n (l : list A) x : In x (firstn n l) -> In x l.
Proof.
  intros H. rewrite <- (firstn_skipn n l). apply in_app_iff. auto.
Qed.

Lemma top_cats_firstn h :
  top_cats h
  = firstn 3 (map fst (sorted_desc (tally_keys (wrong_categories h) []))).
Proof.
  unfold top_cats, most_common. rewrite wrong_by_cat_tally.
  symmetry. apply firstn_map.
Qed.

(** A list without repetition whose members are exactly three given keys. *)
Lemma three_keys_sorted (R : string -> string -> Prop) (A B C : string) S :
  NoDup S -> (forall k, In k S <-> In k [A; B; C]) ->
  A <> B -> A <> C -> B <> C ->
  StronglySorted R S ->
  ~ R B A -> ~ R B C -> ~ R C A ->
  S = [A; C; B].
Proof.
  intros Hnd Hin AB AC BC HS nBA nBC nCA.
  assert (Hlen : length S = 3%nat).
  { apply Permutation_length with (l' := [A; B; C]).
    apply NoDup_Permutation; [exact Hnd| |exact Hin].
    repeat constructor; cbn; intuition congruence. }
  destruct S as [|x [|y [|z [|]]]]; try discriminate.
  assert (Hx : In x [A; B; C]) by (apply Hin; cbn; auto).
  assert (Hy : In y [A; B; C]) by (apply Hin; cbn; auto).
  assert (Hz : In z [A; B; C]) by (apply Hin; cbn; auto).
  inversion HS as [|? ? HS' Fx]; subst.
  inversion HS' as [|? ? _ Fy]; subst.
  inversion Fx as [|? ? Rxy Fx']; subst. inversion Fx' as [|? ? Rxz _]; subst.
  inversion Fy as [|? ? Ryz _]; subst.
  inversion Hnd as [|? ? Nx Hnd']; subst. inversion Hnd' as [|? ? Ny _]; subst.
  cbn in Hx, Hy, Hz, Nx, Ny.
  destruct Hx as [<-|[<-|[<-|[]]]]; destruct Hy as [<-|[<-|[<-|[]]]];
    destruct Hz as [<-|[<-|[<-|[]]]];
    try reflexivity; exfalso; tauto.
Qed.

(** ** The shape of the output *)

Lemma if_nonempty {A B} (l : list A) (a b : B) :
  l <> [] -> match l with [] => a | _ :: _ => b end = b.
Proof. destruct l; [congruence|reflexivity]. Qed.

Lemma wrong_records_history_nonempty h : wrong_records h <> [] -> h <> [].
Proof. intros H ->. apply H. reflexivity. Qed.

Lemma build_recommendations_topics e :
  wrong_records (history e) <> [] ->
  build_recommendations (Some e)
  = join nl ([topics_header]
             ++ flat_map (category_lines (history e)) (top_cats (history e))
             ++ difficulty_hint (history e)).
Proof.
  intros Hw. unfold build_recommendations.
  rewrite if_nonempty by (apply wrong_records_history_nonempty, Hw).
  rewrite if_nonempty by (rewrite wrong_by_cat_nil_iff; exact Hw).
  rewrite <- app_assoc. reflexivity.
Qed.

Lemma build_recommendations_no_wrong e :
  history e <> [] -> wrong_records (history e) = [] ->
  build_recommendations (Some e) = congratulation.
Proof.
  intros Hh Hw. unfold build_recommendations.
  rewrite if_nonempty by exact Hh.
  apply wrong_by_cat_nil_iff in Hw. rewrite Hw. reflexivity.
Qed.

(* ----------------------------------------------------------------- *)
(** ** The claims about the recommendation builder *)

(** C6: the builder lists at most three categories; every listed category
    has incorrect answers and is listed once; a listed category has more
    incorrect answers than each category listed after it, or as many and
    is first seen earlier among the incorrect records; a category with
    incorrect answers is left out only when three are listed that all
    outrank it.  When the incorrect answers number 3 in [A], 1 in [B] and 2
    in [C], the list is [[A; C; B]].  The listed categories appear in the
    output in this order, one bullet line each. *)
Theorem top_categories_ranking :
  forall e,
    let h := history e in
    let ks := wrong_categories h in
    let L := top_cats h in
    (length L <= 3)%nat
    /\ NoDup L
    /\ (forall c, In c L -> (0 < count_key c ks)%nat)
    /\ StronglySorted (outranks ks) L
    /\ (forall c, (0 < count_key c ks)%nat -> ~ In c L ->
          length L = 3%nat /\ Forall (fun a => outranks ks a c) L)
    /\ (forall A B C,
          count_key A ks = 3%nat -> count_key B ks = 1%nat ->
          count_key C ks = 2%nat ->
          (forall c, c <> A -> c <> B -> c <> C -> count_key c ks = 0%nat) ->
          L = [A; C; B])
    /\ (wrong_records h <> [] ->
          build_recommendations (Some e)
          = join nl ([topics_header] ++ flat_map (category_lines h) L
                     ++ difficulty_hint h)).
Proof.
  intros e h ks L.
  destruct (ranking_spec ks) as (HS & Hnd & Hin). cbn zeta in *.
  set (S := map fst (sorted_desc (tally_keys ks []))) in *.
  assert (HL : L = firstn 3 S) by apply top_cats_firstn.
  split; [rewrite HL; apply firstn_le_length|].
  split; [rewrite HL; apply firstn_NoDup, Hnd|].
  split; [intros c Hc; apply count_key_pos, Hin;
          rewrite HL in Hc; apply firstn_In in Hc; exact Hc|].
  split; [rewrite HL; apply firstn_sorted, HS|].
  split; [|split].
  - intros c Hc Hn. apply count_key_pos, Hin in Hc.
    rewrite <- (firstn_skipn 3 S) in Hc, HS. rewrite <- HL in Hc, HS.
    apply in_app_iff in Hc as [Hc|Hc]; [contradiction|].
    apply StronglySorted_app_inv in HS as (_ & _ & H12).
    split; [|apply Forall_forall; intros a Ha; apply H12; assumption].
    assert (3 < length S)%nat.
    { destruct (Nat.lt_ge_cases 3 (length S)) as [Hlt|Hge]; [exact Hlt|].
      rewrite skipn_all2 in Hc by lia. destruct Hc. }
    rewrite HL, length_firstn. lia.
  - intros A B C cA cB cC Hother.
    assert (HSABC : S = [A; C; B]).
    { apply (three_keys_sorted (outranks ks)); try assumption;
        try (intros ->; lia);
        try (unfold outranks; rewrite ?cA, ?cB, ?cC; lia).
      intros k. rewrite Hin, count_key_pos. cbn.
      destruct (string_dec k A) as [->|nA]; [rewrite cA; intuition lia|].
      destruct (string_dec k B) as [->|nB]; [rewrite cB; intuition lia|].
      destruct (string_dec k C) as [->|nC]; [rewrite cC; intuition lia|].
      rewrite (Hother k) by assumption.
      split; [lia|intros [E|[E|[E|[]]]]; congruence]. }
    rewrite HL, HSABC. reflexivity.
  - intros Hw. apply build_recommendations_topics, Hw.
Qed.

(** An instance of the counts of C6 with the records interleaved, and one
    correct answer in a fourth category. *)
Lemma top_categories_ranking_witness :
  let h := [missed "B" "easy" ""; missed "C" "hard" "";
            answered_right "D" "easy"; missed "A" "easy" "";
            missed "C" "hard" ""; missed "A" "mid" ""; missed "A" "mid" ""] in
  top_cats h = ["A"; "C"; "B"].
Proof.
  intros h.
  apply (top_categories_ranking (engine_with h)); try reflexivity.
  intros c nA nB nC. cbn.
  destruct (String.eqb_spec c "A"), (String.eqb_spec c "B"),
    (String.eqb_spec c "C"); try congruence; reflexivity.
Defined.

(** The key that [most_common(1)] puts first: it outranks every other key. *)
Lemma most_common_head ks :
  ks <> [] ->
  exists k v,
    most_common 1 (tally_keys ks []) = [(k, v)]
    /\ In k ks
    /\ (forall k', In k' ks -> k' <> k -> outranks ks k k').
Proof.
  intros Hne.
  destruct (ranking_spec ks) as (HS & Hnd & Hin). cbn zeta in *.
  unfold most_common.
  destruct (sorted_desc (tally_keys ks [])) as [|[k v] s] eqn:E.
  - exfalso. destruct ks as [|k ks]; [congruence|].
    apply (proj2 (Hin k)). cbn. auto.
  - exists k, v. cbn in *. split; [reflexivity|].
    split; [apply Hin; auto|].
    intros k' Hk' Hd. apply Hin in Hk' as [->|Hk']; [congruence|].
    inversion HS as [|? ? _ F]; subst.
    rewrite Forall_forall in F. auto.
Qed.

(** C7, as stated, fails: when the most frequent difficulty among the
    incorrect records is the empty string (the default of a question without
    a difficulty), the guard [if hardest:] drops the hint. *)
Lemma no_hint_for_empty_difficulty :
  let h := [missed "Venting" "" "Vent at the ceiling."] in
  wrong_difficulties h = [""]
  /\ difficulty_hint h = []
  /\ build_recommendations (Some (engine_with h))
     = join nl [topics_header; bullet_line "Venting";
                note_line 1 "Vent at the ceiling."].
Proof. repeat split. Qed.

(** C7 (amended): for every history with at least one incorrect record there
    is a most frequent difficulty among the incorrect records (the first
    seen among equally frequent ones); when it is a non-empty string the
    output ends with the targeted-practice hint naming it, and when it is
    the empty string no hint is given. *)
Theorem difficulty_hint_most_frequent :
  forall e,
    let h := history e in
    let ds := wrong_difficulties h in
    wrong_records h <> [] ->
    exists hardest,
      In hardest ds
      /\ (forall d, In d ds -> d <> hardest -> outranks ds hardest d)
      /\ difficulty_hint h
         = (if String.eqb hardest "" then [] else [hint_line hardest])
      /\ build_recommendations (Some e)
         = join nl ([topics_header] ++ flat_map (category_lines h) (top_cats h)
                    ++ (if String.eqb hardest "" then []
                        else [hint_line hardest])).
Proof.
  intros e h ds Hw.
  assert (Hds : ds <> []).
  { unfold ds, wrong_difficulties. destruct (wrong_records h);
      [congruence|discriminate]. }
  destruct (most_common_head ds Hds) as (k & v & Hmc & Hk & Hbest).
  assert (Hhint : difficulty_hint h
                  = if String.eqb k "" then [] else [hint_line k]).
  { unfold difficulty_hint.
    rewrite if_nonempty by (rewrite wrong_by_diff_nil_iff; exact Hw).
    rewrite wrong_by_diff_tally. fold ds. rewrite Hmc. unfold truthy.
    destruct (String.eqb k ""); reflexivity. }
  exists k. repeat split; try assumption.
  rewrite <- Hhint. apply build_recommendations_topics, Hw.
Qed.

Lemma difficulty_hint_most_frequent_witness :
  let h := [missed "Venting" "hard" ""; answered_right "Storage" "easy";
            missed "Storage" "easy" ""; missed "Venting" "easy" ""] in
  exists hardest,
    In hardest (wrong_difficulties h)
    /\ (forall d, In d (wrong_difficulties h) -> d <> hardest ->
          outranks (wrong_difficulties h) hardest d)
    /\ difficulty_hint h
       = (if String.eqb hardest "" then [] else [hint_line hardest])
    /\ build_recommendations (Some (engine_with h))
       = join nl ([topics_header] ++ flat_map (category_lines h) (top_cats h)
                  ++ (if String.eqb hardest "" then []
                      else [hint_line hardest])).
Proof.
  intros h. apply (difficulty_hint_most_frequent (engine_with h)).
  discriminate.
Defined.

(** C8, as stated, fails: an empty history has no incorrect record, and for
    it the builder returns the empty string, not the congratulation. *)
Lemma no_congratulation_for_empty_history :
  let e := prepare_quiz (fun _ => O) (new_engine [sample_question])
                        1 None false in
  wrong_records (history e) = []
  /\ build_recommendations (Some e) = ""
  /\ String.eqb (build_recommendations (Some e)) congratulation = false.
Proof. repeat split. Qed.

(** C8 (amended): for every non-empty history without incorrect records the
    output is the congratulatory message and nothing else (no topic
    breakdown); for the empty history the output is empty. *)
Theorem congratulation_when_nothing_missed :
  forall e,
    wrong_records (history e) = [] ->
    build_recommendations (Some e)
    = match history e with [] => "" | _ :: _ => congratulation end.
Proof.
  intros e Hw. destruct (history e) as [|r h] eqn:Eh.
  - unfold build_recommendations. rewrite Eh. reflexivity.
  - apply build_recommendations_no_wrong; rewrite Eh;
      [discriminate|exact Hw].
Qed.

Lemma congratulation_when_nothing_missed_witness :
  let e := run [CheckAndRecord 0]
               (prepare_quiz (fun _ => O) (new_engine [sample_question])
                             1 None false) in
  wrong_records (history e) = []
  /\ build_recommendations (Some e) = congratulation.
Proof.
  split; [reflexivity|].
  apply (congratulation_when_nothing_missed
           (run [CheckAndRecord 0]
                (prepare_quiz (fun _ => O) (new_engine [sample_question])
                              1 None false))).
  reflexivity.
Defined.

(* ================================================================= *)
(** * Properties of the dispersion simulator *)

Import SafetyAnimation.

Local Open Scope Q_scope.

(** Reading the interface at the rational numbers. *)
Ltac num_Q := cbn [lit add sub mul gtb maximum minimum Num_Q] in *.

(** ** Clipping *)

Lemma clip_cell_range (x : Q) :
  0 <= minimum (maximum x (lit 0.0)) (lit 5.0) <= 5.
Proof.
  num_Q.
  assert (Z0 : 0.0 == 0) by reflexivity.
  assert (Z5 : 5.0 == 5) by reflexivity.
  destruct (Qle_bool 0.0 x) eqn:E0.
  - apply Qle_bool_iff in E0. rewrite Z0 in E0.
    destruct (Qle_bool x 5.0) eqn:E5.
    + apply Qle_bool_iff in E5. rewrite Z5 in E5. split; assumption.
    + rewrite Z5. split; [discriminate|apply Qle_refl].
  - destruct (Qle_bool 0.0 5.0) eqn:E5; [|discriminate].
    rewrite Z0. split; [apply Qle_refl|discriminate].
Qed.

Lemma clip_cells (c : Grid Q) :
  Forall (fun x => 0 <= x <= 5) (cells (clip c)).
Proof.
  unfold cells, clip. apply Forall_concat, Forall_map, Forall_forall.
  intros row _. apply Forall_map, Forall_forall. intros x _.
  apply clip_cell_range.
Qed.

Lemma step_cells_exact (p : Params Q) (c : Grid Q) :
  Forall (fun x => 0 <= x <= 5) (cells (_step p c)).
Proof. unfold _step. apply clip_cells. Qed.

(** ** Clipping in binary64

    The same clip on the binary64 cells of the code: a cell that is a number
    ends in [[0, 5]]; only a NaN, which the clip hands through, does not. *)

Lemma SFcompare_antisym a b :
  SFcompare b a = option_map CompOpp (SFcompare a b).
Proof.
  destruct a as [sa|sa| |sa ma ea], b as [sb|sb| |sb mb eb]; cbn;
    try reflexivity;
    try (destruct sa; reflexivity); try (destruct sb; reflexivity);
    try (destruct sa, sb; reflexivity).
  assert (Hm : Pos.compare_cont Eq mb ma
               = CompOpp (Pos.compare_cont Eq ma mb))
    by (symmetry; apply (Pos.compare_cont_antisym ma mb Eq)).
  destruct sa, sb; try reflexivity;
    rewrite (Z.compare_antisym ea eb);
    destruct (ea ?= eb)%Z; cbn; try reflexivity;
    rewrite Hm, ?CompOpp_involutive; reflexivity.
Qed.

Lemma SFcompare_defined a b :
  SFcompare a a <> None -> SFcompare b b <> None -> SFcompare a b <> None.
Proof.
  destruct a as [sa|sa| |sa ma ea], b as [sb|sb| |sb mb eb]; cbn;
    congruence.
Qed.

Lemma float_not_nan_compare (x : float) :
  PrimFloat.is_nan x = false -> SFcompare (Prim2SF x) (Prim2SF x) <> None.
Proof.
  unfold PrimFloat.is_nan. rewrite FloatAxioms.eqb_spec. unfold SFeqb.
  destruct (SFcompare (Prim2SF x) (Prim2SF x)); [congruence|discriminate].
Qed.

Lemma float_not_lt_le (x y : float) :
  PrimFloat.is_nan x = false -> PrimFloat.is_nan y = false ->
  PrimFloat.ltb x y = false -> PrimFloat.leb y x = true.
Proof.
  intros Hx Hy. rewrite FloatAxioms.ltb_spec, FloatAxioms.leb_spec.
  unfold SFltb, SFleb. rewrite (SFcompare_antisym (Prim2SF x) (Prim2SF y)).
  pose proof (SFcompare_defined _ _ (float_not_nan_compare x Hx)
                                    (float_not_nan_compare y Hy)) as Hd.
  destruct (SFcompare (Prim2SF x) (Prim2SF y)) as [[| |]|]; cbn;
    congruence.
Qed.

Lemma float_clip_cell_range (x : float) :
  let y := minimum (maximum x (lit 0.0)) (lit 5.0) in
  PrimFloat.is_nan y = true
  \/ (PrimFloat.leb 0 y = true /\ PrimFloat.leb y 5 = true).
Proof.
  cbn [lit add sub mul gtb maximum minimum Num_float].
  change (float_lit 0.0) with 0%float. change (float_lit 5.0) with 5%float.
  unfold float_maximum, float_minimum.
  destruct (PrimFloat.is_nan x) eqn:Nx; [rewrite Nx; left; exact Nx|].
  change (PrimFloat.is_nan 0) with false. cbv iota.
  destruct (PrimFloat.ltb x 0) eqn:L0.
  - right. vm_compute. split; reflexivity.
  - rewrite Nx. change (PrimFloat.is_nan 5) with false. cbv iota.
    destruct (PrimFloat.ltb 5 x) eqn:L5.
    + right. vm_compute. split; reflexivity.
    + right. split; apply float_not_lt_le; auto.
Qed.

Lemma step_cells_binary64 (p : Params float) (c : Grid float) :
  Forall (fun y => PrimFloat.is_nan y = true
                   \/ (PrimFloat.leb 0 y = true /\ PrimFloat.leb y 5 = true))
         (cells (_step p c)).
Proof.
  unfold _step, cells, clip. apply Forall_concat, Forall_map, Forall_forall.
  intros row _. apply Forall_map, Forall_forall. intros x _.
  apply float_clip_cell_range.
Qed.

(** ** Buoyancy in exact arithmetic *)

Lemma total_cons r (c : Grid Q) : total (r :: c) == row_sum r + total c.
Proof.
  unfold total, cells, row_sum. cbn [concat].
  induction r as [|x r IH]; cbn [app fold_right]; [ring|].
  rewrite IH. ring.
Qed.

Lemma row_sum_add r s :
  length r = length s ->
  row_sum (zip_with Qplus r s) == row_sum r + row_sum s.
Proof.
  revert s. induction r as [|x r IH]; intros [|y s] L; try discriminate;
    cbn [zip_with row_sum fold_right]; [ring|].
  fold (row_sum (zip_with Qplus r s)) (row_sum r) (row_sum s).
  rewrite IH by (cbn in L; congruence). ring.
Qed.

Lemma row_sum_sub r s :
  length r = length s ->
  row_sum (zip_with Qminus r s) == row_sum r - row_sum s.
Proof.
  revert s. induction r as [|x r IH]; intros [|y s] L; try discriminate;
    cbn [zip_with row_sum fold_right]; [ring|].
  fold (row_sum (zip_with Qminus r s)) (row_sum r) (row_sum s).
  rewrite IH by (cbn in L; congruence). ring.
Qed.

Lemma row_sum_scale up r : row_sum (map (Qmult up) r) == up * row_sum r.
Proof.
  induction r as [|x r IH]; cbn [map row_sum fold_right]; [ring|].
  fold (row_sum (map (Qmult up) r)) (row_sum r). rewrite IH. ring.
Qed.

Lemma zip_with_length {A B C} (f : A -> B -> C) r s :
  length r = length s -> length (zip_with f r s) = length r.
Proof.
  revert s. induction r as [|x r IH]; intros [|y s] L; try discriminate;
    cbn [zip_with length]; [reflexivity|].
  rewrite IH by (cbn in L; congruence). reflexivity.
Qed.

Lemma lifted_single up r : lifted up [r] = [r].
Proof. reflexivity. Qed.

Lemma lifted_cons2 up r0 r1 rest :
  lifted up (r0 :: r1 :: rest)
  = zip_with Qplus r0 (map (Qmult up) r1) :: lifted up (r1 :: rest).
Proof.
  unfold lifted, set_init, arr_add, arr_scale, drop_last.
  cbn [length tl map Nat.sub].
  rewrite !Nat.sub_0_r. cbn [firstn skipn zip_with app].
  reflexivity.
Qed.

Lemma advect_nil (up : Q) : advect up [] = [].
Proof. reflexivity. Qed.

Lemma advect_single (up : Q) r : advect up [r] = [r].
Proof. reflexivity. Qed.

Lemma advect_cons2 up r0 r1 rest :
  advect up (r0 :: r1 :: rest)
  = zip_with Qplus r0 (map (Qmult up) r1) :: lowered up (r1 :: rest).
Proof.
  unfold advect. fold (lifted up (r0 :: r1 :: rest)).
  rewrite lifted_cons2. reflexivity.
Qed.

Lemma lowered_single up r :
  lowered up [r] = [zip_with Qminus r (map (Qmult up) r)].
Proof. reflexivity. Qed.

Lemma lowered_cons2 up r1 r2 rest :
  lowered up (r1 :: r2 :: rest)
  = zip_with Qminus (zip_with Qplus r1 (map (Qmult up) r2))
                    (map (Qmult up) r1)
    :: lowered up (r2 :: rest).
Proof. unfold lowered. rewrite lifted_cons2. reflexivity. Qed.

Lemma total_lowered up nx (c : Grid Q) :
  Forall (fun r => length r = nx) c ->
  total (lowered up c) == total c - up * row_sum (hd [] c).
Proof.
  induction c as [|r1 c IH]; intros Hs.
  - cbn. ring.
  - inversion Hs as [|? ? L1 Hs']; subst.
    destruct c as [|r2 rest].
    + rewrite lowered_single, !total_cons. cbn [hd].
      rewrite (row_sum_sub r1 (map (Qmult up) r1))
        by (rewrite length_map; reflexivity).
      rewrite row_sum_scale. unfold total, cells. cbn. ring.
    + inversion Hs' as [|? ? L2 _]; subst.
      rewrite lowered_cons2, !total_cons, (IH Hs'). cbn [hd].
      rewrite (row_sum_sub (zip_with Qplus r1 (map (Qmult up) r2))
                           (map (Qmult up) r1))
        by (rewrite zip_with_length; rewrite ?length_map; congruence).
      rewrite (row_sum_add r1 (map (Qmult up) r2))
        by (rewrite length_map; congruence).
      rewrite !row_sum_scale, (total_cons r2 rest). ring.
Qed.

Lemma total_advect up nx (c : Grid Q) :
  Forall (fun r => length r = nx) c -> total (advect up c) == total c.
Proof.
  intros Hs. destruct c as [|r0 [|r1 rest]]; try reflexivity.
  inversion Hs as [|? ? L0 Hs']; subst.
  inversion Hs' as [|? ? L1 _]; subst.
  rewrite advect_cons2, !total_cons, (total_lowered up _ _ Hs'). cbn [hd].
  rewrite (row_sum_add r0 (map (Qmult up) r1))
    by (rewrite length_map; congruence).
  rewrite row_sum_scale, total_cons. ring.
Qed.


Lemma nonneg_lift up r s :
  0 <= up -> nonneg_row r -> nonneg_row s ->
  nonneg_row (zip_with Qplus r (map (Qmult up) s)).
Proof.
  intros Hu Hr. revert s.
  induction Hr as [|x r Hx Hr IH]; intros s Hs; [constructor|].
  destruct Hs as [|y s Hy Hs]; cbn [map zip_with]; [constructor|].
  constructor; [|apply IH, Hs].
  pose proof (Qmult_le_0_compat up y Hu Hy). lra.
Qed.

Lemma nonneg_lower up r :
  up <= 1 -> nonneg_row r ->
  nonneg_row (zip_with Qminus r (map (Qmult up) r)).
Proof.
  intros Hu Hr. induction Hr as [|x r Hx Hr IH]; cbn [map zip_with];
    constructor; [|exact IH].
  assert (0 <= (1 - up) * x) by (apply Qmult_le_0_compat; lra). lra.
Qed.

Lemma nonneg_lift_lower up r1 r2 :
  0 <= up <= 1 -> nonneg_row r1 -> nonneg_row r2 ->
  nonneg_row (zip_with Qminus (zip_with Qplus r1 (map (Qmult up) r2))
                              (map (Qmult up) r1)).
Proof.
  intros Hu Hr. revert r2.
  induction Hr as [|x r1 Hx Hr IH]; intros r2 Hs; [constructor|].
  destruct Hs as [|y r2 Hy Hs]; cbn [map zip_with]; [constructor|].
  constructor; [|apply IH, Hs].
  assert (0 <= (1 - up) * x) by (apply Qmult_le_0_compat; lra).
  assert (0 <= up * y) by (apply Qmult_le_0_compat; lra).
  lra.
Qed.

Lemma nonneg_lowered up (c : Grid Q) :
  0 <= up <= 1 -> Forall nonneg_row c -> Forall nonneg_row (lowered up c).
Proof.
  intros Hu Hc. induction Hc as [|r1 c H1 Hc IH]; [constructor|].
  destruct Hc as [|r2 rest H2 Hrest].
  - rewrite lowered_single. constructor; [|constructor].
    apply nonneg_lower; [lra|exact H1].
  - rewrite lowered_cons2. constructor; [|exact IH].
    apply nonneg_lift_lower; assumption.
Qed.

Lemma nonneg_advect up (c : Grid Q) :
  0 <= up <= 1 -> Forall nonneg_row c -> Forall nonneg_row (advect up c).
Proof.
  intros Hu Hc. destruct Hc as [|r0 c H0 Hc]; [constructor|].
  destruct Hc as [|r1 rest H1 Hrest].
  - rewrite advect_single. repeat constructor. exact H0.
  - rewrite advect_cons2. constructor.
    + apply nonneg_lift; [lra|assumption|assumption].
    + apply nonneg_lowered; [exact Hu|constructor; assumption].
Qed.

Lemma all_cells_nonneg (c : Grid Q) :
  all_cells (Qle_bool 0) c = true <-> Forall nonneg_row c.
Proof.
  unfold all_cells, nonneg_row. rewrite forallb_forall, Forall_forall.
  split; intros H r Hr; specialize (H r Hr).
  - rewrite forallb_forall in H. apply Forall_forall. intros x Hx.
    apply Qle_bool_iff, H, Hx.
  - apply forallb_forall. rewrite Forall_forall in H. intros x Hx.
    apply Qle_bool_iff, H, Hx.
Qed.

Lemma clamp_zero_nonneg (c : Grid Q) :
  Forall nonneg_row c -> clamp_zero c = c.
Proof.
  unfold clamp_zero. intros Hc.
  induction Hc as [|r c Hr Hc IH]; cbn [map]; [reflexivity|].
  rewrite IH. f_equal.
  induction Hr as [|x r Hx Hr IHr]; cbn [map]; [reflexivity|].
  rewrite IHr. f_equal. num_Q.
  replace (Qle_bool 0.0 x) with true; [reflexivity|].
  symmetry. apply Qle_bool_iff. assert (0.0 == 0) by reflexivity. lra.
Qed.

Lemma has_shape_rows ny nx (c : Grid Q) :
  has_shape ny nx c = true -> Forall (fun r => length r = nx) c.
Proof.
  unfold has_shape. intros H. apply andb_true_iff in H as [_ H].
  rewrite forallb_forall in H. apply Forall_forall. intros r Hr.
  apply Nat.eqb_eq, H, Hr.
Qed.

(** The first three ticks of the simulator with its default sliders, run in
    binary64: every cell is a number in [[0, 5]]. *)
Example default_ticks_binary64 :
  let p : Params float := mkParams (lit 0.8) (lit 0.6) (lit 0.45) (lit 0.20) in
  all_cells (fun y => PrimFloat.leb 0 y && PrimFloat.leb y 5)%bool
            (_step p (_step p (_step p _init_grid))) = true.
Proof. vm_compute. reflexivity. Qed.

(* ----------------------------------------------------------------- *)
(** ** The claims about the simulator *)





(* ================================================================= *)
(** * Further properties of the quiz engine *)

Local Open Scope Z_scope.

(** ** The shuffle is a rearrangement *)

Lemma remove_at_perm {A} (i : nat) (l : list A) a :
  nth_error l i = Some a -> Permutation l (a :: remove_at i l).
Proof.
  unfold remove_at. revert l. induction i as [|i IH]; intros [|b l] H;
    try discriminate; cbn in *.
  - inversion H; subst. reflexivity.
  - rewrite (IH l H) at 1. apply perm_swap.
Qed.

Lemma replace_at_perm {A} (i : nat) (l : list A) a v :
  nth_error l i = Some a ->
  Permutation (firstn i l ++ v :: skipn (S i) l) (v :: remove_at i l).
Proof.
  intros _. unfold remove_at. symmetry. apply Permutation_middle.
Qed.

Lemma replace_at_nth {A} (i j : nat) (l : list A) a b v :
  nth_error l i = Some a -> nth_error l j = Some b ->
  nth_error (firstn i l ++ v :: skipn (S i) l) j
  = Some (if Nat.eqb i j then v else b).
Proof.
  revert j l. induction i as [|i IH]; intros [|j] [|c l] Hi Hj;
    try discriminate; cbn in *; try assumption; try reflexivity.
  apply IH; assumption.
Qed.

Lemma swap_perm {A} (i j : nat) (x : list A) : Permutation (swap i j x) x.
Proof.
  unfold swap.
  destruct (nth_error x i) as [xi|] eqn:Hi; [|reflexivity].
  destruct (nth_error x j) as [xj|] eqn:Hj; [|reflexivity].
  cbv zeta. set (x1 := firstn i x ++ xj :: skipn (S i) x).
  assert (H1 : nth_error x1 j = Some xj).
  { unfold x1. rewrite (replace_at_nth i j x xi xj xj Hi Hj).
    destruct (Nat.eqb i j); reflexivity. }
  assert (P1 : Permutation x1 (xj :: remove_at i x))
    by (apply (replace_at_perm i x xi), Hi).
  assert (P2 : Permutation x1 (xj :: remove_at j x1))
    by (apply remove_at_perm, H1).
  assert (PR : Permutation (remove_at j x1) (remove_at i x)).
  { apply (Permutation_cons_inv (a := xj)).
    rewrite <- P1, <- P2. reflexivity. }
  rewrite (replace_at_perm j x1 xj xi H1), PR.
  symmetry. apply remove_at_perm, Hi.
Qed.

Lemma shuffle_perm {A} (rb : nat -> nat) (x : list A) :
  Permutation (shuffle rb x) x.
Proof.
  unfold shuffle. generalize (Nat.pred (length x)) as i. intros i. revert x.
  induction i as [|i IH]; intros x; cbn [shuffle_down]; [reflexivity|].
  rewrite IH. apply swap_perm.
Qed.

(** ** Selection *)

Lemma prepare_quiz_items rb e n cat sh :
  exists pool',
    Permutation pool' (filter_pool cat (all_questions e))
    /\ quiz_items (prepare_quiz rb e n cat sh)
       = firstn (Z.to_nat (Z.max 1 n)) pool'.
Proof.
  exists (if sh then shuffle rb (filter_pool cat (all_questions e))
          else filter_pool cat (all_questions e)).
  split; [|reflexivity].
  destruct sh; [apply shuffle_perm|reflexivity].
Qed.

Lemma prepare_quiz_item_in_bank rb e n cat sh q :
  In q (quiz_items (prepare_quiz rb e n cat sh)) ->
  In q (all_questions e) /\ category_matches cat q = true.
Proof.
  destruct (prepare_quiz_items rb e n cat sh) as (pool' & Hp & Hq).
  rewrite Hq. intros Hin. apply firstn_In in Hin.
  apply (Permutation_in _ Hp) in Hin. apply filter_In in Hin. exact Hin.
Qed.

Lemma prepare_quiz_length rb e n cat sh :
  Z.of_nat (length (quiz_items (prepare_quiz rb e n cat sh)))
  = Z.min (Z.max 1 n)
          (Z.of_nat (length (filter_pool cat (all_questions e)))).
Proof.
  destruct (prepare_quiz_items rb e n cat sh) as (pool' & Hp & Hq).
  rewrite Hq, length_firstn, (Permutation_length Hp). lia.
Qed.

(** X1: the questions of a prepared quiz are bank questions that pass the
    category filter, taken as the first [max(1, n)] of a rearrangement of the
    filtered bank (so no question is asked more often than the bank holds
    it); without shuffling they are the first [max(1, n)] of the filtered
    bank in bank order.  The bank itself is not touched. *)
Theorem prepare_quiz_selects_from_bank :
  forall rb e n cat sh,
    let s := prepare_quiz rb e n cat sh in
    let pool := filter_pool cat (all_questions e) in
    (forall q, In q (quiz_items s) ->
       In q (all_questions e) /\ category_matches cat q = true)
    /\ (exists pool', Permutation pool' pool
          /\ quiz_items s = firstn (Z.to_nat (Z.max 1 n)) pool')
    /\ (sh = false -> quiz_items s = firstn (Z.to_nat (Z.max 1 n)) pool)
    /\ all_questions s = all_questions e.
Proof.
  intros rb e n cat sh s pool.
  split; [intros q; apply prepare_quiz_item_in_bank|].
  split; [apply prepare_quiz_items|].
  split; [intros ->; reflexivity|reflexivity].
Qed.

Lemma step_bank e o : all_questions (step e o) = all_questions e.
Proof.
  destruct o as [i|]; cbn [step].
  - unfold check_and_record. destruct (current e); reflexivity.
  - unfold next. destruct (_ <? _); reflexivity.
Qed.

Lemma run_bank ops : forall e, all_questions (run ops e) = all_questions e.
Proof.
  induction ops as [|o ops IH]; intros e; [reflexivity|].
  cbn [run fold_left]. fold (run ops (step e o)). rewrite IH. apply step_bank.
Qed.

(** X2: a retake starts from the bank alone: whatever was answered or
    advanced in the session before, [prepare_quiz] yields the session it
    yields on a newly built engine over the same bank. *)
Theorem retake_forgets_previous_session :
  forall rb0 rb e n0 cat0 sh0 ops n cat sh,
    prepare_quiz rb (run ops (prepare_quiz rb0 e n0 cat0 sh0)) n cat sh
    = prepare_quiz rb (new_engine (all_questions e)) n cat sh.
Proof.
  intros. unfold prepare_quiz at 1 3. rewrite run_bank. reflexivity.
Qed.

(** ** Position *)

Lemma next_calls_cons o ops :
  next_calls (o :: ops)
  = (match o with Next => 1 | CheckAndRecord _ => 0 end + next_calls ops)%nat.
Proof. destruct o; reflexivity. Qed.

Lemma run_index ops : forall e,
  session_ok e ->
  index (run ops e)
  = Z.min (index e + Z.of_nat (next_calls ops))
          (Z.max 0 (Z.of_nat (length (quiz_items e)) - 1)).
Proof.
  induction ops as [|o ops IH]; intros e Hok.
  - unfold session_ok in Hok. cbn. lia.
  - cbn [run fold_left]. fold (run ops (step e o)).
    rewrite (IH (step e o) (step_session_ok e o Hok)), step_items,
      next_calls_cons.
    unfold session_ok in Hok.
    destruct o as [i|]; cbn [step].
    + destruct (check_and_record_items e i) as [_ ->]. lia.
    + unfold next. destruct (index e + 1 <? _) eqn:E; cbn [snd index].
      * apply Z.ltb_lt in E. lia.
      * apply Z.ltb_ge in E. lia.
Qed.

(** X3: in a session the position is the number of [next] calls made so
    far, capped at the last question; [next] reports [True] exactly when it
    moved the position, by one. *)
Theorem index_counts_next_calls :
  forall rb e n cat sh ops,
    let s := run ops (prepare_quiz rb e n cat sh) in
    index s = Z.min (Z.of_nat (next_calls ops))
                    (Z.max 0 (Z.of_nat (length (quiz_items s)) - 1))
    /\ (fst (next s) = true <-> index (snd (next s)) = index s + 1)
    /\ (fst (next s) = false <-> snd (next s) = s)
    /\ (fst (next s) = false
        <-> Z.of_nat (length (quiz_items s)) <= index s + 1).
Proof.
  intros rb e n cat sh ops s. split.
  - unfold s. rewrite run_index by apply prepare_session_ok.
    rewrite run_items. reflexivity.
  - unfold next.
    destruct (index s + 1 <? Z.of_nat (length (quiz_items s))) eqn:E;
      cbn [fst snd index].
    + apply Z.ltb_lt in E. repeat split; try congruence; try lia.
      intros H. apply (f_equal index) in H. cbn in H. lia.
    + apply Z.ltb_ge in E. repeat split; try congruence; try lia.
Qed.

(** ** Records *)

Lemma run_history_grows ops : forall e,
  exists added,
    history (run ops e) = history e ++ added
    /\ (length added <= submissions ops)%nat
    /\ Forall (fun r => exists q i, In q (quiz_items e)
                                    /\ r = answer_record q i) added.
Proof.
  induction ops as [|o ops IH]; intros e.
  - exists []. rewrite app_nil_r. repeat split; [cbn; lia|constructor].
  - cbn [run fold_left]. fold (run ops (step e o)).
    destruct (IH (step e o)) as (added & Hh & Hl & Hr).
    rewrite step_items in Hr.
    destruct (step_history e o)
      as [(q & i & -> & Hq & Hs & _)|(_ & Hs & _)].
    + exists (answer_record q i :: added). rewrite Hh, Hs, <- app_assoc.
      split; [reflexivity|]. split.
      * unfold submissions in *. cbn [filter length]. cbn [length]. lia.
      * constructor; [|exact Hr]. exists q, i. split; [|reflexivity].
        unfold current in Hq. destruct (_ && _); [|discriminate].
        apply nth_error_In in Hq. exact Hq.
    + exists added. rewrite Hh, Hs. split; [reflexivity|]. split; [|exact Hr].
      unfold submissions in *. destruct o; cbn [filter length]; lia.
Qed.

(** X4: the history is append-only: further operations keep every record
    already made, in place, and add at most one record per
    [check_and_record] call; each added record is the snapshot of a question
    of the session. *)
Theorem history_is_append_only :
  forall rb e n cat sh ops more,
    let s := run ops (prepare_quiz rb e n cat sh) in
    exists added,
      history (run more s) = history s ++ added
      /\ (length added <= submissions more)%nat
      /\ Forall (fun r => exists q i, In q (quiz_items s)
                                      /\ r = answer_record q i) added.
Proof. intros. apply run_history_grows. Qed.

Lemma choice_text_in l i :
  0 <= i < Z.of_nat (length l) -> In (choice_text l i) l.
Proof.
  intros H. unfold choice_text.
  replace (0 <=? i) with true by (symmetry; apply Z.leb_le; lia).
  replace (i <? _) with true by (symmetry; apply Z.ltb_lt; lia).
  cbn [andb]. apply nth_In. lia.
Qed.

Lemma choice_text_out l i :
  ~ (0 <= i < Z.of_nat (length l)) -> choice_text l i = "".
Proof.
  intros H. unfold choice_text.
  destruct (0 <=? i) eqn:E1; [|reflexivity].
  destruct (i <? Z.of_nat (length l)) eqn:E2; [|reflexivity].
  apply Z.leb_le in E1. apply Z.ltb_lt in E2. lia.
Qed.

Lemma answer_record_texts q i :
  (rec_is_correct (answer_record q i) = true ->
   rec_chosen (answer_record q i) = rec_correct_text (answer_record q i))
  /\ (well_formed q ->
      rec_chosen (answer_record q i) = rec_correct_text (answer_record q i) ->
      rec_is_correct (answer_record q i) = true).
Proof.
  cbn [answer_record rec_is_correct rec_chosen rec_correct_text]. split.
  - intros H. apply Z.eqb_eq in H. rewrite H. reflexivity.
  - intros (Hci & Hnd & Hne) Heq. apply Z.eqb_eq.
    pose proof (choice_text_in _ _ Hci) as Hin.
    destruct (Z_lt_dec i 0) as [Hneg|Hpos];
      [rewrite (choice_text_out _ i) in Heq by lia; congruence|].
    destruct (Z_lt_dec i (Z.of_nat (length (choices q)))) as [Hlt|Hge];
      [|rewrite (choice_text_out _ i) in Heq by lia; congruence].
    unfold choice_text in Heq.
    replace (0 <=? i) with true in Heq by (symmetry; apply Z.leb_le; lia).
    replace (i <? _) with true in Heq by (symmetry; apply Z.ltb_lt; lia).
    replace (0 <=? correct_index q) with true in Heq
      by (symmetry; apply Z.leb_le; lia).
    replace (correct_index q <? _) with true in Heq
      by (symmetry; apply Z.ltb_lt; lia).
    cbn [andb] in Heq.
    apply (proj1 (NoDup_nth (choices q) "") Hnd) in Heq; lia.
Qed.

(** X5: in every record of a session, an answer marked correct has the
    correct choice as its chosen text; and when the questions of the bank are
    well formed (a valid [correct_index], choices distinct and not blank),
    an answer is marked correct exactly when the chosen text is the correct
    text. *)
Theorem records_agree_with_texts :
  forall rb e n cat sh ops r,
    let s := run ops (prepare_quiz rb e n cat sh) in
    In r (history s) ->
    (rec_is_correct r = true -> rec_chosen r = rec_correct_text r)
    /\ (Forall well_formed (all_questions e) ->
        (rec_is_correct r = true <-> rec_chosen r = rec_correct_text r)).
Proof.
  intros rb e n cat sh ops r s Hin.
  destruct (run_history_grows ops (prepare_quiz rb e n cat sh))
    as (added & Hh & _ & Hr).
  fold s in Hh. cbn [history prepare_quiz app] in Hh. rewrite Hh in Hin.
  rewrite Forall_forall in Hr. destruct (Hr r Hin) as (q & i & Hq & ->).
  split; [apply answer_record_texts|].
  intros Hwf. split; [apply answer_record_texts|].
  apply answer_record_texts.
  rewrite Forall_forall in Hwf. apply Hwf.
  apply (prepare_quiz_item_in_bank rb e n cat sh), Hq.
Qed.

Lemma records_agree_with_texts_witness :
  let s := run [CheckAndRecord 1; CheckAndRecord 0]
               (prepare_quiz (fun _ => O) (new_engine [sample_question])
                             1 None true) in
  let r := answer_record sample_question 1 in
  In r (history s)
  /\ (rec_is_correct r = true <-> rec_chosen r = rec_correct_text r).
Proof.
  split; [left; reflexivity|].
  apply (records_agree_with_texts (fun _ => O) (new_engine [sample_question])
           1 None true [CheckAndRecord 1; CheckAndRecord 0]).
  - left. reflexivity.
  - repeat constructor; cbn; try lia; intuition discriminate.
Defined.

(** ** Categories *)

Lemma In_categories e c :
  In c (categories e)
  <-> exists q, In q (all_questions e) /\ category q = c.
Proof.
  unfold categories. rewrite nodup_In, in_map_iff.
  split; intros (q & H1 & H2); exists q; auto.
Qed.

Lemma filter_pool_nonempty e c :
  In c (categories e)
  <-> (0 < length (filter_pool (Some c) (all_questions e)))%nat.
Proof.
  rewrite In_categories. unfold filter_pool. split.
  - intros (q & Hq & Hc).
    assert (Hin : In q (filter (category_matches (Some c)) (all_questions e))).
    { apply filter_In. split; [exact Hq|]. cbn. apply String.eqb_eq, Hc. }
    destruct (filter _ _); [destruct Hin|cbn; lia].
  - intros H.
    destruct (filter (category_matches (Some c)) (all_questions e))
      as [|q l] eqn:E; [cbn in H; lia|].
    assert (Hin : In q (filter (category_matches (Some c)) (all_questions e)))
      by (rewrite E; left; reflexivity).
    apply filter_In in Hin as [Hq Hc]. exists q. split; [exact Hq|].
    cbn in Hc. apply String.eqb_eq, Hc.
Qed.

(** X6: a quiz prepared with a category filter has a question exactly when
    the category is one of [categories()], and then all its questions are of
    that category; [categories()] holds the categories of the bank, each
    once. *)
Theorem category_filter_matches_categories :
  forall rb e n c sh,
    let s := prepare_quiz rb e n (Some c) sh in
    (In c (categories e) <-> exists q, In q (quiz_items s))
    /\ (In c (categories e) <-> exists q, current s = Some q)
    /\ (forall q, In q (quiz_items s) -> category q = c)
    /\ NoDup (categories e)
    /\ (forall c', In c' (categories e)
          <-> exists q, In q (all_questions e) /\ category q = c').
Proof.
  intros rb e n c sh s.
  assert (Hne : In c (categories e) <-> quiz_items s <> []).
  { rewrite filter_pool_nonempty.
    pose proof (prepare_quiz_length rb e n (Some c) sh) as L. fold s in L.
    destruct (quiz_items s) as [|q l]; cbn [length] in L.
    - split; [lia|congruence].
    - split; [discriminate|lia]. }
  split; [|split; [|split; [|split]]].
  - rewrite Hne. destruct (quiz_items s) as [|q l].
    + split; [congruence|intros (q & [])].
    + split; [exists q; left; reflexivity|discriminate].
  - rewrite Hne. split.
    + apply current_some_of_ok, prepare_session_ok.
    + intros (q & Hq) He. rewrite (current_none_of_empty s He) in Hq.
      discriminate.
  - intros q Hq. apply prepare_quiz_item_in_bank in Hq as [_ Hc].
    cbn in Hc. apply String.eqb_eq, Hc.
  - apply NoDup_nodup.
  - intros c'. apply In_categories.
Qed.

(** ** Score *)

(** X7: when no question is answered more than once, the score never
    exceeds the number of questions of the session. *)
Theorem score_bounded_by_total :
  forall rb e n cat sh ops,
    let s0 := prepare_quiz rb e n cat sh in
    once_per_question false ops s0 = true ->
    0 <= score (run ops s0) <= Z.of_nat (length (quiz_items (run ops s0))).
Proof.
  intros rb e n cat sh ops s0 Hd. unfold score.
  pose proof (prepare_session_ok rb e n cat sh) as Hok. fold s0 in Hok.
  assert (Hs : score_ok (run ops s0)) by (apply run_score_ok; reflexivity).
  unfold score_ok in Hs. rewrite Hs.
  pose proof (correct_entries_le (history (run ops s0))) as Hle.
  split; [lia|].
  rewrite run_items.
  destruct (quiz_items s0) as [|q l] eqn:Eq.
  - rewrite run_history_empty in * by exact Eq.
    change (history s0) with (@nil AnswerRecord) in *. cbn in *. lia.
  - pose proof (once_per_question_bound ops false s0 Hok) as Hb.
    change (history s0) with (@nil AnswerRecord) in Hb.
    change (index s0) with 0 in Hb.
    specialize (Hb ltac:(cbn; lia) Hd).
    pose proof (run_session_ok ops s0 Hok) as Hr.
    unfold session_ok in Hr. rewrite run_items, Eq in Hr.
    cbn [length] in *. lia.
Qed.

Lemma score_bounded_by_total_witness :
  let s0 := prepare_quiz (fun _ => O)
              (new_engine [sample_question; sample_question]) 2 None false in
  let ops := [CheckAndRecord 0; Next; CheckAndRecord 0] in
  once_per_question false ops s0 = true
  /\ 0 <= score (run ops s0) <= Z.of_nat (length (quiz_items (run ops s0))).
Proof.
  split; [reflexivity|].
  apply (score_bounded_by_total (fun _ => O)
           (new_engine [sample_question; sample_question]) 2 None false).
  reflexivity.
Defined.

(* ================================================================= *)
(** * Further properties of the recommendation builder *)

Lemma dict_get_append k k' r d :
  dict_get k (dict_append k' r d)
  = dict_get k d ++ (if String.eqb k' k then [r] else []).
Proof.
  induction d as [|[k0 l] d IH]; cbn.
  - destruct (String.eqb k' k); reflexivity.
  - destruct (String.eqb_spec k0 k') as [->|N0]; cbn.
    + destruct (String.eqb k' k); [reflexivity|]. rewrite app_nil_r.
      reflexivity.
    + destruct (String.eqb_spec k0 k) as [->|N1]; [|exact IH].
      destruct (String.eqb_spec k' k) as [->|N2]; [congruence|].
      rewrite app_nil_r. reflexivity.
Qed.

Lemma rationales_acc h cat : forall wc wd ra,
  dict_get cat (snd (fold_left tally_step h (wc, wd, ra)))
  = dict_get cat ra ++ missed_rationales h cat.
Proof.
  unfold missed_rationales.
  induction h as [|r h IH]; intros wc wd ra; cbn [fold_left filter map].
  - rewrite app_nil_r. reflexivity.
  - unfold tally_step at 2.
    destruct (negb (rec_is_correct r)); cbn [andb]; [|apply IH].
    destruct (truthy (rec_rationale r)); cbn [andb]; [|apply IH].
    rewrite IH, dict_get_append.
    destruct (String.eqb (rec_category r) cat); cbn [map];
      rewrite <- app_assoc; reflexivity.
Qed.

Lemma notes_lines_spec h cat :
  category_lines h cat
  = bullet_line cat
    :: map (fun ir => note_line (fst ir) (snd ir))
           (enumerate_from 1 (firstn 2 (missed_rationales h cat)))
  /\ (length (category_lines h cat)
      = 1 + Nat.min 2 (length (missed_rationales h cat)))%nat.
Proof.
  assert (E : dict_get cat (rationales h) = missed_rationales h cat)
    by (unfold rationales, tally_wrong; apply rationales_acc).
  unfold category_lines. rewrite E.
  split; [reflexivity|].
  assert (L : forall (l : list string) k,
             length (enumerate_from k l) = length l).
  { induction l as [|x l IH]; intros k; cbn; [reflexivity|].
    rewrite IH. reflexivity. }
  cbn [length]. rewrite length_map, L, length_firstn. lia.
Qed.

(** X8: the notes under a category are the first two non-blank rationales
    of the incorrect answers in that category, in the order they were
    given and numbered from 1 (a rationale met twice is noted twice); so a
    category takes at most three lines of the output. *)
Theorem notes_are_first_rationales :
  forall h cat,
    category_lines h cat
    = bullet_line cat
      :: map (fun ir => note_line (fst ir) (snd ir))
             (enumerate_from 1 (firstn 2 (missed_rationales h cat)))
    /\ (length (category_lines h cat) <= 3)%nat
    /\ (length (category_lines h cat)
        = 1 + Nat.min 2 (length (missed_rationales h cat)))%nat.
Proof.
  intros h cat. destruct (notes_lines_spec h cat) as [H1 H2].
  split; [exact H1|]. split; [lia|exact H2].
Qed.

(* ================================================================= *)
(** * Further properties of the simulator *)

Local Open Scope nat_scope.

(** ** Cells of slices and of elementwise operations *)

Section Slices.
Context {A : Type}.

Lemma nth_error_zip_with {B C} (f : A -> B -> C) l1 l2 i :
  nth_error (zip_with f l1 l2) i
  = match nth_error l1 i, nth_error l2 i with
    | Some x, Some y => Some (f x y)
    | _, _ => None
    end.
Proof.
  revert l2 i. induction l1 as [|a l1 IH]; intros [|b l2] [|i];
    cbn [zip_with nth_error]; try reflexivity.
  - destruct (nth_error l1 i); reflexivity.
  - apply IH.
Qed.

Lemma nth_error_tl (l : list A) i : nth_error (tl l) i = nth_error l (S i).
Proof. destruct l; [destruct i|]; reflexivity. Qed.

Lemma nth_error_drop_last k (l : list A) i :
  nth_error (drop_last k l) i
  = if i <? length l - k then nth_error l i else None.
Proof. apply nth_error_firstn. Qed.

Lemma nth_error_mid (l : list A) i :
  nth_error (mid l) i
  = if S (S i) <? length l then nth_error l (S i) else None.
Proof.
  unfold mid. rewrite removelast_firstn_len, nth_error_firstn, nth_error_tl.
  replace (length (tl l)) with (length l - 1) by (destruct l; cbn; lia).
  destruct (Nat.ltb_spec i (Nat.pred (length l - 1))),
    (Nat.ltb_spec (S (S i)) (length l)); try reflexivity; lia.
Qed.

Lemma nth_error_none_ge (l : list A) i : length l <= i -> nth_error l i = None.
Proof. apply nth_error_None. Qed.

Lemma length_zip_with {B C} (f : A -> B -> C) l1 l2 :
  length (zip_with f l1 l2) = Nat.min (length l1) (length l2).
Proof.
  revert l2. induction l1 as [|a l1 IH]; intros [|b l2]; cbn; auto.
Qed.

Lemma Forall_zip_with {B C} (f : A -> B -> C) (P : A -> Prop) (Q : B -> Prop)
    (R : C -> Prop) l1 l2 :
  (forall x y, P x -> Q y -> R (f x y)) ->
  Forall P l1 -> Forall Q l2 -> Forall R (zip_with f l1 l2).
Proof.
  intros H H1. revert l2. induction H1 as [|a l1 Pa H1 IH]; intros l2 H2;
    [constructor|].
  destruct H2 as [|b l2 Qb H2]; cbn; constructor; auto.
Qed.

Lemma length_mid (l : list A) : length (mid l) = length l - 2.
Proof.
  unfold mid. rewrite removelast_firstn_len, length_firstn.
  destruct l as [|a [|b l]]; cbn; lia.
Qed.

Lemma length_set_mid (v l : list A) :
  length v = length l - 2 -> length (set_mid v l) = length l.
Proof.
  intros Hv. unfold set_mid.
  destruct (Nat.ltb_spec (length l) 2); [reflexivity|].
  rewrite !length_app, length_firstn, length_skipn. lia.
Qed.

End Slices.

Section Cells.
Context {A : Type}.

Lemma cell_tl (c : list (list A)) j i : cell j i (tl c) = cell (S j) i c.
Proof. unfold cell. rewrite nth_error_tl. reflexivity. Qed.

Lemma cell_skipn k (c : list (list A)) j i :
  cell j i (skipn k c) = cell (k + j) i c.
Proof. unfold cell. rewrite nth_error_skipn. reflexivity. Qed.

Lemma cell_drop_last k (c : list (list A)) j i :
  cell j i (drop_last k c) = if j <? length c - k then cell j i c else None.
Proof.
  unfold cell. rewrite nth_error_drop_last.
  destruct (j <? length c - k); reflexivity.
Qed.

Lemma cell_mid_rows (c : list (list A)) j i :
  cell j i (mid c) = if S (S j) <? length c then cell (S j) i c else None.
Proof.
  unfold cell. rewrite nth_error_mid.
  destruct (S (S j) <? length c); reflexivity.
Qed.

Lemma cell_map_rows {B} (g : list A -> list B) (c : list (list A)) j i :
  cell j i (map g c)
  = match nth_error c j with
    | Some row => nth_error (g row) i
    | None => None
    end.
Proof.
  unfold cell. rewrite nth_error_map.
  destruct (nth_error c j); reflexivity.
Qed.

Lemma cell_map {B} (g : A -> B) (c : list (list A)) j i :
  cell j i (map (map g) c) = option_map g (cell j i c).
Proof.
  rewrite cell_map_rows. unfold cell.
  destruct (nth_error c j); [apply nth_error_map|reflexivity].
Qed.

Lemma cell_zip_with {B C} (f : A -> B -> C) X Y j i :
  cell j i (zip_with (zip_with f) X Y)
  = match cell j i X, cell j i Y with
    | Some x, Some y => Some (f x y)
    | _, _ => None
    end.
Proof.
  unfold cell. rewrite nth_error_zip_with.
  destruct (nth_error X j) as [r|], (nth_error Y j) as [s|];
    try reflexivity.
  - apply nth_error_zip_with.
  - destruct (nth_error r i); reflexivity.
Qed.

Lemma cell_app (c1 c2 : list (list A)) j i :
  cell j i (c1 ++ c2)
  = if j <? length c1 then cell j i c1 else cell (j - length c1) i c2.
Proof.
  unfold cell. rewrite nth_error_app.
  destruct (j <? length c1); reflexivity.
Qed.

Lemma cell_shaped ny nx (c : list (list A)) j i :
  shaped ny nx c ->
  (j < ny /\ i < nx <-> exists x, cell j i c = Some x).
Proof.
  intros [L R]. unfold cell. split.
  - intros [Hj Hi]. destruct (nth_error c j) as [row|] eqn:E.
    + rewrite Forall_forall in R.
      pose proof (R row (nth_error_In _ _ E)) as Lr.
      destruct (nth_error row i) as [x|] eqn:E2; [eauto|].
      apply nth_error_None in E2. lia.
    + apply nth_error_None in E. lia.
  - intros (x & E). destruct (nth_error c j) as [row|] eqn:Ej;
      [|discriminate].
    rewrite Forall_forall in R.
    pose proof (R row (nth_error_In _ _ Ej)) as Lr.
    split.
    + rewrite <- L. apply nth_error_Some. congruence.
    + rewrite <- Lr. apply nth_error_Some. congruence.
Qed.

Lemma cell_none ny nx (c : list (list A)) j i :
  shaped ny nx c -> ~ (j < ny /\ i < nx) -> cell j i c = None.
Proof.
  intros S N. destruct (cell j i c) as [x|] eqn:E; [|reflexivity].
  exfalso. apply N. apply (cell_shaped ny nx c j i S). eauto.
Qed.

(** Two arrays of one shape with the same cells are the same array. *)
Lemma nth_error_ext (l1 l2 : list A) :
  (forall i, nth_error l1 i = nth_error l2 i) -> l1 = l2.
Proof.
  revert l2. induction l1 as [|a l1 IH]; intros [|b l2] H.
  - reflexivity.
  - specialize (H 0). discriminate.
  - specialize (H 0). discriminate.
  - pose proof (H 0) as H0. cbn in H0. inversion H0; subst. f_equal.
    apply IH. intros i. apply (H (S i)).
Qed.
End Cells.

(** ** Shapes *)

Section Shapes.
Context {A : Type}.

Lemma shaped_app n1 n2 m (X Y : list (list A)) :
  shaped n1 m X -> shaped n2 m Y -> shaped (n1 + n2) m (X ++ Y).
Proof.
  intros [L1 R1] [L2 R2]. split; [rewrite length_app; lia|].
  apply Forall_app. auto.
Qed.

Lemma shaped_firstn k n m (c : list (list A)) :
  shaped n m c -> shaped (Nat.min k n) m (firstn k c).
Proof.
  intros [L R]. split; [rewrite length_firstn; lia|].
  rewrite <- (firstn_skipn k c) in R. apply Forall_app in R. tauto.
Qed.

Lemma shaped_skipn k n m (c : list (list A)) :
  shaped n m c -> shaped (n - k) m (skipn k c).
Proof.
  intros [L R]. split; [rewrite length_skipn; lia|].
  rewrite <- (firstn_skipn k c) in R. apply Forall_app in R. tauto.
Qed.

Lemma shaped_tl n m (c : list (list A)) :
  shaped n m c -> shaped (n - 1) m (tl c).
Proof. apply (shaped_skipn 1). Qed.

Lemma shaped_drop_last k n m (c : list (list A)) :
  shaped n m c -> shaped (n - k) m (drop_last k c).
Proof.
  intros S. unfold drop_last. replace (n - k) with (Nat.min (length c - k) n)
    by (destruct S; lia).
  apply shaped_firstn, S.
Qed.

Lemma shaped_mid n m (c : list (list A)) :
  shaped n m c -> shaped (n - 2) m (mid c).
Proof.
  intros S. unfold mid. rewrite removelast_firstn_len.
  replace (n - 2) with (Nat.min (Nat.pred (length (tl c))) (n - 1)).
  - apply shaped_firstn, shaped_tl, S.
  - destruct S as [L _]. destruct c; cbn in *; lia.
Qed.

Lemma shaped_map_rows {B} (g : list A -> list B) n m m' (c : list (list A)) :
  (forall r, length r = m -> length (g r) = m') ->
  shaped n m c -> shaped n m' (map g c).
Proof.
  intros Hg [L R]. split; [rewrite length_map; exact L|].
  apply Forall_map. revert R. apply Forall_impl. exact Hg.
Qed.

Lemma shaped_map {B} (g : A -> B) n m (c : list (list A)) :
  shaped n m c -> shaped n m (map (map g) c).
Proof.
  apply shaped_map_rows. intros r <-. apply length_map.
Qed.

Lemma shaped_zip_with {B C} (f : A -> B -> C) n m X Y :
  shaped n m X -> shaped n m Y -> shaped n m (zip_with (zip_with f) X Y).
Proof.
  intros [L1 R1] [L2 R2]. split; [rewrite length_zip_with; lia|].
  eapply Forall_zip_with; [|exact R1|exact R2].
  cbv beta. intros x y Hx Hy. rewrite length_zip_with. lia.
Qed.

Lemma has_shape_iff {F} ny nx (c : list (list F)) :
  has_shape ny nx c = true <-> shaped ny nx c.
Proof.
  unfold has_shape, shaped. rewrite andb_true_iff, Nat.eqb_eq.
  rewrite forallb_forall, Forall_forall.
  split; intros [L R]; (split; [exact L|]); intros r Hr;
    apply Nat.eqb_eq, R, Hr.
Qed.
End Shapes.

Section StageShapes.
Context {F : Type} `{Num F}.

Lemma shaped_add_at ny nx lj li x (c : Grid F) :
  shaped ny nx c -> shaped ny nx (add_at lj li x c).
Proof.
  intros S. unfold add_at.
  destruct (nth_error c lj) as [row|] eqn:Ej; [|exact S].
  destruct (nth_error row li) as [v|] eqn:Ei; [|exact S].
  destruct S as [L R].
  assert (Hj : lj < length c) by (apply nth_error_Some; congruence).
  assert (Hi : li < length row) by (apply nth_error_Some; congruence).
  assert (Lr : length row = nx)
    by (rewrite Forall_forall in R; apply R, (nth_error_In _ _ Ej)).
  split.
  - rewrite length_app, length_firstn. cbn [length]. rewrite length_skipn.
    lia.
  - rewrite <- (firstn_skipn lj c) in R. apply Forall_app in R as [R1 R2].
    apply Forall_app. split; [exact R1|]. constructor.
    + rewrite length_app, length_firstn. cbn [length].
      rewrite length_skipn. lia.
    + rewrite <- (firstn_skipn 1 (skipn lj c)) in R2.
      apply Forall_app in R2 as [_ R2]. rewrite skipn_skipn in R2.
      exact R2.
Qed.

Lemma shaped_advect ny nx up (c : Grid F) :
  shaped ny nx c -> shaped ny nx (advect up c).
Proof.
  intros S. unfold advect, set_init, set_tail.
  assert (Ss : shaped (ny - 1) nx (arr_scale up (tl c)))
    by (apply shaped_map, shaped_tl, S).
  assert (S1 : shaped ny nx
                 (arr_add (drop_last 1 c) (arr_scale up (tl c))
                  ++ skipn (length c - 1) c)).
  { replace ny with ((ny - 1) + (ny - (length c - 1)))
      by (destruct S; lia).
    apply shaped_app; [|apply shaped_skipn, S].
    apply shaped_zip_with; [apply shaped_drop_last, S|exact Ss]. }
  replace ny with (Nat.min 1 ny + (ny - 1)) by lia.
  apply shaped_app; [apply shaped_firstn, S1|].
  apply shaped_zip_with; [apply shaped_tl, S1|exact Ss].
Qed.

Lemma shaped_diffuse ny nx d (c : Grid F) :
  shaped ny nx c -> shaped ny nx (diffuse d c).
Proof.
  intros S. unfold diffuse.
  assert (Smid : shaped (ny - 2) nx (mid c)) by (apply shaped_mid, S).
  assert (Hm : forall r : list F, length r = nx -> length (mid r) = nx - 2)
    by (intros r <-; apply length_mid).
  assert (Hs : forall r : list F, length r = nx -> length (skipn 2 r) = nx - 2)
    by (intros r <-; apply length_skipn).
  assert (Hd : forall r : list F,
             length r = nx -> length (drop_last 2 r) = nx - 2)
    by (intros r <-; unfold drop_last; rewrite length_firstn; lia).
  set (value := arr_add _ _).
  assert (Sv : shaped (ny - 2) (nx - 2) value).
  { unfold value. apply shaped_zip_with; apply shaped_map.
    - apply (shaped_map_rows _ _ nx); [exact Hm|exact Smid].
    - repeat apply shaped_zip_with.
      + apply (shaped_map_rows _ _ nx); [exact Hm|].
        apply (shaped_skipn 2), S.
      + apply (shaped_map_rows _ _ nx); [exact Hm|].
        apply shaped_drop_last, S.
      + apply (shaped_map_rows _ _ nx); [exact Hs|exact Smid].
      + apply (shaped_map_rows _ _ nx); [exact Hd|exact Smid]. }
  assert (Sr : shaped (ny - 2) nx (zip_with set_mid value (mid c))).
  { destruct Sv as [Lv Rv], Smid as [Lm Rm].
    split; [rewrite length_zip_with; lia|].
    eapply Forall_zip_with; [|exact Rv|exact Rm].
    cbv beta. intros v r Hv Hr. rewrite length_set_mid; lia. }
  destruct S as [L R], Sr as [Lr Rr]. split.
  - rewrite length_set_mid; lia.
  - unfold set_mid. destruct (length c <? 2); [exact R|].
    apply Forall_app. split; [|apply Forall_app; split; [exact Rr|]].
    + rewrite <- (firstn_skipn 1 c) in R. apply Forall_app in R. tauto.
    + rewrite <- (firstn_skipn (length c - 1) c) in R.
      apply Forall_app in R. tauto.
Qed.

Lemma length_scale_slice i0 i1 k (row : list F) :
  length (scale_slice i0 i1 k row) = length row.
Proof.
  unfold scale_slice.
  rewrite !length_app, length_map, !length_firstn, !length_skipn. lia.
Qed.

Lemma shaped_vent ny nx vent (c : Grid F) :
  shaped ny nx c -> shaped ny nx (vent_stage vent c).
Proof.
  intros S. unfold vent_stage. destruct (gtb vent (lit 0)); [|exact S].
  destruct c as [|row0 rest]; [exact S|].
  destruct S as [L R]. apply Forall_cons_iff in R as [Hr0 Rrest].
  split; [exact L|]. constructor; [|exact Rrest].
  rewrite length_scale_slice. exact Hr0.
Qed.

Lemma shaped_step ny nx p (c : Grid F) :
  shaped ny nx c -> shaped ny nx (_step p c).
Proof.
  intros S. unfold _step, clip, buoyancy_stage, diffusion_stage, inject,
    clamp_zero.
  destruct leak_cell as [li lj].
  apply shaped_map, shaped_vent.
  assert (S1 := shaped_add_at ny nx lj li
                  (mul (lit 0.5) (leak_rate p)) c S).
  set (c1 := add_at _ _ _ c) in *.
  assert (S2 : shaped ny nx
                 (if gtb (buoyancy p) (lit 0)
                  then map (map (fun x => maximum x (lit 0.0)))
                           (advect (buoyancy p) c1)
                  else c1))
    by (destruct (gtb _ _); [apply shaped_map, shaped_advect|]; exact S1).
  destruct (gtb (diffusion p) (lit 0));
    [apply shaped_map, shaped_diffuse|]; exact S2.
Qed.

(** X9: a tick keeps the shape of the grid, whatever the parameters and in
    either arithmetic; so does [reset], which puts the [NY] by [NX] array of
    zeros in place. *)
Theorem step_keeps_shape :
  forall (p : Params F) (c : Grid F) (ny nx : nat),
    has_shape ny nx c = true ->
    has_shape ny nx (_step p c) = true
    /\ has_shape NY NX (_step p _init_grid) = true.
Proof.
  intros p c ny nx S. split.
  - apply has_shape_iff, shaped_step, has_shape_iff, S.
  - apply has_shape_iff, shaped_step. unfold _init_grid, zeros.
    split; [apply repeat_length|].
    apply Forall_forall. intros r Hr. apply repeat_spec in Hr. subst.
    apply repeat_length.
Qed.
End StageShapes.

(** ** The stages, cell by cell *)

Section SliceAssignment.
Context {A : Type}.

Lemma nth_error_replace k (l : list A) v j :
  k < length l ->
  nth_error (firstn k l ++ v :: skipn (S k) l) j
  = if j =? k then Some v else nth_error l j.
Proof.
  intros Hk. rewrite nth_error_app, length_firstn.
  replace (Nat.min k (length l)) with k by lia.
  destruct (Nat.ltb_spec j k) as [Hlt|Hge].
  - rewrite nth_error_firstn.
    destruct (Nat.ltb_spec j k); [|lia].
    destruct (Nat.eqb_spec j k); [lia|reflexivity].
  - destruct (Nat.eqb_spec j k) as [->|Hne].
    + rewrite Nat.sub_diag. reflexivity.
    + destruct (j - k) as [|d] eqn:E; [lia|]. cbn [nth_error].
      rewrite nth_error_skipn. f_equal. lia.
Qed.

Lemma nth_error_set_mid (v l : list A) i :
  length v = length l - 2 ->
  nth_error (set_mid v l) i
  = if (1 <=? i) && (S i <? length l) then nth_error v (i - 1)
    else nth_error l i.
Proof.
  intros Hv. unfold set_mid.
  destruct (Nat.ltb_spec (length l) 2) as [Hs|Hl].
  - destruct (Nat.leb_spec 1 i), (Nat.ltb_spec (S i) (length l));
      cbn [andb]; try reflexivity; lia.
  - rewrite nth_error_app, length_firstn.
    replace (Nat.min 1 (length l)) with 1 by lia.
    destruct (Nat.ltb_spec i 1) as [H0|H1].
    + rewrite nth_error_firstn.
      destruct (Nat.ltb_spec i 1); [|lia].
      destruct (Nat.leb_spec 1 i); [lia|reflexivity].
    + rewrite nth_error_app.
      destruct (Nat.leb_spec 1 i); [|lia]. cbn [andb].
      destruct (Nat.ltb_spec (i - 1) (length v)),
        (Nat.ltb_spec (S i) (length l)); try lia; [reflexivity|].
      rewrite nth_error_skipn. f_equal. lia.
Qed.
End SliceAssignment.

Section StageCells.
Context {F : Type} `{Num F}.

Lemma cell_add_at lj li x (c : Grid F) j i :
  cell j i (add_at lj li x c)
  = if (j =? lj) && (i =? li)
    then option_map (fun v => add v x) (cell j i c)
    else cell j i c.
Proof.
  unfold add_at.
  destruct (nth_error c lj) as [row|] eqn:Ej.
  - destruct (nth_error row li) as [v|] eqn:Ei.
    + assert (Hj : lj < length c) by (apply nth_error_Some; congruence).
      assert (Hi : li < length row) by (apply nth_error_Some; congruence).
      unfold cell. rewrite nth_error_replace by exact Hj.
      destruct (Nat.eqb_spec j lj) as [->|Nj]; cbn [andb]; [|reflexivity].
      rewrite Ej, nth_error_replace by exact Hi.
      destruct (Nat.eqb_spec i li) as [->|Ni]; [|reflexivity].
      rewrite Ei. reflexivity.
    + destruct (Nat.eqb_spec j lj) as [->|Nj]; cbn [andb]; [|reflexivity].
      destruct (Nat.eqb_spec i li) as [->|Ni]; [|reflexivity].
      unfold cell. rewrite Ej, Ei. reflexivity.
  - destruct (Nat.eqb_spec j lj) as [->|Nj]; cbn [andb]; [|reflexivity].
    destruct (i =? li); [|reflexivity].
    unfold cell. rewrite Ej. reflexivity.
Qed.

Lemma cell_step_down ny nx (c : Grid F) j i x :
  shaped ny nx c -> cell j i c = Some x ->
  (S j < ny -> exists b, cell (S j) i c = Some b)
  /\ (ny <= S j -> cell (S j) i c = None).
Proof.
  intros S E.
  assert (Hji : j < ny /\ i < nx) by (apply (cell_shaped ny nx c j i S); eauto).
  split; intros Hj.
  - apply (cell_shaped ny nx c (Datatypes.S j) i S). lia.
  - apply (cell_none ny nx); [exact S|lia].
Qed.

(** [tmp] after [tmp[:-1, :] += up * c[1:, :]]. *)
Lemma cell_lifted ny nx up (c : Grid F) j i :
  shaped ny nx c ->
  cell j i (set_init (arr_add (drop_last 1 c) (arr_scale up (tl c))) c)
  = match cell j i c with
    | None => None
    | Some x => Some (match cell (S j) i c with
                      | Some below => add x (mul up below)
                      | None => x
                      end)
    end.
Proof.
  intros S. pose proof S as [L R].
  unfold set_init, arr_add, arr_scale.
  rewrite cell_app, length_zip_with, length_map.
  replace (length (drop_last 1 c)) with (ny - 1)
    by (unfold drop_last; rewrite length_firstn; lia).
  replace (length (tl c)) with (ny - 1) by (destruct c; cbn in *; lia).
  rewrite Nat.min_id.
  destruct (Nat.ltb_spec j (ny - 1)) as [Hlt|Hge].
  - rewrite cell_zip_with, cell_drop_last, cell_map, cell_tl, L.
    destruct (Nat.ltb_spec j (ny - 1)); [|lia].
    destruct (cell j i c) as [x|] eqn:E; [|reflexivity].
    destruct (cell_step_down ny nx c j i x S E) as [Hb _].
    destruct (Hb ltac:(lia)) as (b & ->). reflexivity.
  - rewrite cell_skipn, L.
    replace (ny - 1 + (j - (ny - 1))) with j by lia.
    destruct (cell j i c) as [x|] eqn:E; [|reflexivity].
    destruct (cell_step_down ny nx c j i x S E) as [_ Hn].
    assert (j < ny /\ i < nx) by (apply (cell_shaped ny nx c j i S); eauto).
    rewrite Hn by lia. reflexivity.
Qed.

Lemma cell_advect ny nx up (c : Grid F) j i :
  shaped ny nx c -> cell j i (advect up c) = advect_cell up c j i.
Proof.
  intros S. pose proof S as [L R].
  unfold advect, advect_cell.
  set (tmp := set_init _ c).
  assert (St : shaped ny nx tmp).
  { pose proof (shaped_advect ny nx up c S) as Sa.
    unfold advect, set_tail in Sa. fold tmp in Sa.
    destruct Sa as [La Ra]. rewrite length_app in La.
    unfold set_init in tmp.
    split.
    - unfold tmp, arr_add, arr_scale.
      rewrite length_app, length_zip_with, length_map, length_skipn.
      unfold drop_last. rewrite length_firstn.
      replace (length (tl c)) with (ny - 1) by (destruct c; cbn in *; lia).
      lia.
    - unfold tmp. apply Forall_app. split.
      + apply (shaped_zip_with add (ny - 1) nx);
          [apply shaped_drop_last, S|apply shaped_map, shaped_tl, S].
      + apply (shaped_skipn (length c - 1) ny nx c S). }
  unfold set_tail, arr_sub, arr_scale.
  rewrite cell_app, length_firstn. destruct St as [Lt Rt]. rewrite Lt.
  assert (Ht : forall j', cell j' i tmp
             = match cell j' i c with
               | None => None
               | Some x => Some (match cell (Datatypes.S j') i c with
                                 | Some below => add x (mul up below)
                                 | None => x
                                 end)
               end)
    by (intros j'; apply (cell_lifted ny nx up c j' i S)).
  destruct j as [|j'].
  - destruct (Nat.ltb_spec 0 (Nat.min 1 ny)) as [Hp|Hz].
    + unfold cell at 1. rewrite nth_error_firstn. cbn [Nat.ltb Nat.leb].
      fold (cell 0 i tmp). rewrite Ht.
      destruct (cell 0 i c); reflexivity.
    + assert (ny = 0) by lia.
      rewrite (cell_none ny nx c 0 i S) by lia.
      replace (0 - Nat.min 1 ny) with 0 by lia.
      rewrite cell_zip_with, cell_tl, Ht.
      rewrite (cell_none ny nx c 1 i S) by lia. reflexivity.
  - destruct (Nat.ltb_spec (Datatypes.S j') (Nat.min 1 ny)); [lia|].
    destruct (Nat.eq_dec ny 0) as [Z|NZ].
    + rewrite (cell_none ny nx c (Datatypes.S j') i S) by lia.
      rewrite cell_zip_with, cell_tl, Ht.
      rewrite (cell_none ny nx c (Datatypes.S (Datatypes.S j' - Nat.min 1 ny))
                 i S) by lia.
      reflexivity.
    + replace (Datatypes.S j' - Nat.min 1 ny) with j' by lia.
      rewrite cell_zip_with, cell_tl, Ht, cell_map, cell_tl.
      destruct (cell (Datatypes.S j') i c) as [x|]; reflexivity.
Qed.
Lemma cell_map_mid ny nx (X : Grid F) j i :
  shaped ny nx X ->
  cell j i (map mid X) = if S (S i) <? nx then cell j (S i) X else None.
Proof.
  intros [L R]. rewrite cell_map_rows. unfold cell.
  destruct (nth_error X j) as [row|] eqn:E.
  - rewrite nth_error_mid.
    rewrite Forall_forall in R. rewrite (R row (nth_error_In _ _ E)).
    reflexivity.
  - destruct (S (S i) <? nx); reflexivity.
Qed.

Lemma cell_map_skipn k (X : Grid F) j i :
  cell j i (map (skipn k) X) = cell j (k + i) X.
Proof.
  rewrite cell_map_rows. unfold cell.
  destruct (nth_error X j); [apply nth_error_skipn|reflexivity].
Qed.

Lemma cell_map_drop_last k ny nx (X : Grid F) j i :
  shaped ny nx X ->
  cell j i (map (drop_last k) X) = if i <? nx - k then cell j i X else None.
Proof.
  intros [L R]. rewrite cell_map_rows. unfold cell.
  destruct (nth_error X j) as [row|] eqn:E.
  - rewrite nth_error_drop_last.
    rewrite Forall_forall in R. rewrite (R row (nth_error_In _ _ E)).
    reflexivity.
  - destruct (i <? nx - k); reflexivity.
Qed.

Lemma cell_set_mid_rows (V c : Grid F) j i :
  length V = length c - 2 ->
  cell j i (set_mid V c)
  = if (1 <=? j) && (S j <? length c) then cell (j - 1) i V
    else cell j i c.
Proof.
  intros HV. unfold cell. rewrite nth_error_set_mid by exact HV.
  destruct ((1 <=? j) && (S j <? length c)); reflexivity.
Qed.

Lemma cell_zip_set_mid ny nx (V M : Grid F) j i :
  shaped ny (nx - 2) V -> shaped ny nx M ->
  cell j i (zip_with set_mid V M)
  = if (1 <=? i) && (S i <? nx) then cell j (i - 1) V else cell j i M.
Proof.
  intros [LV RV] [LM RM]. unfold cell. rewrite nth_error_zip_with.
  destruct (nth_error V j) as [v|] eqn:Ev, (nth_error M j) as [r|] eqn:Er.
  - rewrite Forall_forall in RV, RM.
    pose proof (RV v (nth_error_In _ _ Ev)) as Lv.
    pose proof (RM r (nth_error_In _ _ Er)) as Lr.
    rewrite nth_error_set_mid by lia. rewrite Lr. reflexivity.
  - apply nth_error_None in Er.
    assert (j < length V) by (apply nth_error_Some; congruence). lia.
  - apply nth_error_None in Ev.
    assert (j < length M) by (apply nth_error_Some; congruence). lia.
  - destruct ((1 <=? i) && (S i <? nx)); reflexivity.
Qed.

Lemma cell_diffuse ny nx d (c : Grid F) j i :
  shaped ny nx c -> cell j i (diffuse d c) = diffuse_cell d c j i.
Proof.
  intros Sh. pose proof Sh as [L R].
  assert (Smid : shaped (ny - 2) nx (mid c)) by (apply shaped_mid, Sh).
  assert (Hex : forall j' i', j' < ny -> i' < nx ->
                  exists y, cell j' i' c = Some y)
    by (intros j' i' Hj Hi; apply (cell_shaped ny nx c j' i' Sh); lia).
  assert (Hno : forall j' i', ~ (j' < ny /\ i' < nx) -> cell j' i' c = None)
    by (intros j' i'; apply (cell_none ny nx c j' i' Sh)).
  unfold diffuse, diffuse_cell.
  set (k := sub (lit 1) (mul (lit 4) d)).
  set (value := arr_add _ _).
  assert (Sv : shaped (ny - 2) (nx - 2) value).
  { pose proof (shaped_diffuse ny nx d c Sh) as _.
    assert (Hm : forall r : list F, length r = nx -> length (mid r) = nx - 2)
      by (intros r <-; apply length_mid).
    assert (Hs : forall r : list F,
               length r = nx -> length (skipn 2 r) = nx - 2)
      by (intros r <-; apply length_skipn).
    assert (Hd : forall r : list F,
               length r = nx -> length (drop_last 2 r) = nx - 2)
      by (intros r <-; unfold drop_last; rewrite length_firstn; lia).
    unfold value. apply shaped_zip_with; apply shaped_map.
    - apply (shaped_map_rows _ _ nx); [exact Hm|exact Smid].
    - repeat apply shaped_zip_with.
      + apply (shaped_map_rows _ _ nx); [exact Hm|].
        apply (shaped_skipn 2), Sh.
      + apply (shaped_map_rows _ _ nx); [exact Hm|].
        apply shaped_drop_last, Sh.
      + apply (shaped_map_rows _ _ nx); [exact Hs|exact Smid].
      + apply (shaped_map_rows _ _ nx); [exact Hd|exact Smid]. }
  assert (Hval : forall j0 i0, S (S j0) < ny -> S (S i0) < nx ->
            cell j0 i0 value
            = match cell (S j0) (S i0) c, cell (S (S j0)) (S i0) c,
                    cell j0 (S i0) c, cell (S j0) (S (S i0)) c,
                    cell (S j0) i0 c with
              | Some x, Some below, Some above, Some rgt, Some lft =>
                  Some (add (mul k x)
                            (mul d (add (add (add below above) rgt) lft)))
              | _, _, _, _, _ => None
              end).
  { intros j0 i0 Hj0 Hi0. unfold value, arr_add, arr_scale.
    rewrite !cell_zip_with, !cell_map, !cell_zip_with.
    rewrite (cell_map_mid (ny - 2) nx (mid c)) by exact Smid.
    rewrite (cell_map_mid (ny - 2) nx (skipn 2 c))
      by (apply (shaped_skipn 2), Sh).
    rewrite (cell_map_mid (ny - 2) nx (drop_last 2 c))
      by (apply shaped_drop_last, Sh).
    rewrite cell_map_skipn.
    rewrite (cell_map_drop_last 2 (ny - 2) nx (mid c)) by exact Smid.
    rewrite !cell_mid_rows, cell_skipn, cell_drop_last, L.
    destruct (Nat.ltb_spec (S (S i0)) nx); [|lia].
    destruct (Nat.ltb_spec (S (S j0)) ny); [|lia].
    destruct (Nat.ltb_spec j0 (ny - 2)); [|lia].
    destruct (Nat.ltb_spec i0 (nx - 2)); [|lia].
    cbn [Nat.add].
    destruct (Hex (S j0) (S i0)) as (x & ->); [lia|lia|].
    destruct (Hex (S (S j0)) (S i0)) as (b & ->); [lia|lia|].
    destruct (Hex j0 (S i0)) as (a & ->); [lia|lia|].
    destruct (Hex (S j0) (S (S i0))) as (r & ->); [lia|lia|].
    destruct (Hex (S j0) i0) as (l & ->); [lia|lia|].
    reflexivity. }
  rewrite cell_set_mid_rows
    by (rewrite length_zip_with; destruct Sv, Smid; lia).
  rewrite L.
  destruct (Nat.leb_spec 1 j) as [Hj1|Hj0];
    [destruct (Nat.ltb_spec (S j) ny) as [Hj2|Hj2]|]; cbn [andb].
  - (* an inner row *)
    rewrite (cell_zip_set_mid (ny - 2) nx) by assumption.
    rewrite cell_mid_rows, L.
    destruct (Nat.ltb_spec (S (S (j - 1))) ny); [|lia].
    replace (S (j - 1)) with j by lia.
    destruct j as [|j']; [lia|]. replace (S j' - 1) with j' by lia.
    destruct (Nat.leb_spec 1 i) as [Hi1|Hi0];
      [destruct (Nat.ltb_spec (S i) nx) as [Hi2|Hi2]|]; cbn [andb].
    + destruct i as [|i']; [lia|]. replace (S i' - 1) with i' by lia.
      rewrite Hval by lia.
      destruct (Hex (S j') (S i')) as (x & ->); [lia|lia|].
      destruct (Hex (S (S j')) (S i')) as (b & ->); [lia|lia|].
      destruct (Hex j' (S i')) as (a & ->); [lia|lia|].
      destruct (Hex (S j') (S (S i'))) as (r & ->); [lia|lia|].
      destruct (Hex (S j') i') as (l & ->); [lia|lia|].
      reflexivity.
    + destruct (cell (S j') i c) as [x|] eqn:E; [|reflexivity].
      destruct i as [|i']; [reflexivity|].
      rewrite (Hno (S j') (S (S i'))) by lia.
      destruct (cell (S (S j')) (S i') c), (cell j' (S i') c); reflexivity.
    + assert (i = 0) by lia. subst i.
      destruct (cell (S j') 0 c); reflexivity.
  - (* the last row *)
    destruct (cell j i c) as [x|] eqn:E; [|reflexivity].
    destruct j as [|j']; [reflexivity|]. destruct i as [|i']; [reflexivity|].
    rewrite (Hno (S (S j')) (S i')) by lia. reflexivity.
  - (* the first row *)
    assert (j = 0) by lia. subst j.
    destruct (cell 0 i c); reflexivity.
Qed.

Lemma nth_error_scale_slice i0 i1 k (row : list F) i :
  i0 <= i1 ->
  nth_error (scale_slice i0 i1 k row) i
  = if (i0 <=? i) && (i <? i1)
    then option_map (fun x => mul x k) (nth_error row i)
    else nth_error row i.
Proof.
  intros H01.
  destruct (Nat.le_gt_cases (length row) i) as [Hbig|Hsmall].
  - rewrite (nth_error_none_ge row i Hbig).
    rewrite (nth_error_none_ge (scale_slice i0 i1 k row) i)
      by (rewrite length_scale_slice; exact Hbig).
    destruct (_ && _); reflexivity.
  - unfold scale_slice. replace (Nat.max i0 i1) with i1 by lia.
    destruct (Nat.leb_spec i0 i) as [Hge|Hlt]; cbn [andb].
    + rewrite nth_error_app2 by (rewrite length_firstn; lia).
      rewrite length_firstn. replace (Nat.min i0 (length row)) with i0 by lia.
      destruct (Nat.ltb_spec i i1) as [Hin|Hout].
      * rewrite nth_error_app1
          by (rewrite length_map, length_firstn, length_skipn; lia).
        rewrite nth_error_map, nth_error_firstn.
        destruct (Nat.ltb_spec (i - i0) (i1 - i0)); [|lia].
        rewrite nth_error_skipn. replace (i0 + (i - i0)) with i by lia.
        reflexivity.
      * rewrite nth_error_app2
          by (rewrite length_map, length_firstn, length_skipn; lia).
        rewrite length_map, length_firstn, length_skipn, nth_error_skipn.
        f_equal. lia.
    + rewrite nth_error_app1 by (rewrite length_firstn; lia).
      rewrite nth_error_firstn.
      destruct (Nat.ltb_spec i i0); [reflexivity|lia].
Qed.

Lemma cell_vent vent (c : Grid F) j i :
  cell j i (vent_stage vent c)
  = if gtb vent (lit 0) && in_vent j i
    then option_map (fun x => mul x (vent_factor vent)) (cell j i c)
    else cell j i c.
Proof.
  unfold vent_stage, in_vent.
  destruct (gtb vent (lit 0)); cbn [andb]; [|reflexivity].
  destruct c as [|row0 rest].
  - unfold cell. rewrite !nth_error_nil.
    destruct (_ && _); reflexivity.
  - destruct j as [|j]; cbn [Nat.eqb andb]; [|reflexivity].
    unfold cell. cbn [nth_error].
    apply nth_error_scale_slice. unfold vent_x0, vent_x1, NX. lia.
Qed.
End StageCells.

Section StageFormulas.
Context {F : Type} `{Num F}.

(** X10: injection changes the leak cell [(lj, li) = (31, 6)] only, to its
    value plus [0.5 * leak]; every other cell, and the set of cells, is as
    before. *)
Theorem inject_changes_leak_cell_only :
  forall (leak : F) (c : Grid F) (j i : nat),
    cell j i (inject leak c)
    = if is_leak_cell j i
      then option_map (fun v => add v (mul (lit 0.5) leak)) (cell j i c)
      else cell j i c.
Proof. intros leak c j i. unfold inject. apply cell_add_at. Qed.

(** X11: the buoyancy stage, cell by cell, on a rectangular grid: with
    [up > 0] the cell [(j, i)] becomes [max(t, 0)], where [t] is the old
    value plus [up] times the cell below (if any), minus, except in the top
    row, [up] times the old value, in this order of operations; with
    [up <= 0] the grid is unchanged. *)
Theorem buoyancy_stage_cell :
  forall (up : F) (c : Grid F) (ny nx j i : nat),
    has_shape ny nx c = true ->
    cell j i (buoyancy_stage up c)
    = if gtb up (lit 0)
      then option_map (fun t => maximum t (lit 0.0)) (advect_cell up c j i)
      else cell j i c.
Proof.
  intros up c ny nx j i Sh. apply has_shape_iff in Sh.
  unfold buoyancy_stage, clamp_zero. destruct (gtb up (lit 0)); [|reflexivity].
  rewrite cell_map, (cell_advect ny nx up c j i Sh). reflexivity.
Qed.

(** X12: the diffusion stage, cell by cell, on a rectangular grid: with
    [d > 0] a cell with four neighbours becomes
    [max((1 - 4*d) * x + d * (below + above + right + left), 0)] computed
    from the values before the stage, and a cell of the outer ring becomes
    [max(x, 0)]; with [d <= 0] the grid is unchanged. *)
Theorem diffusion_stage_cell :
  forall (d : F) (c : Grid F) (ny nx j i : nat),
    has_shape ny nx c = true ->
    cell j i (diffusion_stage d c)
    = if gtb d (lit 0)
      then option_map (fun t => maximum t (lit 0.0)) (diffuse_cell d c j i)
      else cell j i c.
Proof.
  intros d c ny nx j i Sh. apply has_shape_iff in Sh.
  unfold diffusion_stage, clamp_zero. destruct (gtb d (lit 0)); [|reflexivity].
  rewrite cell_map, (cell_diffuse ny nx d c j i Sh). reflexivity.
Qed.

(** X13: vent removal multiplies the cells [20 <= i < 50] of the top row by
    [1 - 0.6 * vent] when [vent > 0], and changes no other cell. *)
Theorem vent_stage_cell :
  forall (vent : F) (c : Grid F) (j i : nat),
    cell j i (vent_stage vent c)
    = if gtb vent (lit 0) && in_vent j i
      then option_map (fun x => mul x (vent_factor vent)) (cell j i c)
      else cell j i c.
Proof. intros. apply cell_vent. Qed.
End StageFormulas.

Lemma step_keeps_shape_witness :
  let p : Params float := mkParams (lit 0.8) (lit 0.6) (lit 0.45) (lit 0.20) in
  has_shape NY NX (_step p (_step p _init_grid)) = true
  /\ has_shape NY NX (_step p _init_grid) = true.
Proof.
  apply (step_keeps_shape
           (mkParams (lit 0.8) (lit 0.6) (lit 0.45) (lit 0.20))
           (_step (mkParams (lit 0.8) (lit 0.6) (lit 0.45) (lit 0.20))
                  _init_grid)
           NY NX).
  vm_compute. reflexivity.
Defined.

Lemma buoyancy_stage_cell_witness :
  let c : Grid Q := [[1; 2]; [4; 8]]%Q in
  cell 1 0 (buoyancy_stage (1 # 2) c)
  = option_map (fun t => maximum t (lit 0.0)) (advect_cell (1 # 2) c 1 0).
Proof.
  exact (buoyancy_stage_cell (1 # 2) [[1; 2]; [4; 8]]%Q 2 2 1 0 eq_refl).
Defined.

Lemma diffusion_stage_cell_witness :
  let c : Grid Q := [[1; 2; 3]; [4; 8; 16]; [5; 6; 7]]%Q in
  cell 1 1 (diffusion_stage (1 # 10) c)
  = option_map (fun t => maximum t (lit 0.0)) (diffuse_cell (1 # 10) c 1 1).
Proof.
  exact (diffusion_stage_cell (1 # 10)
           [[1; 2; 3]; [4; 8; 16]; [5; 6; 7]]%Q 3 3 1 1 eq_refl).
Defined.

(** ** Bounds and totals in exact arithmetic *)

Local Open Scope Q_scope.

Lemma Forall_cells_iff {A} (P : A -> Prop) (c : list (list A)) :
  Forall P (cells c) <-> forall j i x, cell j i c = Some x -> P x.
Proof.
  unfold cells, cell. rewrite Forall_forall. split.
  - intros H j i x E. apply H, in_concat.
    destruct (nth_error c j) as [row|] eqn:Ej; [|discriminate].
    exists row. split; eapply nth_error_In; eassumption.
  - intros H x Hx. apply in_concat in Hx as (row & Hr & Hx).
    apply In_nth_error in Hr as (j & Ej). apply In_nth_error in Hx as (i & Ei).
    apply (H j i). rewrite Ej. exact Ei.
Qed.

Lemma maximum_zero_Q (t : Q) :
  0 <= maximum t (lit 0.0)
  /\ (0 <= t -> maximum t (lit 0.0) = t)
  /\ (t <= 0 -> maximum t (lit 0.0) == 0).
Proof.
  num_Q. assert (Z0 : 0.0 == 0) by reflexivity.
  destruct (Qle_bool 0.0 t) eqn:E.
  - apply Qle_bool_iff in E. rewrite Z0 in E.
    split; [exact E|]. split; [reflexivity|intros; lra].
  - assert (N : ~ 0.0 <= t) by (rewrite <- Qle_bool_iff; congruence).
    rewrite Z0 in N.
    split; [rewrite Z0; lra|]. split; [intros; exfalso; lra|intros; exact Z0].
Qed.

Lemma diffuse_cell_range d M (c : Grid Q) j i v :
  0 <= d <= 1 # 4 ->
  (forall j i x, cell j i c = Some x -> 0 <= x <= M) ->
  diffuse_cell d c j i = Some v -> 0 <= v <= M.
Proof.
  intros Hd Hc. unfold diffuse_cell.
  destruct (cell j i c) as [x|] eqn:Ex; [|discriminate].
  pose proof (Hc _ _ _ Ex) as Hx.
  destruct j as [|j'], i as [|i'];
    try (intros E; inversion E; subst; exact Hx).
  destruct (cell (S (S j')) (S i') c) as [b|] eqn:Eb;
    [|intros E; inversion E; subst; exact Hx].
  destruct (cell j' (S i') c) as [a|] eqn:Ea;
    [|intros E; inversion E; subst; exact Hx].
  destruct (cell (S j') (S (S i')) c) as [r|] eqn:Er;
    [|intros E; inversion E; subst; exact Hx].
  destruct (cell (S j') i' c) as [l|] eqn:El;
    [|intros E; inversion E; subst; exact Hx].
  pose proof (Hc _ _ _ Eb). pose proof (Hc _ _ _ Ea).
  pose proof (Hc _ _ _ Er). pose proof (Hc _ _ _ El).
  intros E. inversion E; subst. num_Q. split; nra.
Qed.



Lemma advect_cell_zero up (c : Grid Q) j i v :
  (forall j i x, cell j i c = Some x -> x == 0) ->
  advect_cell up c j i = Some v -> v == 0.
Proof.
  intros Hc. unfold advect_cell.
  destruct (cell j i c) as [x|] eqn:Ex; [|discriminate].
  pose proof (Hc _ _ _ Ex) as Hx.
  destruct (cell (S j) i c) as [b|] eqn:Eb.
  - pose proof (Hc _ _ _ Eb) as Hb.
    destruct j; intros E; inversion E; subst; num_Q; rewrite Hx, Hb; ring.
  - destruct j; intros E; inversion E; subst; num_Q; rewrite Hx; ring.
Qed.

Lemma diffuse_cell_zero d (c : Grid Q) j i v :
  (forall j i x, cell j i c = Some x -> x == 0) ->
  diffuse_cell d c j i = Some v -> v == 0.
Proof.
  intros Hc. unfold diffuse_cell.
  destruct (cell j i c) as [x|] eqn:Ex; [|discriminate].
  pose proof (Hc _ _ _ Ex) as Hx.
  destruct j as [|j'], i as [|i'];
    try (intros E; inversion E; subst; exact Hx).
  destruct (cell (S (S j')) (S i') c) as [b|] eqn:Eb;
    [|intros E; inversion E; subst; exact Hx].
  destruct (cell j' (S i') c) as [a|] eqn:Ea;
    [|intros E; inversion E; subst; exact Hx].
  destruct (cell (S j') (S (S i')) c) as [r|] eqn:Er;
    [|intros E; inversion E; subst; exact Hx].
  destruct (cell (S j') i' c) as [l|] eqn:El;
    [|intros E; inversion E; subst; exact Hx].
  pose proof (Hc _ _ _ Eb) as Hb. pose proof (Hc _ _ _ Ea) as Ha.
  pose proof (Hc _ _ _ Er) as Hr. pose proof (Hc _ _ _ El) as Hl.
  intros E. inversion E; subst. num_Q. rewrite Hx, Hb, Ha, Hr, Hl. ring.
Qed.

Lemma clamp_zero_cells_zero (c : Grid Q) :
  (forall j i x, cell j i c = Some x -> x == 0) ->
  forall j i x, cell j i (clamp_zero c) = Some x -> x == 0.
Proof.
  intros Hc j i x. unfold clamp_zero. rewrite cell_map.
  destruct (cell j i c) as [t|] eqn:E; [|discriminate].
  intros E'. inversion E'; subst.
  apply maximum_zero_Q. rewrite (Hc _ _ _ E). lra.
Qed.



Lemma row_sum_app r1 r2 : row_sum (r1 ++ r2) == row_sum r1 + row_sum r2.
Proof.
  unfold row_sum. induction r1 as [|x r1 IH]; cbn [app fold_right]; [ring|].
  rewrite IH. ring.
Qed.

Lemma total_app (c1 c2 : Grid Q) : total (c1 ++ c2) == total c1 + total c2.
Proof.
  induction c1 as [|r c1 IH]; cbn [app].
  - unfold total at 2, cells. cbn. ring.
  - rewrite !total_cons, IH. ring.
Qed.

Lemma row_sum_map_le (f : Q -> Q) r :
  Forall (fun x => f x <= x) r -> row_sum (map f r) <= row_sum r.
Proof.
  unfold row_sum. induction 1 as [|x r Hx Hr IH]; cbn [map fold_right];
    [lra|]. lra.
Qed.

Lemma total_map_le (f : Q -> Q) (c : Grid Q) :
  Forall (Forall (fun x => f x <= x)) c -> total (map (map f) c) <= total c.
Proof.
  induction 1 as [|r c Hr Hc IH]; cbn [map]; [lra|].
  rewrite !total_cons. pose proof (row_sum_map_le f r Hr). lra.
Qed.

Lemma row_sum_replace l1 (v w : Q) l2 :
  row_sum (l1 ++ w :: l2) == row_sum (l1 ++ v :: l2) + (w - v).
Proof.
  rewrite !row_sum_app. unfold row_sum. cbn [fold_right]. ring.
Qed.

Lemma total_replace (c1 : Grid Q) r r' c2 :
  total (c1 ++ r' :: c2)
  == total (c1 ++ r :: c2) + (row_sum r' - row_sum r).
Proof. rewrite !total_app, !total_cons. ring. Qed.

Lemma total_add_at lj li x (c : Grid Q) :
  total (add_at lj li x c)
  == total c + match cell lj li c with Some _ => x | None => 0 end.
Proof.
  unfold add_at, cell.
  destruct (nth_error c lj) as [row|] eqn:Ej; [|ring].
  destruct (nth_error row li) as [v|] eqn:Ei; [|ring].
  rewrite (total_replace _ row), (row_sum_replace _ v).
  rewrite (firstn_skipn_middle _ _ Ej), (firstn_skipn_middle _ _ Ei).
  num_Q. ring.
Qed.

Lemma row_sum_scale_slice_le i0 i1 k row :
  (i0 <= i1)%nat -> 0 <= k <= 1 -> nonneg_row row ->
  row_sum (scale_slice i0 i1 k row) <= row_sum row.
Proof.
  intros H01 Hk Hrow. unfold scale_slice.
  replace (Nat.max i0 i1) with i1 by lia.
  assert (E : row = firstn i0 row ++ firstn (i1 - i0) (skipn i0 row)
                    ++ skipn i1 row).
  { rewrite <- (firstn_skipn i0 row) at 1. f_equal.
    rewrite <- (firstn_skipn (i1 - i0) (skipn i0 row)) at 1. f_equal.
    rewrite skipn_skipn. f_equal. lia. }
  assert (Hm : row_sum (map (fun x => mul x k)
                            (firstn (i1 - i0) (skipn i0 row)))
               <= row_sum (firstn (i1 - i0) (skipn i0 row))).
  { apply row_sum_map_le. apply Forall_forall. intros x Hx.
    apply firstn_In in Hx.
    assert (Hin : In x row)
      by (rewrite <- (firstn_skipn i0 row); apply in_app_iff; auto).
    unfold nonneg_row in Hrow. rewrite Forall_forall in Hrow.
    pose proof (Hrow x Hin). num_Q. nra. }
  assert (Es : row_sum row
               == row_sum (firstn i0 row)
                  + (row_sum (firstn (i1 - i0) (skipn i0 row))
                     + row_sum (skipn i1 row))).
  { rewrite <- !row_sum_app, <- E. reflexivity. }
  rewrite !row_sum_app, Es. lra.
Qed.

Lemma cells_nonneg_iff (c : Grid Q) :
  Forall nonneg_row c <-> forall j i x, cell j i c = Some x -> 0 <= x.
Proof.
  unfold nonneg_row. rewrite <- Forall_concat. apply Forall_cells_iff.
Qed.



(* ================================================================= *)
(** * Percentage and pass mark *)

Local Open Scope Z_scope.

Lemma In_zrange n z : 0 <= z <= Z.of_nat n -> In z (zrange n).
Proof.
  intros H. unfold zrange. rewrite <- (Z2Nat.id z) by lia.
  apply in_map, in_seq. lia.
Qed.

Lemma percent_table_200 :
  forallb (fun total => forallb (percent_check total) (zrange 200))
          (zrange 200) = true.
Proof. vm_compute. reflexivity. Qed.

Lemma pass_table_200 :
  forallb (fun T => forallb (pass_check T) (zrange 200)) (zrange 100) = true.
Proof. vm_compute. reflexivity. Qed.

Lemma shown_table_ok : forallb shown_check (zrange 100) = true.
Proof. vm_compute. reflexivity. Qed.

Lemma percent_checked score total :
  0 <= score <= 200 -> 0 <= total <= 200 ->
  percent_check total score = true.
Proof.
  intros Hs Ht. pose proof percent_table_200 as H.
  rewrite forallb_forall in H.
  specialize (H total (In_zrange 200 total ltac:(lia))).
  rewrite forallb_forall in H.
  exact (H score (In_zrange 200 score ltac:(lia))).
Qed.

Lemma pass_checked T pct :
  0 <= T <= 100 -> 0 <= pct <= 200 -> pass_check T pct = true.
Proof.
  intros HT Hp. pose proof pass_table_200 as H.
  rewrite forallb_forall in H.
  specialize (H T (In_zrange 100 T ltac:(lia))).
  rewrite forallb_forall in H.
  exact (H pct (In_zrange 200 pct ltac:(lia))).
Qed.

Lemma shown_checked T : 0 <= T <= 100 -> shown_check T = true.
Proof.
  intros HT. pose proof shown_table_ok as H.
  rewrite forallb_forall in H.
  exact (H T (In_zrange 100 T ltac:(lia))).
Qed.

(** X17: for scores and totals up to 200 the percentage computed in
    floating point, [int(100 * score / max(1, total))], is the integer part
    of the exact quotient; with the score at most the total it lies in
    [[0, 100]], and it is 100 only for a full score. *)
Theorem percent_is_floor :
  forall score total,
    0 <= score <= 200 -> 0 <= total <= 200 ->
    percent score total = Some (100 * score / Z.max 1 total)
    /\ (score <= total -> 0 <= 100 * score / Z.max 1 total <= 100)
    /\ (score <= total -> 0 < total ->
        (100 * score / Z.max 1 total = 100 <-> score = total)).
Proof.
  intros score total Hs Ht. split; [|split].
  - pose proof (percent_checked score total Hs Ht) as H.
    unfold percent_check in H.
    destruct (percent score total) as [p|]; [|discriminate].
    apply Z.eqb_eq in H. congruence.
  - intros Hle. split; [apply Z.div_pos; lia|].
    apply Z.div_le_upper_bound; lia.
  - intros Hle Hpos. replace (Z.max 1 total) with total by lia. split.
    + intros E.
      pose proof (Z.mul_div_le (100 * score) total Hpos) as Hm.
      rewrite E in Hm. lia.
    + intros ->. apply Z.div_mul. lia.
Qed.

Lemma percent_is_floor_witness :
  percent 7 10 = Some (100 * 7 / Z.max 1 10)
  /\ (7 <= 10 -> 0 <= 100 * 7 / Z.max 1 10 <= 100)
  /\ (7 <= 10 -> 0 < 10 -> (100 * 7 / Z.max 1 10 = 100 <-> 7 = 10)).
Proof. apply (percent_is_floor 7 10); lia. Defined.

(** X18: the pass decision of [finish_quiz] for a whole-number threshold:
    when the threshold entry is an integer [T] in [[0, 100]] and the score
    is at most the total (both up to 200), the quiz is passed exactly when
    the percentage is at least [T]. *)
Theorem pass_decision_is_percent_at_least :
  forall T score total,
    0 <= T <= 100 -> 0 <= score <= total -> total <= 200 ->
    finish_passed score total (pass_threshold_of (Some (float_of_Z T)))
    = Some (T <=? 100 * score / Z.max 1 total).
Proof.
  intros T score total HT Hs Ht. unfold finish_passed.
  destruct (percent_is_floor score total ltac:(lia) ltac:(lia))
    as (-> & Hr & _).
  specialize (Hr ltac:(lia)). f_equal.
  pose proof (pass_checked T (100 * score / Z.max 1 total) HT ltac:(lia))
    as H.
  unfold pass_check in H. apply Bool.eqb_prop in H. exact H.
Qed.

Lemma pass_decision_is_percent_at_least_witness :
  finish_passed 7 10 (pass_threshold_of (Some (float_of_Z 70))) = Some true
  /\ finish_passed 6 10 (pass_threshold_of (Some (float_of_Z 70)))
     = Some false.
Proof.
  split.
  - exact (pass_decision_is_percent_at_least 70 7 10
             ltac:(lia) ltac:(lia) ltac:(lia)).
  - exact (pass_decision_is_percent_at_least 70 6 10
             ltac:(lia) ltac:(lia) ltac:(lia)).
Defined.

(** X19: the threshold shown in the status line, [int(pass_threshold * 100)],
    is the whole-number threshold [T] that was entered, except for 29, 57
    and 58, which are shown as 28, 56 and 57 (the product is rounded below
    the integer before it is truncated). *)
Theorem shown_threshold_of_integer_entry :
  forall T,
    0 <= T <= 100 ->
    shown_threshold (pass_threshold_of (Some (float_of_Z T)))
    = Some (if existsb (Z.eqb T) [29; 57; 58] then T - 1 else T).
Proof.
  intros T HT. pose proof (shown_checked T HT) as H.
  unfold shown_check in H.
  destruct (shown_threshold _) as [v|]; [|discriminate].
  apply Z.eqb_eq in H. congruence.
Qed.

Lemma shown_threshold_of_integer_entry_witness :
  shown_threshold (pass_threshold_of (Some (float_of_Z 29))) = Some 28.
Proof. exact (shown_threshold_of_integer_entry 29 ltac:(lia)). Defined.

Lemma float_lt_le (x y : float) :
  PrimFloat.ltb x y = true -> PrimFloat.leb x y = true.
Proof.
  rewrite FloatAxioms.ltb_spec, FloatAxioms.leb_spec. unfold SFltb, SFleb.
  destruct (SFcompare (Prim2SF x) (Prim2SF y)) as [[| |]|];
    congruence.
Qed.

(** X20: the stored pass threshold always lies in [[0, 1]]: whatever number
    the entry converts to (negative, above 100, infinite or NaN), and also
    when the conversion fails. *)
Theorem pass_threshold_in_unit_interval :
  forall entry : option float,
    PrimFloat.leb 0 (pass_threshold_of entry) = true
    /\ PrimFloat.leb (pass_threshold_of entry) 1 = true.
Proof.
  intros [x|]; [|vm_compute; split; reflexivity].
  unfold pass_threshold_of, py_max, py_min.
  change (float_lit 0.0) with 0%float. change (float_lit 1.0) with 1%float.
  set (y := PrimFloat.div x (float_lit 100.0)).
  destruct (PrimFloat.ltb y 1) eqn:E1.
  - destruct (PrimFloat.ltb 0 y) eqn:E0.
    + split; apply float_lt_le; assumption.
    + vm_compute. split; reflexivity.
  - change (PrimFloat.ltb 0 1) with true. cbv iota.
    vm_compute. split; reflexivity.
Qed.

(* ================================================================= *)
(** * Running the simulator *)

Section AnimationControl.
Context {F : Type} `{Num F}.
Import Animation.

Local Open Scope nat_scope.

Lemma remove_timer_single id : remove_timer id [id] = [].
Proof. unfold remove_timer. cbn. rewrite Nat.eqb_refl. reflexivity. Qed.

Lemma loop_consistent (a : State F) :
  pending a = [] ->
  (forall id, after_id a = Some id -> id < fresh a) ->
  (running a = false -> after_id a = None) ->
  consistent (loop a).
Proof.
  intros Hp Hf Hr. unfold loop, consistent. cbn.
  destruct (running a) eqn:R; cbn.
  - rewrite Hp. repeat split. intros id E. inversion E. lia.
  - rewrite Hp, (Hr eq_refl). repeat split. discriminate.
Qed.

Lemma handle_consistent (a : State F) ev :
  consistent a -> consistent (handle a ev).
Proof.
  intros Ha. pose proof Ha as (Hp & Hr & Hf).
  destruct ev as [| | |p|id]; cbn [handle].
  - unfold start. destruct (running a) eqn:R; [exact Ha|].
    destruct (after_id a) eqn:A; [discriminate|].
    unfold loop, consistent. cbn. rewrite Hp. repeat split.
    intros id E. inversion E. lia.
  - unfold pause, consistent. destruct (after_id a) as [id|] eqn:A; cbn.
    + rewrite Hp, remove_timer_single. repeat split. discriminate.
    + rewrite Hp. repeat split. discriminate.
  - unfold reset, pause, consistent. destruct (after_id a) as [id|] eqn:A; cbn.
    + rewrite Hp, remove_timer_single. repeat split. discriminate.
    + rewrite Hp. repeat split. discriminate.
  - unfold consistent. cbn. repeat split; assumption.
  - destruct (existsb (Nat.eqb id) (pending a)) eqn:E; [|exact Ha].
    destruct (after_id a) as [id'|] eqn:A; rewrite Hp in E; cbn in E;
      [|discriminate].
    rewrite orb_false_r in E. apply Nat.eqb_eq in E. subst id'.
    unfold loop, consistent. cbn. rewrite Hr, Hp, remove_timer_single. cbn.
    repeat split. intros id' E'. inversion E'. lia.
Qed.

Lemma play_consistent evs : forall a : State F,
  consistent a -> consistent (play evs a).
Proof.
  induction evs as [|ev evs IH]; intros a Ha; [exact Ha|].
  cbn [play fold_left]. fold (play evs (handle a ev)).
  apply IH, handle_consistent, Ha.
Qed.

Lemma init_consistent : consistent (init (F := F)).
Proof. unfold consistent, init. cbn. repeat split. discriminate. Qed.

Lemma start_running (a : State F) : running (start a) = true.
Proof.
  unfold start. destruct (running a) eqn:R; [exact R|reflexivity].
Qed.

Lemma start_idempotent (a : State F) : start (start a) = start a.
Proof. unfold start at 1. rewrite start_running. reflexivity. Qed.

(** X21: at every moment of a run of the simulator there is exactly one
    pending timer while it is running, the one stored in [after_id], and
    none while it is stopped; so pressing [Start] again never doubles the
    rate of ticks, and a timer that comes due always belongs to the running
    loop. *)
Theorem one_timer_while_running :
  forall evs : list (event F),
    let a := play evs init in
    (running a = true -> exists id, after_id a = Some id /\ pending a = [id])
    /\ (running a = false -> after_id a = None /\ pending a = [])
    /\ start (start a) = start a.
Proof.
  intros evs a.
  destruct (play_consistent evs init init_consistent) as (Hp & Hr & Hf).
  fold a in Hp, Hr, Hf.
  split; [|split].
  - intros R. destruct (after_id a) as [id|]; [eauto|congruence].
  - intros R. destruct (after_id a) as [id|]; [congruence|auto].
  - apply start_idempotent.
Qed.

(** X22: [Pause] really stops the grid: after it, in any run, the grid is
    the one before the pause and no timer that comes due changes anything
    (the pause is kept until the next [Start]); [Reset] stops in the same
    way with the grid of zeros; neither [Pause] nor the sliders touch the
    grid. *)
Theorem pause_and_reset_stop_the_grid :
  forall (evs : list (event F)) (id : nat) (p : Params F),
    let a := play evs init in
    c (pause a) = c a
    /\ running (pause a) = false
    /\ handle (pause a) (Due id) = pause a
    /\ pause (pause a) = pause a
    /\ c (reset a) = _init_grid
    /\ running (reset a) = false
    /\ handle (reset a) (Due id) = reset a
    /\ c (handle a (Slide p)) = c a.
Proof.
  intros evs id p a.
  destruct (play_consistent evs init init_consistent) as (Hp & Hr & Hf).
  fold a in Hp, Hr, Hf.
  assert (Epause : pause a
            = mkState (c a) (params a) false None [] (fresh a)).
  { unfold pause. destruct (after_id a) as [id'|]; rewrite Hp;
      [rewrite remove_timer_single|]; reflexivity. }
  unfold reset. rewrite Epause. cbn.
  repeat split.
Qed.
End AnimationControl.

(* ================================================================= *)
(** * Loading a bank *)

Lemma from_dict_keys d :
  has_required_keys d
  = match from_dict d with Some _ => true | None => false end.
Proof.
  unfold has_required_keys, from_dict.
  destruct (raw_question d), (raw_choices d), (raw_correct_index d);
    reflexivity.
Qed.

Lemma from_dicts_spec raw :
  match from_dicts raw with
  | Some qs => forallb has_required_keys raw = true
               /\ Forall2 (fun d q => from_dict d = Some q) raw qs
  | None => forallb has_required_keys raw = false
  end.
Proof.
  induction raw as [|d raw IH]; cbn [from_dicts forallb].
  - split; [reflexivity|constructor].
  - rewrite from_dict_keys. destruct (from_dict d) as [q|] eqn:E;
      cbn [andb]; [|reflexivity].
    destruct (from_dicts raw) as [qs|]; [|exact IH].
    destruct IH as [Hk Hq]. split; [exact Hk|].
    constructor; assumption.
Qed.

(** X23: loading is all or nothing.  When the file is read and every record
    has the keys [question], [choices] and [correct_index], the engine is
    replaced by a new one over one question per record, in the order of the
    file, with [""], ["General"], [""] and [""] for a missing [id],
    [category], [difficulty] and [rationale], and with no session prepared;
    otherwise (the file cannot be read, or some record lacks one of the
    three keys) the error box is shown and the engine with its session is
    kept as it was. *)
Theorem load_is_all_or_nothing :
  forall (engine : option QuizEngine) (raw : option (list RawQuestion)),
    let result := load_questions_from_path engine raw in
    match raw with
    | Some records =>
        if forallb has_required_keys records
        then exists e,
               result = (Some e, false)
               /\ Forall2 (fun d q =>
                    question q = get_default (raw_question d) ""
                    /\ Some (choices q) = raw_choices d
                    /\ Some (correct_index q) = raw_correct_index d
                    /\ id q = get_default (raw_id d) ""
                    /\ category q = get_default (raw_category d) "General"
                    /\ difficulty q = get_default (raw_difficulty d) ""
                    /\ rationale q = get_default (raw_rationale d) "")
                    records (all_questions e)
               /\ quiz_items e = [] /\ history e = []
               /\ current e = None
        else result = (engine, true)
    | None => result = (engine, true)
    end.
Proof.
  intros engine [records|]; cbn zeta; [|reflexivity].
  unfold load_questions_from_path.
  pose proof (from_dicts_spec records) as Hs.
  destruct (from_dicts records) as [qs|].
  - destruct Hs as [-> Hq]. exists (new_engine qs).
    split; [reflexivity|]. split; [|repeat split].
    cbn [new_engine all_questions].
    revert Hq. apply Forall2_impl. intros d q E. unfold from_dict in E.
    destruct (raw_question d), (raw_choices d), (raw_correct_index d);
      try discriminate.
    inversion E; subst. cbn. repeat split.
  - rewrite Hs. reflexivity.
Qed.

(* ================================================================= *)
(** * Wrapping the institution header *)

Section WrapProperties.
Variable fits : string -> bool.

Local Open Scope string_scope.

Lemma append_assoc (a b c : string) : (a ++ b) ++ c = a ++ (b ++ c).
Proof. induction a as [|x a IH]; cbn; [reflexivity|]. rewrite IH. reflexivity. Qed.

Lemma concat_cons2 sep a b (l : list string) :
  String.concat sep (a :: b :: l) = a ++ sep ++ String.concat sep (b :: l).
Proof. reflexivity. Qed.

Lemma concat_app_nonempty sep (l1 l2 : list string) :
  l1 <> [] -> l2 <> [] ->
  String.concat sep (l1 ++ l2)
  = String.concat sep l1 ++ sep ++ String.concat sep l2.
Proof.
  intros H1 H2. induction l1 as [|a l1 IH]; [congruence|].
  destruct l1 as [|b l1].
  - destruct l2 as [|c l2]; [congruence|]. reflexivity.
  - change ((a :: b :: l1) ++ l2)%list with (a :: b :: (l1 ++ l2))%list.
    rewrite !concat_cons2.
    change (b :: (l1 ++ l2))%list with ((b :: l1) ++ l2)%list.
    rewrite IH by discriminate. rewrite !append_assoc. reflexivity.
Qed.

Lemma join_word_nonempty cur w : w <> "" -> join_word cur w <> "".
Proof.
  unfold join_word. destruct (String.eqb_spec cur "") as [->|N]; [auto|].
  intros _. destruct cur; [congruence|discriminate].
Qed.

Lemma wrap_from_nonempty cur words :
  cur <> "" -> Forall (fun w => w <> "") words ->
  wrap_from fits cur words <> []%list.
Proof.
  intros Hc Hw. revert cur Hc.
  induction Hw as [|w words Hw0 Hw IH]; intros cur Hc; cbn [wrap_from].
  - unfold flush. destruct (String.eqb_spec cur ""); [congruence|discriminate].
  - destruct (fits (join_word cur w)).
    + apply IH, join_word_nonempty, Hw0.
    + unfold flush. destruct (String.eqb_spec cur ""); [congruence|].
      discriminate.
Qed.

Lemma wrap_from_concat cur words :
  Forall (fun w => w <> "") words ->
  String.concat " " (wrap_from fits cur words)
  = String.concat " " (flush cur ++ words).
Proof.
  intros Hw. revert cur.
  induction Hw as [|w words Hw0 Hw IH]; intros cur; cbn [wrap_from].
  - rewrite app_nil_r. reflexivity.
  - destruct (fits (join_word cur w)).
    + rewrite IH. unfold flush at 1.
      destruct (String.eqb_spec (join_word cur w) "") as [E|_];
        [apply join_word_nonempty in E; [destruct E|exact Hw0]|].
      unfold join_word, flush.
      destruct (String.eqb_spec cur "") as [->|N]; [reflexivity|].
      cbn [app]. destruct words as [|w' words].
      * reflexivity.
      * rewrite !concat_cons2, !append_assoc. reflexivity.
    + assert (Ew : String.concat " " (wrap_from fits w words)
                   = String.concat " " (w :: words)).
      { rewrite IH. unfold flush.
        destruct (String.eqb_spec w "") as [E|_]; [congruence|reflexivity]. }
      unfold flush. destruct (String.eqb_spec cur "") as [->|N];
        [exact Ew|].
      rewrite (concat_app_nonempty " " [cur] (wrap_from fits w words))
        by (try discriminate; apply wrap_from_nonempty; assumption).
      rewrite Ew. reflexivity.
Qed.

Lemma wrap_from_lines (W : list string) cur words :
  (cur <> "" -> fits cur = true \/ In cur W) ->
  incl words W ->
  Forall (fun w => w <> "") words ->
  Forall (fun ln => ln <> "" /\ (fits ln = true \/ In ln W))
         (wrap_from fits cur words).
Proof.
  intros Hc Hi Hw. revert cur Hc Hi.
  induction Hw as [|w words Hw0 Hw IH]; intros cur Hc Hi; cbn [wrap_from].
  - unfold flush. destruct (String.eqb_spec cur "") as [->|N];
      constructor; auto.
  - assert (Hi' : incl words W) by (intros x Hx; apply Hi; right; exact Hx).
    destruct (fits (join_word cur w)) eqn:E.
    + apply IH; [intros _; left; exact E|exact Hi'].
    + apply Forall_app. split.
      * unfold flush. destruct (String.eqb_spec cur "") as [->|N];
          constructor; auto.
      * apply IH; [intros _; right; apply Hi; left; reflexivity|exact Hi'].
Qed.

(** X24: wrapping loses nothing: for the words of a raw line (not empty,
    as [split] gives them), the lines, joined by single blanks, spell the
    words joined by single blanks, in the same order; every line is
    non-empty and fits the width, unless it is a single word that is too
    wide by itself. *)
Theorem wrap_keeps_words_and_fits :
  forall words : list string,
    Forall (fun w => w <> "") words ->
    String.concat " " (wrap_from fits "" words) = String.concat " " words
    /\ Forall (fun ln => ln <> "" /\ (fits ln = true \/ In ln words))
              (wrap_from fits "" words).
Proof.
  intros words Hw. split.
  - rewrite wrap_from_concat by exact Hw. reflexivity.
  - apply wrap_from_lines; [congruence|apply incl_refl|exact Hw].
Qed.
End WrapProperties.

Lemma wrap_keeps_words_and_fits_witness :
  let fits := fun t : string => (String.length t <=? 9)%nat in
  let words := ["ENERGETIKA"; "VAZIRLIGI"; "HUZURIDAGI"; "QAYTA"; "OK"] in
  wrap_from fits "" words
  = ["ENERGETIKA"; "VAZIRLIGI"; "HUZURIDAGI"; "QAYTA OK"]
  /\ String.concat " " (wrap_from fits "" words) = String.concat " " words.
Proof.
  split; [reflexivity|].
  apply (wrap_keeps_words_and_fits
           (fun t : string => (String.length t <=? 9)%nat)).
  repeat constructor; discriminate.
Defined.

(* ================================================================= *)
(** * A complete walk through a quiz *)

Local Open Scope Z_scope.

Lemma current_nth e k q :
  index e = Z.of_nat k -> nth_error (quiz_items e) k = Some q ->
  current e = Some q.
Proof.
  intros Hi Hq. unfold current.
  assert (k < length (quiz_items e))%nat
    by (apply nth_error_Some; congruence).
  replace (0 <=? index e) with true by (symmetry; apply Z.leb_le; lia).
  replace (index e <? _) with true by (symmetry; apply Z.ltb_lt; lia).
  cbn [andb]. rewrite Hi, Nat2Z.id. exact Hq.
Qed.

Lemma walk_history answers : forall e k,
  index e = Z.of_nat k ->
  (k + length answers <= length (quiz_items e))%nat ->
  history (run (walk answers) e)
  = history e
    ++ map (fun qa => answer_record (fst qa) (snd qa))
           (combine (skipn k (quiz_items e)) answers).
Proof.
  induction answers as [|a answers IH]; intros e k Hi Hk.
  - cbn. rewrite combine_nil, app_nil_r. reflexivity.
  - cbn [length] in Hk.
    destruct (nth_error (quiz_items e) k) as [q|] eqn:Eq;
      [|apply nth_error_None in Eq; lia].
    pose proof (current_nth e k q Hi Eq) as Hc.
    assert (Es : skipn k (quiz_items e) = q :: skipn (S k) (quiz_items e)).
    { rewrite <- (firstn_skipn_middle _ _ Eq) at 1.
      rewrite skipn_app, length_firstn.
      replace (k - Nat.min k (length (quiz_items e)))%nat with 0%nat by lia.
      rewrite skipn_all2 by (rewrite length_firstn; lia).
      reflexivity. }
    change (walk (a :: answers))
      with ([CheckAndRecord a; Next] ++ walk answers)%list.
    rewrite run_app. cbn [run fold_left step].
    set (e1 := snd (check_and_record e a)).
    assert (H1 : history e1 = history e ++ [answer_record q a]
                 /\ quiz_items e1 = quiz_items e /\ index e1 = index e).
    { unfold e1, check_and_record. rewrite Hc. cbn. repeat split. }
    destruct H1 as (Hh1 & Hq1 & Hi1).
    set (e2 := snd (next e1)).
    assert (H2 : history e2 = history e1 /\ quiz_items e2 = quiz_items e1
                 /\ (answers <> [] -> index e2 = Z.of_nat (S k))).
    { unfold e2, next. rewrite Hq1, Hi1, Hi.
      destruct (Z.of_nat k + 1 <? Z.of_nat (length (quiz_items e))) eqn:E;
        cbn; repeat split; auto.
      - intros _. lia.
      - intros Hne. apply Z.ltb_ge in E.
        destruct answers; [congruence|cbn [length] in Hk; lia]. }
    destruct H2 as (Hh2 & Hq2 & Hi2).
    fold (run (walk answers) e2).
    destruct answers as [|a' answers'].
    + cbn [walk flat_map run fold_left]. rewrite Hh2, Hh1, Es.
      cbn [combine map fst snd]. rewrite combine_nil. reflexivity.
    + rewrite (IH e2 (S k)); [|apply Hi2; discriminate|rewrite Hq2, Hq1; lia].
      rewrite Hh2, Hh1, Hq2, Hq1, Es, <- app_assoc. reflexivity.
Qed.

Lemma all_correct_records (items : list Question) :
  Forall (fun r => rec_is_correct r = true)
         (map (fun qa => answer_record (fst qa) (snd qa))
              (combine items (map correct_index items))).
Proof.
  induction items as [|q items IH]; cbn; constructor; [|exact IH].
  apply Z.eqb_refl.
Qed.

Lemma all_correct_no_wrong (h : list AnswerRecord) :
  Forall (fun r => rec_is_correct r = true) h -> wrong_records h = [].
Proof.
  unfold wrong_records. induction 1 as [|r h Hr _ IH]; [reflexivity|].
  cbn [filter]. rewrite Hr. exact IH.
Qed.

Lemma all_correct_filter (h : list AnswerRecord) :
  Forall (fun r => rec_is_correct r = true) h -> filter rec_is_correct h = h.
Proof.
  induction 1 as [|r h Hr _ IH]; [reflexivity|].
  cbn [filter]. rewrite Hr, IH. reflexivity.
Qed.

(** X25: a complete walk through a quiz (each question answered once, then
    "Next Question") leaves exactly one record per question, in quiz order,
    each the record of its question and answer, and ends on the last
    question, where [next] reports the end.  When every answer is the
    correct index the score equals the number of questions and, for a quiz
    that has a question, the recommendation is the message for no missed
    questions. *)
Theorem complete_walk_records_every_question :
  forall rb e n cat sh answers,
    let s0 := prepare_quiz rb e n cat sh in
    let s := run (walk answers) s0 in
    length answers = length (quiz_items s0) ->
    history s
    = map (fun qa => answer_record (fst qa) (snd qa))
          (combine (quiz_items s0) answers)
    /\ fst (next s) = false
    /\ (answers = map correct_index (quiz_items s0) ->
        score s = Z.of_nat (length (quiz_items s0))
        /\ (quiz_items s0 <> [] ->
            build_recommendations (Some s) = congratulation)).
Proof.
  intros rb e n cat sh answers s0 s Hlen.
  assert (Hh : history s
               = map (fun qa => answer_record (fst qa) (snd qa))
                     (combine (quiz_items s0) answers)).
  { unfold s. rewrite (walk_history answers s0 0%nat); [reflexivity
      |reflexivity|lia]. }
  split; [exact Hh|]. split.
  - pose proof (prepare_session_ok rb e n cat sh) as Hok. fold s0 in Hok.
    assert (Hidx : index s
              = Z.min (Z.of_nat (next_calls (walk answers)))
                      (Z.max 0 (Z.of_nat (length (quiz_items s0)) - 1))).
    { unfold s. rewrite run_index by exact Hok. reflexivity. }
    assert (Hn : next_calls (walk answers) = length answers).
    { clear. induction answers as [|a l IH]; [reflexivity|].
      unfold next_calls in *.
      change (walk (a :: l)) with (CheckAndRecord a :: Next :: walk l).
      cbn [filter length]. rewrite IH. reflexivity. }
    unfold next. unfold s at 2. rewrite run_items. fold s.
    rewrite Hidx, Hn, Hlen.
    destruct (_ <? _) eqn:E; [|reflexivity].
    apply Z.ltb_lt in E. lia.
  - intros ->.
    assert (Hall : Forall (fun r => rec_is_correct r = true) (history s))
      by (rewrite Hh; apply all_correct_records).
    assert (Hw : wrong_records (history s) = [])
      by (apply all_correct_no_wrong, Hall).
    split.
    + unfold score.
      assert (Hs : score_ok s) by (apply run_score_ok; reflexivity).
      unfold score_ok in Hs. rewrite Hs. f_equal.
      unfold correct_entries.
      replace (filter rec_is_correct (history s)) with (history s).
      * rewrite Hh, length_map, length_combine, length_map. lia.
      * symmetry. apply all_correct_filter, Hall.
    + intros Hne. apply build_recommendations_no_wrong; [|exact Hw].
      rewrite Hh. destruct (quiz_items s0); [congruence|discriminate].
Qed.

Lemma complete_walk_records_every_question_witness :
  let s0 := prepare_quiz (fun _ => O)
              (new_engine [sample_question; sample_question]) 2 None false in
  let s := run (walk [0; 1]) s0 in
  history s = [answer_record sample_question 0;
               answer_record sample_question 1]
  /\ fst (next s) = false.
Proof.
  destruct (complete_walk_records_every_question (fun _ => O)
              (new_engine [sample_question; sample_question]) 2 None false
              [0; 1] eq_refl) as (H1 & H2 & _).
  split; [exact H1|exact H2].
Defined.

(* ================================================================= *)
(** * What the recommendations depend on *)

Lemma missed_categories h :
  wrong_categories h = map (fun t => fst (fst t)) (missed_summary h).
Proof.
  unfold wrong_categories, missed_summary. rewrite map_map. reflexivity.
Qed.

Lemma missed_difficulties h :
  wrong_difficulties h = map (fun t => snd (fst t)) (missed_summary h).
Proof.
  unfold wrong_difficulties, missed_summary. rewrite map_map. reflexivity.
Qed.

Lemma missed_rationales_summary h cat :
  missed_rationales h cat
  = map snd (filter (fun t => truthy (snd t) && String.eqb (fst (fst t)) cat)
                    (missed_summary h)).
Proof.
  unfold missed_rationales, missed_summary, wrong_records.
  induction h as [|r h IH]; [reflexivity|]. cbn [filter].
  destruct (negb (rec_is_correct r)); cbn [andb map filter fst snd]; [|exact IH].
  destruct (truthy (rec_rationale r) && String.eqb (rec_category r) cat);
    cbn [map]; rewrite IH; reflexivity.
Qed.

(** X26: the recommendations depend only on the category, difficulty and
    rationale of the incorrect records, in their order: two histories that
    agree on these (whatever their correct answers, questions and chosen
    texts) and hold an incorrect record give the same text. *)
Theorem recommendations_depend_on_missed_only :
  forall e1 e2,
    missed_summary (history e1) = missed_summary (history e2) ->
    wrong_records (history e1) <> [] ->
    build_recommendations (Some e1) = build_recommendations (Some e2).
Proof.
  intros e1 e2 Hs Hw1.
  assert (Hw2 : wrong_records (history e2) <> []).
  { intros E. apply Hw1. unfold missed_summary in Hs. rewrite E in Hs.
    destruct (wrong_records (history e1)); [reflexivity|discriminate]. }
  rewrite (build_recommendations_topics e1 Hw1),
    (build_recommendations_topics e2 Hw2).
  assert (Htop : top_cats (history e1) = top_cats (history e2))
    by (rewrite !top_cats_firstn, !missed_categories, Hs; reflexivity).
  assert (Hhint : difficulty_hint (history e1) = difficulty_hint (history e2))
    by (unfold difficulty_hint;
        rewrite !wrong_by_diff_tally, !missed_difficulties, Hs; reflexivity).
  assert (Hlines : forall cat, category_lines (history e1) cat
                               = category_lines (history e2) cat).
  { intros cat.
    destruct (notes_lines_spec (history e1) cat) as [-> _].
    destruct (notes_lines_spec (history e2) cat) as [-> _].
    rewrite !missed_rationales_summary, Hs. reflexivity. }
  rewrite Htop, Hhint. f_equal. f_equal. f_equal.
  apply flat_map_ext. exact Hlines.
Qed.

Lemma recommendations_depend_on_missed_only_witness :
  build_recommendations
    (Some (engine_with [answered_right "Storage" "easy";
                        missed "Venting" "hard" "Vent high."]))
  = build_recommendations
      (Some (engine_with [missed "Venting" "hard" "Vent high.";
                          answered_right "Leaks" "mid";
                          answered_right "Leaks" "mid"])).
Proof.
  apply recommendations_depend_on_missed_only; [reflexivity|discriminate].
Defined.

(* ================================================================= *)
(** * Rounding in binary64

    The operations of the kernel's binary64 numbers are specified by the
    functions of [SpecFloat]; this part derives from them what the proofs on
    the simulator need: the rounded sum, difference and product of finite
    numbers lie on the same side of every binary64 number as the exact
    result. *)

Local Open Scope Z_scope.

Lemma fexp_eq e : fexp prec emax e = Z.max (e - 53) (-1074).
Proof. reflexivity. Qed.

Lemma digits2_bounds m :
  2 ^ (Z.pos (digits2_pos m) - 1) <= Z.pos m < 2 ^ Z.pos (digits2_pos m).
Proof.
  induction m as [p IH|p IH|]; cbn [digits2_pos].
  - rewrite Pos2Z.inj_succ.
    replace (Z.succ (Z.pos (digits2_pos p)) - 1)
      with (Z.succ (Z.pos (digits2_pos p) - 1)) by lia.
    rewrite !Z.pow_succ_r by lia. lia.
  - rewrite Pos2Z.inj_succ.
    replace (Z.succ (Z.pos (digits2_pos p)) - 1)
      with (Z.succ (Z.pos (digits2_pos p) - 1)) by lia.
    rewrite !Z.pow_succ_r by lia. lia.
  - cbn. lia.
Qed.

Lemma digits2_le m k : 0 <= k -> (Z.pos (digits2_pos m) <= k <-> Z.pos m < 2 ^ k).
Proof.
  intros Hk. pose proof (digits2_bounds m) as [Hl Hu]. split; intros H.
  - eapply Z.lt_le_trans; [exact Hu|]. apply Z.pow_le_mono_r; lia.
  - destruct (Z_le_gt_dec (Z.pos (digits2_pos m)) k) as [|G]; [assumption|].
    assert (2 ^ k <= 2 ^ (Z.pos (digits2_pos m) - 1))
      by (apply Z.pow_le_mono_r; lia).
    lia.
Qed.

Lemma shr_1_shifted m0 k mrs :
  0 <= m0 -> 0 <= k -> shifted m0 k mrs -> shifted m0 (k + 1) (shr_1 mrs).
Proof.
  intros H0 Hk [Hm Hx]. destruct mrs as [m r s]. cbn [shr_m shr_r shr_s] in *.
  assert (P : 0 < 2 ^ k) by (apply Z.pow_pos_nonneg; lia).
  assert (Hm0 : 0 <= m) by (rewrite Hm; apply Z.div_pos; lia).
  assert (E : m0 / 2 ^ (k + 1) = m / 2).
  { rewrite Z.pow_add_r, Z.pow_1_r by lia. rewrite <- Z.div_div by lia.
    rewrite Hm. reflexivity. }
  assert (X : m0 mod 2 ^ (k + 1) = 0 -> m0 mod 2 ^ k = 0 /\ m mod 2 = 0).
  { rewrite Z.pow_add_r, Z.pow_1_r by lia. intros Hz.
    rewrite Z.rem_mul_r in Hz by lia. rewrite <- Hm in Hz.
    pose proof (Z.mod_pos_bound m0 (2 ^ k) P).
    pose proof (Z.mod_pos_bound m 2 ltac:(lia)). nia. }
  split.
  - rewrite E. unfold shr_1.
    destruct m as [|[p|p|]|p]; cbn [shr_m]; try lia; try reflexivity.
    + apply Z.div_unique with (r := 1); lia.
    + apply Z.div_unique with (r := 0); lia.
  - intros Hz. destruct (X Hz) as [Hz1 Hz2]. destruct (Hx Hz1) as [-> ->].
    unfold shr_1.
    destruct m as [|[p|p|]|p]; cbn [shr_r shr_s orb]; try lia;
      try (split; reflexivity); try discriminate.
    all: exfalso; rewrite Pos2Z.inj_xI in Hz2;
      replace (2 * Z.pos p + 1) with (1 + Z.pos p * 2) in Hz2 by lia;
      rewrite Z.mod_add in Hz2 by lia; discriminate.
Qed.

Lemma iter_pos_shifted m0 p : forall k mrs,
  0 <= m0 -> 0 <= k -> shifted m0 k mrs ->
  shifted m0 (k + Z.pos p) (iter_pos shr_1 p mrs).
Proof.
  induction p as [p IH|p IH|]; intros k mrs H0 Hk Hs; cbn [iter_pos].
  - replace (k + Z.pos p~1) with (k + 1 + Z.pos p + Z.pos p) by lia.
    apply IH; [lia|lia|]. apply IH; [lia|lia|]. apply shr_1_shifted; assumption.
  - replace (k + Z.pos p~0) with (k + Z.pos p + Z.pos p) by lia.
    apply IH; [lia|lia|]. apply IH; assumption.
  - apply shr_1_shifted; assumption.
Qed.

Lemma shr_exact m0 e n :
  0 <= m0 -> 0 <= n ->
  let '(mrs, e') := shr (shr_record_of_loc m0 loc_Exact) e n in
  e' = e + n /\ shifted m0 n mrs.
Proof.
  intros H0 Hn. unfold shr. destruct n as [|p|p]; try lia.
  - split; [lia|]. split; cbn; [rewrite Z.div_1_r; reflexivity|auto].
  - split; [reflexivity|].
    apply (iter_pos_shifted m0 p 0); [assumption|lia|].
    split; cbn; [rewrite Z.div_1_r; reflexivity|auto].
Qed.

Lemma round_nearest_even_bounds m0 n mrs :
  shifted m0 n mrs ->
  let r := round_nearest_even (shr_m mrs) (loc_of_shr_record mrs) in
  m0 / 2 ^ n <= r <= m0 / 2 ^ n + 1 /\ (m0 mod 2 ^ n = 0 -> r = m0 / 2 ^ n).
Proof.
  intros [Hm Hx]. destruct mrs as [m r s]. cbn [shr_m shr_r shr_s] in *.
  subst m. split.
  - destruct r, s; cbn; try lia; destruct (Z.even _); lia.
  - intros Hz. destruct (Hx Hz) as [-> ->]. reflexivity.
Qed.

Lemma bounded_facts m e :
  bounded prec emax m e = true ->
  -1074 <= e <= 971 /\ Z.pos m < 2 ^ 53 /\ (-1074 < e -> 2 ^ 52 <= Z.pos m).
Proof.
  unfold bounded, canonical_mantissa. rewrite fexp_eq. intros H.
  apply andb_true_iff in H as [H1 H2].
  apply Z.eqb_eq in H1. apply Z.leb_le in H2.
  change (emax - prec) with 971 in H2.
  pose proof (digits2_bounds m) as [Hl Hu].
  split; [lia|]. split.
  - apply (digits2_le m 53); lia.
  - intros He.
    assert (Z.pos (digits2_pos m) = 53) by lia.
    rewrite H in Hl. exact Hl.
Qed.

Lemma pow2_pos k : 0 <= k -> 0 < 2 ^ k.
Proof. intros. apply Z.pow_pos_nonneg; lia. Qed.

Lemma pow2_split a b : 0 <= a -> 0 <= b -> 2 ^ (a + b) = 2 ^ a * 2 ^ b.
Proof. intros. apply Z.pow_add_r; assumption. Qed.

Lemma second_shift r e1 :
  0 < r <= 2 ^ 53 -> -1074 <= e1 -> (-1074 < e1 -> 2 ^ 52 <= r) ->
  let '(mrs2, e2) := shr_fexp prec emax r e1 loc_Exact in
  exists m2, shr_m mrs2 = Z.pos m2
    /\ ((e2 = e1 /\ Z.pos m2 = r) \/ (e2 = e1 + 1 /\ r = 2 ^ 53 /\ Z.pos m2 = 2 ^ 52)).
Proof.
  intros [Hr0 Hr1] He Hn. unfold shr_fexp. rewrite fexp_eq.
  destruct r as [|q|q]; try lia. cbn [Zdigits2].
  pose proof (digits2_bounds q) as [Hl Hu].
  pose proof (digits2_le q 53 ltac:(lia)) as D53.
  pose proof (digits2_le q 54 ltac:(lia)) as D54.
  pose proof (digits2_le q 52 ltac:(lia)) as D52.
  destruct (Z.eq_dec (Z.pos q) (2 ^ 53)) as [E|NE].
  - assert (Hd : Z.pos (digits2_pos q) = 54).
    { assert (Z.pos q < 2 ^ 54) by (rewrite E; reflexivity).
      assert (~ Z.pos q < 2 ^ 53) by lia. lia. }
    rewrite Hd.
    replace (Z.max (54 + e1 - 53) (-1074) - e1) with 1 by lia.
    pose proof (shr_exact (Z.pos q) e1 1 ltac:(lia) ltac:(lia)) as Hs.
    destruct (shr _ e1 1) as [mrs2 e2]. destruct Hs as [-> [Hm _]].
    rewrite E in Hm. change (2 ^ 53 / 2 ^ 1) with (2 ^ 52) in Hm.
    destruct (shr_m mrs2) as [|m2|m2] eqn:Em; try discriminate.
    exists m2. split; [reflexivity|]. right. repeat split; assumption.
  - assert (Hlt : Z.pos q < 2 ^ 53) by lia.
    assert (Hd : Z.pos (digits2_pos q) <= 53) by (apply D53; exact Hlt).
    assert (Hz : Z.max (Z.pos (digits2_pos q) + e1 - 53) (-1074) - e1 = 0).
    { destruct (Z.eq_dec e1 (-1074)) as [->|Ne]; [lia|].
      assert (2 ^ 52 <= Z.pos q) by (apply Hn; lia).
      assert (~ Z.pos (digits2_pos q) <= 52) by (rewrite D52; lia). lia. }
    rewrite Hz. cbn [shr shr_record_of_loc shr_m].
    exists q. split; [reflexivity|]. left. split; reflexivity.
Qed.

(** Rounding the exact value [mx * 2^ex] to nearest even: the result keeps
    the sign and lies, in magnitude, on the same side of every binary64
    number as the exact value. *)
Lemma binary_round_aux_spec sx mx ex out :
  - scale <= ex ->
  ex <= fexp prec emax (Z.pos (digits2_pos mx) + ex) ->
  out = binary_round_aux prec emax sx (Z.pos mx) ex loc_Exact ->
  has_sign sx out
  /\ forall mc ec, bounded prec emax mc ec = true ->
       (magnitude mc ec <= magnitude mx ex -> ge_mag out (magnitude mc ec))
       /\ (magnitude mx ex <= magnitude mc ec -> le_mag out (magnitude mc ec)).
Proof.
  intros Hex Hpre Hout. unfold binary_round_aux in Hout.
  rewrite fexp_eq in Hpre.
  set (dx := Z.pos (digits2_pos mx)) in *.
  set (e1 := Z.max (dx + ex - 53) (-1074)) in *.
  pose proof (digits2_bounds mx) as [Hl Hu]. fold dx in Hl, Hu.
  assert (Hdx : 1 <= dx) by (unfold dx; lia).
  set (n := e1 - ex).
  assert (Hn : 0 <= n) by (unfold n; lia).
  assert (Hfirst : shr_fexp prec emax (Z.pos mx) ex loc_Exact
                   = shr (shr_record_of_loc (Z.pos mx) loc_Exact) ex n)
    by reflexivity.
  rewrite Hfirst in Hout. clear Hfirst.
  pose proof (shr_exact (Z.pos mx) ex n ltac:(lia) Hn) as Hs.
  destruct (shr (shr_record_of_loc (Z.pos mx) loc_Exact) ex n) as [mrs1 e1'].
  destruct Hs as [He1 Hsh].
  assert (He1' : e1' = e1) by (unfold n in He1; lia). clear He1. subst e1'.
  pose proof (round_nearest_even_bounds _ _ _ Hsh) as [[Hr1 Hr2] Hr3].
  set (r := round_nearest_even (shr_m mrs1) (loc_of_shr_record mrs1)) in *.
  set (m1 := Z.pos mx / 2 ^ n) in *.
  assert (PN : 0 < 2 ^ n) by (apply pow2_pos; exact Hn).
  assert (PP : 0 < 2 ^ (ex + scale)) by (apply pow2_pos; lia).
  assert (E1 : 2 ^ (e1 + scale) = 2 ^ n * 2 ^ (ex + scale)).
  { rewrite <- pow2_split by lia. f_equal. unfold n. lia. }
  assert (Hdiv : Z.pos mx = 2 ^ n * m1 + Z.pos mx mod 2 ^ n)
    by (apply Z.div_mod; lia).
  pose proof (Z.mod_pos_bound (Z.pos mx) (2 ^ n) PN) as Hmod.
  assert (Hm1 : 0 <= m1) by (apply Z.div_pos; lia).
  assert (A : m1 < 2 ^ 53).
  { apply Z.div_lt_upper_bound; [exact PN|].
    rewrite <- pow2_split by lia.
    eapply Z.lt_le_trans; [exact Hu|]. apply Z.pow_le_mono_r; unfold n, e1; lia. }
  assert (B : -1074 < e1 -> 2 ^ 52 <= m1).
  { intros G. apply Z.div_le_lower_bound; [exact PN|].
    rewrite <- pow2_split by lia.
    replace (n + 52) with (dx - 1) by (unfold n, e1; lia). exact Hl. }
  assert (C : -1074 <= e1) by (unfold e1; lia).
  destruct (Z.eq_dec r 0) as [R0|R0].
  - (* underflow to zero *)
    assert (m1 = 0) by lia.
    assert (e1 = -1074).
    { destruct (Z.eq_dec e1 (-1074)); [assumption|].
      assert (2 ^ 52 <= m1) by (apply B; lia).
      assert (0 < 2 ^ 52) by reflexivity. lia. }
    assert (Hsecond : shr_fexp prec emax r e1 loc_Exact
                      = (shr_record_of_loc 0 loc_Exact, e1)).
    { rewrite R0. unfold shr_fexp. cbn [Zdigits2]. rewrite fexp_eq.
      replace (Z.max (0 + e1 - 53) (-1074) - e1) with 0 by lia.
      reflexivity. }
    rewrite Hsecond in Hout. cbn in Hout. subst out.
    split; [reflexivity|]. intros mc ec Hb.
    destruct (bounded_facts mc ec Hb) as ([Hec1 Hec2] & Hmc & _).
    split; [|intros _; exact I].
    intros Hle. exfalso. unfold magnitude in Hle.
    assert (Q : 2 ^ (e1 + scale) <= 2 ^ (ec + scale))
      by (apply Z.pow_le_mono_r; lia).
    assert (PQ : 0 < 2 ^ (ec + scale)) by (apply pow2_pos; unfold scale; lia).
    assert (Z.pos mx < 2 ^ n) by lia.
    assert (Z.pos mx * 2 ^ (ex + scale) < 2 ^ n * 2 ^ (ex + scale))
      by (apply Z.mul_lt_mono_pos_r; lia).
    assert (1 * 2 ^ (ec + scale) <= Z.pos mc * 2 ^ (ec + scale))
      by (apply Z.mul_le_mono_nonneg_r; lia).
    lia.
  - assert (Hrpos : 0 < r <= 2 ^ 53) by lia.
    assert (Hrn : -1074 < e1 -> 2 ^ 52 <= r) by (intros G; specialize (B G); lia).
    pose proof (second_shift r e1 Hrpos C Hrn) as H2.
    destruct (shr_fexp prec emax r e1 loc_Exact) as [mrs2 e2].
    destruct H2 as (m2 & Em2 & Hcase). rewrite Em2 in Hout.
    change (emax - prec) with 971 in Hout. subst out.
    assert (Mag : magnitude m2 e2 = r * 2 ^ (e1 + scale)).
    { unfold magnitude. destruct Hcase as [[-> ->]|(-> & Er & ->)];
        [reflexivity|].
      rewrite Er. replace (e1 + 1 + scale) with (1 + (e1 + scale)) by lia.
      rewrite pow2_split by (unfold scale; lia).
      change (2 ^ 1) with 2. change (2 ^ 53) with (2 ^ 52 * 2). ring. }
    assert (P1 : 0 < 2 ^ (e1 + scale)) by (apply pow2_pos; unfold scale; lia).
    split; [destruct (e2 <=? 971); reflexivity|].
    intros mc ec Hb.
    destruct (bounded_facts mc ec Hb) as ([Hec1 Hec2] & Hmc & Hmcn).
    assert (PQ : 0 < 2 ^ (ec + scale)) by (apply pow2_pos; unfold scale; lia).
    destruct (Z_le_gt_dec e1 ec) as [Hle|Hgt].
    + (* the bound is a multiple of the rounding unit *)
      assert (EC : 2 ^ (ec + scale) = 2 ^ (ec - e1) * 2 ^ (e1 + scale)).
      { rewrite <- pow2_split by (unfold scale; lia). f_equal. lia. }
      assert (PD : 0 < 2 ^ (ec - e1)) by (apply pow2_pos; lia).
      set (Cc := Z.pos mc * 2 ^ (ec - e1)).
      assert (MC : magnitude mc ec = Cc * 2 ^ (e1 + scale))
        by (unfold magnitude, Cc; rewrite EC; ring).
      assert (MX : magnitude mx ex * 2 ^ n
                   = Z.pos mx * 2 ^ (e1 + scale))
        by (unfold magnitude; rewrite E1; ring).
      split.
      * intros Hv.
        assert (Cc <= m1).
        { apply Z.div_le_lower_bound; [exact PN|].
          rewrite MC in Hv. unfold magnitude in Hv. rewrite E1 in Hv.
          apply (Z.mul_le_mono_pos_r _ _ (2 ^ (ex + scale)) PP). lia. }
        destruct (e2 <=? 971); cbn [ge_mag]; [|exact I].
        rewrite Mag, MC. apply Z.mul_le_mono_nonneg_r; lia.
      * intros Hv.
        assert (Hrc : r <= Cc).
        { rewrite MC in Hv. unfold magnitude in Hv. rewrite E1 in Hv.
          assert (Hx : Z.pos mx <= Cc * 2 ^ n)
            by (apply (Z.mul_le_mono_pos_r _ _ (2 ^ (ex + scale)) PP); lia).
          destruct (Z.eq_dec (Z.pos mx mod 2 ^ n) 0) as [Z0|NZ].
          - rewrite (Hr3 Z0). fold m1.
            apply (Z.mul_le_mono_pos_r _ _ (2 ^ n) PN). lia.
          - assert (Z.pos mx <> Cc * 2 ^ n).
            { intros Eq. apply NZ. rewrite Eq. apply Z.mod_mul. lia. }
            assert (m1 < Cc) by (apply Z.div_lt_upper_bound; [exact PN|lia]).
            lia. }
        assert (He2 : e2 <= 971).
        { destruct Hcase as [[-> _]|(-> & Er & _)]; [lia|].
          assert (1 <= ec - e1); [|lia].
          destruct (Z_le_gt_dec 1 (ec - e1)); [assumption|].
          assert (ec - e1 = 0) by lia.
          unfold Cc in Hrc. rewrite H in Hrc. change (2 ^ 0) with 1 in Hrc.
          lia. }
        apply Z.leb_le in He2. rewrite He2. cbn [le_mag].
        rewrite Mag, MC. apply Z.mul_le_mono_nonneg_r; lia.
    + (* the bound lies below the rounding unit's binade *)
      assert (G : 2 ^ 52 <= m1) by (apply B; lia).
      assert (EC : 2 ^ (e1 + scale) = 2 ^ (e1 - ec) * 2 ^ (ec + scale)).
      { rewrite <- pow2_split by (unfold scale; lia). f_equal. lia. }
      assert (PD : 2 <= 2 ^ (e1 - ec)).
      { change 2 with (2 ^ 1) at 1. apply Z.pow_le_mono_r; lia. }
      assert (Big : magnitude mc ec < m1 * 2 ^ (e1 + scale)).
      { unfold magnitude. rewrite EC.
        change (2 ^ 53) with (2 ^ 52 * 2) in Hmc.
        assert (m1 * 2 <= m1 * 2 ^ (e1 - ec))
          by (apply Z.mul_le_mono_nonneg_l; lia).
        assert (Z.pos mc * 2 ^ (ec + scale)
                < (m1 * 2 ^ (e1 - ec)) * 2 ^ (ec + scale))
          by (apply Z.mul_lt_mono_pos_r; lia).
        lia. }
      assert (Hm1r : m1 * 2 ^ (e1 + scale) <= r * 2 ^ (e1 + scale))
        by (apply Z.mul_le_mono_nonneg_r; lia).
      split.
      * intros _. destruct (e2 <=? 971); cbn [ge_mag]; [|exact I].
        rewrite Mag. lia.
      * intros Hv. exfalso. unfold magnitude in Hv, Big.
        rewrite E1 in Big.
        assert (2 ^ n * m1 * 2 ^ (ex + scale) <= Z.pos mx * 2 ^ (ex + scale))
          by (apply Z.mul_le_mono_nonneg_r; lia).
        lia.
Qed.

Lemma magnitude_pos m e : - scale <= e -> 0 < magnitude m e.
Proof.
  intros H. unfold magnitude.
  assert (0 < 2 ^ (e + scale)) by (apply pow2_pos; lia). lia.
Qed.

Lemma magnitude_nonneg m e : 0 <= magnitude m e.
Proof.
  unfold magnitude. assert (0 <= 2 ^ (e + scale)) by (apply Z.pow_nonneg; lia).
  lia.
Qed.

Lemma compare_magnitude m1 e1 m2 e2 :
  bounded prec emax m1 e1 = true -> bounded prec emax m2 e2 = true ->
  match e1 ?= e2 with
  | Lt => Lt
  | Gt => Gt
  | Eq => Pos.compare_cont Eq m1 m2
  end = (magnitude m1 e1 ?= magnitude m2 e2).
Proof.
  intros H1 H2.
  destruct (bounded_facts m1 e1 H1) as ([L1 U1] & B1 & N1).
  destruct (bounded_facts m2 e2 H2) as ([L2 U2] & B2 & N2).
  assert (P1 : 0 < 2 ^ (e1 + scale)) by (apply pow2_pos; unfold scale; lia).
  assert (P2 : 0 < 2 ^ (e2 + scale)) by (apply pow2_pos; unfold scale; lia).
  change (2 ^ 53) with (2 ^ 52 * 2) in B1, B2.
  unfold magnitude. symmetry.
  destruct (Z.compare_spec e1 e2) as [E|L|G].
  - subst e2. change (Pos.compare_cont Eq m1 m2) with (Pos.compare m1 m2).
    rewrite Pos2Z.inj_compare.
    destruct (Z.compare_spec (Z.pos m1) (Z.pos m2)) as [E|L|G].
    + rewrite E. apply Z.compare_refl.
    + apply Z.compare_lt_iff. nia.
    + apply Z.compare_gt_iff. nia.
  - apply Z.compare_lt_iff.
    assert (EC : 2 ^ (e2 + scale) = 2 ^ (e2 - e1) * 2 ^ (e1 + scale)).
    { rewrite <- pow2_split by (unfold scale; lia). f_equal. lia. }
    assert (PD : 2 <= 2 ^ (e2 - e1)).
    { change 2 with (2 ^ 1) at 1. apply Z.pow_le_mono_r; lia. }
    assert (2 ^ 52 <= Z.pos m2) by (apply N2; lia).
    rewrite EC. nia.
  - apply Z.compare_gt_iff.
    assert (EC : 2 ^ (e1 + scale) = 2 ^ (e1 - e2) * 2 ^ (e2 + scale)).
    { rewrite <- pow2_split by (unfold scale; lia). f_equal. lia. }
    assert (PD : 2 <= 2 ^ (e1 - e2)).
    { change 2 with (2 ^ 1) at 1. apply Z.pow_le_mono_r; lia. }
    assert (2 ^ 52 <= Z.pos m1) by (apply N1; lia).
    rewrite EC. nia.
Qed.

Lemma SFcompare_ext a b xa xb :
  valid_binary a = true -> valid_binary b = true ->
  ext_of a = Some xa -> ext_of b = Some xb ->
  SFcompare a b = Some (ext_compare xa xb).
Proof.
  intros Va Vb Ea Eb.
  destruct a as [sa|sa| |sa ma ea], b as [sb|sb| |sb mb eb];
    cbn [ext_of] in Ea, Eb; try discriminate;
    injection Ea as <-; injection Eb as <-; cbn [SFcompare ext_compare].
  - reflexivity.
  - destruct sb; reflexivity.
  - cbn [valid_binary] in Vb. destruct (bounded_facts mb eb Vb) as ([L _] & _).
    pose proof (magnitude_pos mb eb ltac:(unfold scale; lia)).
    destruct sb; cbn [cond_Zopp]; f_equal; symmetry;
      [apply Z.compare_gt_iff|apply Z.compare_lt_iff]; lia.
  - destruct sa; reflexivity.
  - destruct sa, sb; reflexivity.
  - destruct sa; reflexivity.
  - cbn [valid_binary] in Va. destruct (bounded_facts ma ea Va) as ([L _] & _).
    pose proof (magnitude_pos ma ea ltac:(unfold scale; lia)).
    destruct sa; cbn [cond_Zopp]; f_equal; symmetry;
      [apply Z.compare_lt_iff|apply Z.compare_gt_iff]; lia.
  - destruct sb; reflexivity.
  - cbn [valid_binary] in Va, Vb.
    destruct (bounded_facts ma ea Va) as ([La _] & _).
    destruct (bounded_facts mb eb Vb) as ([Lb _] & _).
    pose proof (magnitude_pos ma ea ltac:(unfold scale; lia)).
    pose proof (magnitude_pos mb eb ltac:(unfold scale; lia)).
    pose proof (compare_magnitude ma ea mb eb Va Vb) as Hc.
    destruct sa, sb; cbn [cond_Zopp]; f_equal.
    + rewrite Z.compare_opp.
      rewrite (Z.compare_antisym (magnitude ma ea) (magnitude mb eb)), <- Hc.
      destruct (ea ?= eb); reflexivity.
    + symmetry. apply Z.compare_lt_iff. lia.
    + symmetry. apply Z.compare_gt_iff. lia.
    + exact Hc.
Qed.

Lemma SFleb_ext a b xa xb :
  valid_binary a = true -> valid_binary b = true ->
  ext_of a = Some xa -> ext_of b = Some xb ->
  SFleb a b = ext_leb xa xb.
Proof.
  intros Va Vb Ea Eb. unfold SFleb.
  rewrite (SFcompare_ext a b xa xb Va Vb Ea Eb).
  destruct xa as [|u|], xb as [|v|]; cbn; try reflexivity;
    unfold Z.leb; destruct (u ?= v); reflexivity.
Qed.

Lemma SFltb_ext a b xa xb :
  valid_binary a = true -> valid_binary b = true ->
  ext_of a = Some xa -> ext_of b = Some xb ->
  SFltb a b = ext_ltb xa xb.
Proof.
  intros Va Vb Ea Eb. unfold SFltb, ext_ltb.
  rewrite (SFcompare_ext a b xa xb Va Vb Ea Eb).
  destruct xa as [|u|], xb as [|v|]; cbn; try reflexivity;
    unfold Z.leb; rewrite (Z.compare_antisym u v);
    destruct (u ?= v); reflexivity.
Qed.

Lemma rounds_to_exact v out : ext_of out = Some (Fin v) -> rounds_to v out.
Proof.
  intros E. exists (Fin v). split; [exact E|].
  intros c vc _ _. cbn. split; intros; apply Z.leb_le; assumption.
Qed.

(** A rounded positive or negative value. *)
Lemma rounds_to_signed sx mx ex out :
  - scale <= ex ->
  (has_sign sx out
   /\ forall mc ec, bounded prec emax mc ec = true ->
        (magnitude mc ec <= magnitude mx ex -> ge_mag out (magnitude mc ec))
        /\ (magnitude mx ex <= magnitude mc ec
            -> le_mag out (magnitude mc ec))) ->
  rounds_to (cond_Zopp sx (magnitude mx ex)) out.
Proof.
  intros Hex [Hs Hb].
  pose proof (magnitude_pos mx ex Hex) as Vpos.
  assert (Ho : exists xo, ext_of out = Some xo)
    by (destruct out; cbn [ext_of has_sign] in *; try contradiction; eauto).
  destruct Ho as [xo Exo]. exists xo. split; [exact Exo|].
  intros c vc Vc Ec.
  destruct c as [sc|sc| |sc mc ec]; cbn [ext_of] in Ec; try discriminate;
    try (destruct sc; discriminate); injection Ec as <-.
  - (* the bound is zero *)
    destruct out as [so|so| |so mo eo]; cbn [ext_of has_sign] in Hs, Exo; try contradiction;
      subst so; injection Exo as <-;
      try (pose proof (magnitude_nonneg mo eo));
      destruct sx; cbn [cond_Zopp ext_leb]; split; intros; try reflexivity;
      try (apply Z.leb_le); lia.
  - cbn [valid_binary] in Vc. destruct (Hb mc ec Vc) as [Hge Hle].
    destruct (bounded_facts mc ec Vc) as ([Lc _] & _).
    pose proof (magnitude_pos mc ec ltac:(unfold scale; lia)) as Cpos.
    destruct out as [so|so| |so mo eo]; cbn [ext_of has_sign] in Hs, Exo; try contradiction;
      subst so; injection Exo as <-;
      try (pose proof (magnitude_nonneg mo eo));
      cbn [ge_mag le_mag] in Hge, Hle;
      destruct sx, sc; cbn [cond_Zopp ext_leb]; split; intros;
      try reflexivity; try (apply Z.leb_le); try lia;
      try (exfalso; apply Hge; lia); try (exfalso; apply Hle; lia);
      try (specialize (Hge ltac:(lia)); lia);
      try (specialize (Hle ltac:(lia)); lia).
Qed.

Lemma iter_xO m d : Z.pos (Pos.iter xO m d) = Z.pos m * 2 ^ Z.pos d.
Proof.
  induction d as [|d IH] using Pos.peano_ind.
  - cbn. lia.
  - rewrite Pos.iter_succ, Pos2Z.inj_xO, IH, Pos2Z.inj_succ.
    rewrite Z.pow_succ_r by lia. ring.
Qed.

Lemma shl_align_spec mx ex e' :
  let '(mz, ez) := shl_align mx ex e' in
  ez = Z.min ex e' /\ Z.pos mz = Z.pos mx * 2 ^ (ex - ez).
Proof.
  unfold shl_align. destruct (e' - ex) as [|d|d] eqn:E.
  - split; [lia|]. replace (ex - ex) with 0 by lia. lia.
  - split; [lia|]. replace (ex - ex) with 0 by lia. lia.
  - split; [lia|]. rewrite iter_xO. f_equal. f_equal. lia.
Qed.

Lemma binary_round_spec sx mx ex out :
  - scale <= ex ->
  out = binary_round prec emax sx mx ex ->
  rounds_to (cond_Zopp sx (magnitude mx ex)) out.
Proof.
  intros Hex Hout. unfold binary_round in Hout.
  pose proof (shl_align_spec mx ex
                (fexp prec emax (Z.pos (digits2_pos mx) + ex))) as Hs.
  destruct (shl_align mx ex _) as [mz ez]. destruct Hs as [Ez Emz].
  rewrite fexp_eq in Ez.
  pose proof (digits2_bounds mx) as [Hl Hu].
  assert (Hez : - scale <= ez) by (unfold scale in *; lia).
  assert (Hsh : 0 <= ex - ez) by lia.
  assert (Emag : magnitude mz ez = magnitude mx ex).
  { unfold magnitude. rewrite Emz.
    replace (ex + scale) with ((ex - ez) + (ez + scale)) by lia.
    rewrite (pow2_split (ex - ez) (ez + scale)) by lia. ring. }
  rewrite <- Emag. apply rounds_to_signed; [exact Hez|].
  apply binary_round_aux_spec; [exact Hez| |exact Hout].
  rewrite fexp_eq.
  assert (Hd : Z.pos (digits2_pos mx) + (ex - ez) <= Z.pos (digits2_pos mz)).
  { destruct (Z_le_gt_dec (Z.pos (digits2_pos mx) + (ex - ez))
                          (Z.pos (digits2_pos mz))) as [|G]; [assumption|].
    exfalso.
    assert (Hlt : Z.pos mz < 2 ^ (Z.pos (digits2_pos mx) + (ex - ez) - 1)).
    { apply digits2_le; lia. }
    replace (Z.pos (digits2_pos mx) + (ex - ez) - 1)
      with ((Z.pos (digits2_pos mx) - 1) + (ex - ez)) in Hlt by lia.
    rewrite (pow2_split (Z.pos (digits2_pos mx) - 1) (ex - ez)) in Hlt by lia.
    assert (0 < 2 ^ (ex - ez)) by (apply pow2_pos; lia).
    nia. }
  lia.
Qed.

Lemma binary_normalize_spec M e :
  - scale <= e ->
  rounds_to (M * 2 ^ (e + scale)) (binary_normalize prec emax M e false).
Proof.
  intros He. destruct M as [|m|m]; cbn [binary_normalize].
  - apply rounds_to_exact. reflexivity.
  - apply (binary_round_spec false m e); [exact He|reflexivity].
  - replace (Z.neg m * 2 ^ (e + scale)) with (cond_Zopp true (magnitude m e))
      by (unfold magnitude; cbn [cond_Zopp]; rewrite <- Pos2Z.opp_pos; ring).
    apply (binary_round_spec true m e); [exact He|reflexivity].
Qed.

Lemma aligned_value s m e ez v :
  finite_value (S754_finite s m e) v -> ez <= e -> -1074 <= ez ->
  cond_Zopp s (Z.pos (fst (shl_align m e ez))) * 2 ^ (ez + scale) = v.
Proof.
  intros [V E] Hle Hez. cbn [ext_of] in E. injection E as <-.
  pose proof (shl_align_spec m e ez) as Hs.
  destruct (shl_align m e ez) as [mz ez']. destruct Hs as [E1 E2].
  cbn [fst]. rewrite E2.
  replace ez' with ez by lia.
  unfold magnitude.
  replace (e + scale) with ((e - ez) + (ez + scale)) by lia.
  rewrite (pow2_split (e - ez) (ez + scale)) by (unfold scale; lia).
  destruct s; cbn [cond_Zopp]; ring.
Qed.

Lemma finite_exponent s m e v :
  finite_value (S754_finite s m e) v -> -1074 <= e <= 971.
Proof. intros [V _]. apply (bounded_facts m e V). Qed.

Ltac not_finite H :=
  destruct H as [_ H]; cbn [ext_of] in H;
  first [discriminate
        |match type of H with
         | context [if ?s then _ else _] => destruct s; discriminate
         end].

Lemma SFadd_spec x y vx vy :
  finite_value x vx -> finite_value y vy ->
  rounds_to (vx + vy) (SFadd prec emax x y).
Proof.
  intros Hx Hy.
  destruct x as [sx|sx| |sx mx ex]; try (not_finite Hx);
  destruct y as [sy|sy| |sy my ey]; try (not_finite Hy).
  - destruct Hx as [_ Hx], Hy as [_ Hy]. injection Hx as <-. injection Hy as <-.
    apply rounds_to_exact. cbn. destruct sx, sy; reflexivity.
  - destruct Hx as [_ Hx]. injection Hx as <-. cbn [SFadd].
    apply rounds_to_exact. apply Hy.
  - destruct Hy as [_ Hy]. injection Hy as <-. cbn [SFadd].
    rewrite Z.add_0_r. apply rounds_to_exact. apply Hx.
  - pose proof (finite_exponent _ _ _ _ Hx). pose proof (finite_exponent _ _ _ _ Hy).
    cbn [SFadd].
    set (ez := Z.min ex ey).
    rewrite <- (aligned_value sx mx ex ez vx Hx) by (unfold ez; lia).
    rewrite <- (aligned_value sy my ey ez vy Hy) by (unfold ez; lia).
    rewrite <- Z.mul_add_distr_r.
    apply binary_normalize_spec. unfold scale, ez. lia.
Qed.

Lemma SFsub_spec x y vx vy :
  finite_value x vx -> finite_value y vy ->
  rounds_to (vx - vy) (SFsub prec emax x y).
Proof.
  intros Hx Hy.
  destruct x as [sx|sx| |sx mx ex]; try (not_finite Hx);
  destruct y as [sy|sy| |sy my ey]; try (not_finite Hy).
  - destruct Hx as [_ Hx], Hy as [_ Hy]. injection Hx as <-. injection Hy as <-.
    apply rounds_to_exact. cbn. destruct sx, sy; reflexivity.
  - destruct Hx as [_ Hx]. injection Hx as <-. cbn [SFsub].
    destruct Hy as [_ Hy]. cbn [ext_of] in Hy. injection Hy as <-.
    apply rounds_to_exact. cbn [ext_of]. f_equal. f_equal.
    destruct sy; cbn [negb cond_Zopp]; lia.
  - destruct Hy as [_ Hy]. injection Hy as <-. cbn [SFsub].
    rewrite Z.sub_0_r. apply rounds_to_exact. apply Hx.
  - pose proof (finite_exponent _ _ _ _ Hx). pose proof (finite_exponent _ _ _ _ Hy).
    cbn [SFsub].
    set (ez := Z.min ex ey).
    rewrite <- (aligned_value sx mx ex ez vx Hx) by (unfold ez; lia).
    rewrite <- (aligned_value sy my ey ez vy Hy) by (unfold ez; lia).
    rewrite <- Z.mul_sub_distr_r.
    apply binary_normalize_spec. unfold scale, ez. lia.
Qed.

Lemma SFmul_spec x y vx vy :
  finite_value x vx -> finite_value y vy ->
  exists v, v * 2 ^ scale = vx * vy /\ rounds_to v (SFmul prec emax x y).
Proof.
  intros Hx Hy.
  destruct x as [sx|sx| |sx mx ex]; try (not_finite Hx);
  destruct y as [sy|sy| |sy my ey]; try (not_finite Hy).
  - destruct Hx as [_ Hx], Hy as [_ Hy]. injection Hx as <-. injection Hy as <-.
    exists 0. split; [reflexivity|]. apply rounds_to_exact. reflexivity.
  - destruct Hx as [_ Hx]. injection Hx as <-.
    exists 0. split; [reflexivity|]. apply rounds_to_exact. reflexivity.
  - destruct Hy as [_ Hy]. injection Hy as <-.
    exists 0. split; [lia|]. apply rounds_to_exact. reflexivity.
  - destruct Hx as [Vx Hx], Hy as [Vy Hy]. cbn [valid_binary] in Vx, Vy.
    cbn [ext_of] in Hx, Hy. injection Hx as <-. injection Hy as <-.
    destruct (bounded_facts mx ex Vx) as ([Lx Ux] & Bx & Nx).
    destruct (bounded_facts my ey Vy) as ([Ly Uy] & By & Ny).
    exists (cond_Zopp (xorb sx sy) (magnitude (mx * my) (ex + ey))). split.
    + unfold magnitude.
      replace (ex + scale) with ((ex + 1074) + 1074) by (unfold scale; lia).
      replace (ey + scale) with ((ey + 1074) + 1074) by (unfold scale; lia).
      replace (ex + ey + scale) with ((ex + 1074) + (ey + 1074))
        by (unfold scale; lia).
      change scale with (1074 + 1074).
      rewrite (pow2_split (ex + 1074) 1074), (pow2_split (ey + 1074) 1074),
        (pow2_split (ex + 1074) (ey + 1074)), (pow2_split 1074 1074) by lia.
      rewrite Pos2Z.inj_mul.
      destruct sx, sy; cbn [xorb cond_Zopp]; ring.
    + cbn [SFmul]. apply rounds_to_signed; [unfold scale; lia|].
      apply binary_round_aux_spec; [unfold scale; lia| |reflexivity].
      rewrite fexp_eq.
      destruct (Z_le_gt_dec (ex + ey) (-1074)) as [|G]; [lia|].
      assert (Hp : 2 ^ 52 <= Z.pos (mx * my)).
      { rewrite Pos2Z.inj_mul.
        destruct (Z.eq_dec ex (-1074)) as [Ex|Ex].
        - assert (2 ^ 52 <= Z.pos my) by (apply Ny; lia). nia.
        - assert (2 ^ 52 <= Z.pos mx) by (apply Nx; lia). nia. }
      assert (~ Z.pos (digits2_pos (mx * my)) <= 52).
      { intros D. apply digits2_le in D; lia. }
      lia.
Qed.

Lemma FV_finite_value x v : FV x v -> finite_value (Prim2SF x) v.
Proof. intros H. split; [apply Prim2SF_valid|exact H]. Qed.

Lemma float_leb_ext a b xa xb :
  value_of a = Some xa -> value_of b = Some xb ->
  PrimFloat.leb a b = ext_leb xa xb.
Proof.
  intros Ha Hb. rewrite FloatAxioms.leb_spec.
  apply SFleb_ext; auto using Prim2SF_valid.
Qed.

Lemma float_ltb_ext a b xa xb :
  value_of a = Some xa -> value_of b = Some xb ->
  PrimFloat.ltb a b = ext_ltb xa xb.
Proof.
  intros Ha Hb. rewrite FloatAxioms.ltb_spec.
  apply SFltb_ext; auto using Prim2SF_valid.
Qed.

Lemma FV_leb a b va vb : FV a va -> FV b vb -> PrimFloat.leb a b = (va <=? vb).
Proof. intros Ha Hb. apply (float_leb_ext a b _ _ Ha Hb). Qed.

Lemma FV_ltb a b va vb : FV a va -> FV b vb -> PrimFloat.ltb a b = (va <? vb).
Proof.
  intros Ha Hb. rewrite (float_ltb_ext a b _ _ Ha Hb).
  unfold ext_ltb, ext_leb. rewrite Z.ltb_antisym. reflexivity.
Qed.

Lemma leb_value a b :
  PrimFloat.leb a b = true ->
  exists xa xb, value_of a = Some xa /\ value_of b = Some xb
                /\ ext_leb xa xb = true.
Proof.
  intros H. pose proof H as H'. rewrite FloatAxioms.leb_spec in H. unfold SFleb in H.
  unfold value_of.
  destruct (Prim2SF a) as [sa|sa| |sa ma ea] eqn:Ea;
    destruct (Prim2SF b) as [sb|sb| |sb mb eb] eqn:Eb;
    cbn [SFcompare] in H; try discriminate;
    (eexists; eexists; split; [reflexivity|]; split; [reflexivity|]);
    erewrite <- float_leb_ext; try exact H';
    unfold value_of; rewrite ?Ea, ?Eb; reflexivity.
Qed.

Lemma leb_between z l h vl vh :
  FV l vl -> FV h vh ->
  PrimFloat.leb l z = true -> PrimFloat.leb z h = true ->
  exists vz, FV z vz /\ vl <= vz <= vh.
Proof.
  intros Hl Hh H1 H2.
  destruct (leb_value l z H1) as (xl & xz & El & Ez & L1).
  destruct (leb_value z h H2) as (xz' & xh & Ez' & Eh & L2).
  unfold FV in Hl, Hh. rewrite Hl in El. rewrite Hh in Eh. rewrite Ez in Ez'.
  injection El as <-. injection Eh as <-. injection Ez' as <-.
  destruct xz as [|vz|]; cbn in L1, L2; try discriminate.
  exists vz. split; [exact Ez|]. apply Z.leb_le in L1, L2. lia.
Qed.

Lemma add_rounds x y vx vy : FV x vx -> FV y vy -> rounds (vx + vy) (x + y).
Proof.
  intros Hx Hy. unfold rounds. rewrite FloatAxioms.add_spec.
  apply SFadd_spec; apply FV_finite_value; assumption.
Qed.

Lemma sub_rounds x y vx vy : FV x vx -> FV y vy -> rounds (vx - vy) (x - y).
Proof.
  intros Hx Hy. unfold rounds. rewrite FloatAxioms.sub_spec.
  apply SFsub_spec; apply FV_finite_value; assumption.
Qed.

Lemma mul_rounds x y vx vy :
  FV x vx -> FV y vy ->
  exists v, v * 2 ^ scale = vx * vy /\ rounds v (x * y).
Proof.
  intros Hx Hy. unfold rounds. rewrite FloatAxioms.mul_spec.
  apply SFmul_spec; apply FV_finite_value; assumption.
Qed.

Lemma rounds_ge v z l vl :
  rounds v z -> FV l vl -> vl <= v -> PrimFloat.leb l z = true.
Proof.
  intros (xo & Exo & Hb) Hl Hle.
  rewrite (float_leb_ext l z (Fin vl) xo Hl Exo).
  apply (Hb (Prim2SF l) vl (Prim2SF_valid l) Hl). exact Hle.
Qed.

Lemma rounds_le v z h vh :
  rounds v z -> FV h vh -> v <= vh -> PrimFloat.leb z h = true.
Proof.
  intros (xo & Exo & Hb) Hh Hle.
  rewrite (float_leb_ext z h xo (Fin vh) Exo Hh).
  apply (Hb (Prim2SF h) vh (Prim2SF_valid h) Hh). exact Hle.
Qed.

Lemma rounds_between v z l h vl vh :
  rounds v z -> FV l vl -> FV h vh -> vl <= v <= vh ->
  exists vz, FV z vz /\ vl <= vz <= vh.
Proof.
  intros Hr Hl Hh [H1 H2].
  apply (leb_between z l h vl vh Hl Hh).
  - apply (rounds_ge v z l vl Hr Hl H1).
  - apply (rounds_le v z h vh Hr Hh H2).
Qed.

Lemma FV_not_nan x v : FV x v -> PrimFloat.is_nan x = false.
Proof.
  intros H. unfold PrimFloat.is_nan. rewrite FloatAxioms.eqb_spec. unfold SFeqb.
  rewrite (SFcompare_ext _ _ (Fin v) (Fin v) (Prim2SF_valid x)
             (Prim2SF_valid x) H H).
  cbn. rewrite Z.compare_refl. reflexivity.
Qed.
